(** * Shader-Pilot: the per-frame simulation core of [useAppStore]

    A shallow embedding of the store hook of the repository (the game loop,
    the audio generators and the session load/save functions) together
    with the properties of the simulation core that the specification
    states about them.

    Numbers.  In the frame a JavaScript number is modelled as an exact
    rational [Q]: every arithmetic operation is the exact one, so IEEE-754
    rounding, the binary32 rounding of stores into a [Float32Array], [NaN]
    and the infinities are outside that model.  [Math.sin], [Math.cos] and
    [Math.sqrt] belong to the host and are not rational functions: they
    are variables of the section that holds the game loop.  [Math.random]
    and the clocks of the host are inputs of a frame.

    Where rounding, [NaN] or an infinity decides a property (the router of
    the modulations, the clamps of the live state, the intervals and the
    lookahead test of the schedulers), the same code is embedded a second
    time over an arbitrary number type with its operations, and run on the
    binary64 numbers of the host in the module [Host64].

    The store.  React state and the refs that mirror it are one value; a
    setter writes it at once.  The audio context and the node table are one
    optional value, of which the model keeps which instrument buses exist.

    Left out of the frame: the fade between view modes, terraforming, and
    the ramps that the audio block writes to the nodes of the graph.  None
    of them writes the camera, the collision refs, the telemetry, the
    accumulators or the schedulers.  The fade and the terraforming block
    are functions of their own, [viewTransitionStep] and [terraformStep],
    which take the frame time of the frame.

    Beside the hook, the file embeds what the HUD and the ship overlay
    compute from the refs of the hook: the compass and the climb-rate
    marker of [components/Hud], and the smoothing of the flames and of the
    attitude of the ship in [components/ShipOverlay]. *)

From Stdlib Require Import QArith Qround Qabs ZArith List String Bool Lia Lqa.
From Stdlib Require Import Permutation.
From Stdlib Require Floats.
Import ListNotations.

Open Scope string_scope.
Open Scope list_scope.
Open Scope Q_scope.

(** ** JavaScript operators on numbers *)

Module JS.

(** [a < b] *)
Definition lt (a b : Q) : bool := if Qlt_le_dec a b then true else false.
(** [a > b] *)
Definition gt (a b : Q) : bool := lt b a.
(** [a >= b] *)
Definition ge (a b : Q) : bool := negb (lt a b).
(** [a <= b] *)
Definition le (a b : Q) : bool := negb (lt b a).

(** [Math.max(a, b)] and [Math.min(a, b)] *)
Definition Math_max (a b : Q) : Q := if Qlt_le_dec a b then b else a.
Definition Math_min (a b : Q) : Q := if Qlt_le_dec b a then b else a.
Definition Math_min3 (a b c : Q) : Q := Math_min (Math_min a b) c.

(** [Math.abs], [Math.floor], [Math.round] (half-way cases go up) *)
Definition Math_abs (a : Q) : Q := Qabs a.
Definition Math_floor (a : Q) : Z := Qfloor a.
Definition Math_round (a : Q) : Z := Qfloor (a + (1 # 2)).

(** Rounding toward zero, as the remainder operator uses it. *)
Definition trunc (a : Q) : Z := if Qlt_le_dec a 0 then Qceiling a else Qfloor a.

(** [a % b] on numbers: the result has the sign of the dividend. *)
Definition rem (a b : Q) : Q := a - b * inject_Z (trunc (a / b)).

(** [x || d] on numbers: [0] is falsy. *)
Definition or (x d : Q) : Q := if Qeq_bool x 0 then d else x.

(** [x ?? d]: an absent field reads as [undefined]. *)
Definition nullish {A : Type} (x : option A) (d : A) : A :=
  match x with Some v => v | None => d end.

(** [Math.PI], the binary64 number itself. *)
Definition Math_PI : Q := 884279719003555 # 281474976710656.

End JS.

(** ** types.ts *)

Inductive ModulationSource : Type :=
| speed | acceleration | altitude | descent | turning | turningSigned
| heading | pitch | proximity | time.

Inductive ModulationTarget : Type :=
| masterVolume
| drone_gain | drone_filter | drone_pitch
| atmosphere_gain
| arp_gain | arp_speed | arp_filter | arp_octaves | arp_direction
| rhythm_gain | rhythm_filter | rhythm_bpm
| melody_gain | melody_density
| reverb_mix | reverb_tone.

Definition ModulationTarget_eq_dec (a b : ModulationTarget) : {a = b} + {a <> b}.
Proof. decide equality. Defined.

Definition target_eqb (a b : ModulationTarget) : bool :=
  if ModulationTarget_eq_dec a b then true else false.

Record Modulation : Type := mkModulation {
  mod_id : string;
  mod_enabled : bool;
  mod_source : ModulationSource;
  mod_target : ModulationTarget;
  mod_amount : Q
}.

Record ReverbConfig : Type := mkReverb {
  reverb_enabled : bool;
  reverb_mix_v : Q;
  reverb_decay : Q;
  reverb_tone_v : Q
}.

Record DroneConfig : Type := mkDrone {
  drone_enabled : bool;
  drone_gain_v : Q;
  drone_filter_v : Q;
  drone_pitch_v : Q
}.

Inductive Texture : Type := smooth | grit.

Record AtmosphereConfig : Type := mkAtmosphere {
  atmosphere_enabled : bool;
  atmosphere_gain_v : Q;
  atmosphere_texture : Texture
}.

Inductive ScaleName : Type := dorian | phrygian | lydian.

Record MelodyConfig : Type := mkMelody {
  melody_enabled : bool;
  melody_gain_v : Q;
  melody_density_v : Q;
  melody_scale : ScaleName
}.

Inductive ArpDirection : Type := dir_up | dir_down | dir_updown | dir_random.

Record ArpConfig : Type := mkArp {
  arp_enabled : bool;
  arp_gain_v : Q;
  arp_speed_v : Q;
  arp_octaves_v : Q;
  arp_filter_v : Q;
  arp_direction_v : ArpDirection
}.

Record RhythmConfig : Type := mkRhythm {
  rhythm_enabled : bool;
  rhythm_gain_v : Q;
  rhythm_bpm_v : Q;
  rhythm_filter_v : Q
}.

Record SoundConfig : Type := mkSound {
  sound_enabled : bool;
  sound_masterVolume : Q;
  sound_reverb : ReverbConfig;
  sound_drone : DroneConfig;
  sound_atmosphere : AtmosphereConfig;
  sound_melody : MelodyConfig;
  sound_arp : ArpConfig;
  sound_rhythm : RhythmConfig;
  sound_modulations : list Modulation
}.

Record ControlConfig : Type := mkControl {
  invertStrafe : option bool;
  invertForward : option bool;
  invertAscend : option bool;
  invertPitch : option bool;
  invertYaw : option bool;
  forwardVelocity : option Q;
  strafeVelocity : option Q;
  ascendVelocity : option Q;
  pitchVelocity : option Q;
  yawVelocity : option Q
}.

Definition vec3 : Type := (Q * Q * Q)%type.
Definition vec2 : Type := (Q * Q)%type.

(** The components [v[0]], [v[1]], [v[2]] of a three-element array. *)
Definition at0 (v : vec3) : Q := fst (fst v).
Definition at1 (v : vec3) : Q := snd (fst v).
Definition at2 (v : vec3) : Q := snd v.

Record CameraData : Type := mkCamera {
  position : vec3;
  rotation : vec2;
  roll : Q
}.

Inductive ViewMode : Type := cockpit | chase.

Inductive CollisionState : Type := none | approaching | colliding.

Inductive ShipModulationTarget : Type :=
| complexity
| fold1 | fold2 | fold3
| scale | stretch | taper | twist
| asymmetryX | asymmetryY | asymmetryZ
| twistAsymX | scaleAsymX | fold1AsymX | fold2AsymX.

Record ShipModulation : Type := mkShipModulation {
  smod_id : string;
  smod_enabled : bool;
  smod_source : ModulationSource;
  smod_target : ShipModulationTarget;
  smod_amount : Q
}.

(** The numeric keys of a [ShipConfig] object: the fifteen modulation
    targets and the five optional view parameters. *)
Inductive ShipKey : Type :=
| geometry (t : ShipModulationTarget)
| chaseDistance | chaseVerticalOffset | pitchOffset | generalScale | translucency.

(** A ship config object: its numeric properties (a property may be
    absent) and its modulation list. *)
Record ShipConfig : Type := mkShip {
  ship_props : ShipKey -> option Q;
  ship_modulations : option (list ShipModulation)
}.

Record Slider : Type := mkSlider {
  slider_name : string;
  variableName : string;
  slider_min : Q;
  slider_max : Q;
  slider_step : Q;
  defaultValue : Q;
  description : option string;
  targetLiteral : option string
}.

Record TerraformTarget : Type := mkTerraformTarget {
  tf_variableName : string;
  tf_magnitude : Q;
  tf_probability : option Q
}.

Record TerraformConfig : Type := mkTerraform {
  targets : list TerraformTarget
}.

(** An object used as a map from names to numbers ([uniforms]). *)
Definition Uniforms : Type := list (string * Q).

Fixpoint lookup (k : string) (u : Uniforms) : option Q :=
  match u with
  | [] => None
  | (k', v) :: u' => if String.eqb k k' then Some v else lookup k u'
  end.

(** ** hooks/useAppStore: constants *)

Definition defaultCanvasSize : string := "100%".

Definition defaultSoundConfig : SoundConfig := {|
  sound_enabled := true;
  sound_masterVolume := 0.5;
  sound_reverb := mkReverb true 0.5 5.0 2000;
  sound_drone := mkDrone true 0.4 100 0;
  sound_atmosphere := mkAtmosphere true 0.2 grit;
  sound_melody := mkMelody true 0.3 0.4 dorian;
  sound_arp := mkArp true 0.25 1.0 2 600 dir_updown;
  sound_rhythm := mkRhythm true 0.4 60 150;
  sound_modulations :=
    [ mkModulation "1" true speed drone_filter 0.4;
      mkModulation "5" true altitude atmosphere_gain 0.15;
      mkModulation "6" true altitude drone_pitch (-0.1);
      mkModulation "new1" true pitch arp_direction 1.5;
      mkModulation "new2" true speed arp_speed 0.8;
      mkModulation "new3" true pitch arp_octaves 1.0 ]
|}.

(** Modulation ranges: what "100%" means for each target. *)
Definition MOD_RANGES (t : ModulationTarget) : Q :=
  match t with
  | masterVolume => 1.0
  | drone_gain => 1.0 | drone_filter => 2000 | drone_pitch => 24
  | atmosphere_gain => 1.0
  | arp_gain => 1.0 | arp_speed => 3.0 | arp_filter => 4000
  | arp_octaves => 3 | arp_direction => 1.0
  | rhythm_gain => 1.0 | rhythm_filter => 2000 | rhythm_bpm => 100
  | melody_gain => 1.0 | melody_density => 1.0
  | reverb_mix => 1.0 | reverb_tone => 5000
  end.

Definition SHIP_MOD_RANGES (t : ShipModulationTarget) : Q :=
  match t with
  | complexity => 5
  | fold1 => 0.5 | fold2 => 0.5 | fold3 => 1.0
  | scale => 0.5 | stretch => 1.0 | taper => 1.0 | twist => 1.0
  | asymmetryX => 1.0 | asymmetryY => 1.0 | asymmetryZ => 1.0
  | twistAsymX => 1.0 | scaleAsymX => 1.0
  | fold1AsymX => 0.5 | fold2AsymX => 0.5
  end.

(** Musical scales (MIDI note numbers). *)
Definition SCALES (s : ScaleName) : list Z :=
  match s with
  | dorian => [62; 64; 65; 67; 69; 71; 72; 74]
  | phrygian => [62; 63; 65; 67; 69; 70; 72]
  | lydian => [62; 64; 66; 67; 69; 71; 73]
  end%Z.

Definition INITIAL_CAMERA_POS : vec3 := (0, -1.49, 0).
Definition INITIAL_CAMERA_ROT : vec2 := (0.1, 0.0).

Definition initialCamera : CameraData :=
  mkCamera INITIAL_CAMERA_POS INITIAL_CAMERA_ROT 0.

Definition defaultShipConfig : ShipConfig := {|
  ship_props := fun k => Some
    match k with
    | geometry complexity => 6
    | geometry fold1 => 0.75
    | geometry fold2 => 0.85
    | geometry fold3 => 0.15
    | geometry scale => 1.65
    | geometry stretch => 1.2
    | geometry _ => 0.0
    | chaseDistance => 6.5
    | chaseVerticalOffset => 0.0
    | pitchOffset => 0.0
    | generalScale => 1.0
    | translucency => 1.0
    end;
  ship_modulations := Some []
|}.

(** ** The store: React state of the session and the refs of the loop *)

(** The state that a session file holds ([getSessionState] reads it,
    [applySessionState] writes it).  The game loop reads it through refs
    that an effect keeps equal to the state, so the model reads the state
    itself. *)
Record Session : Type := mkSession {
  currentSessionId : string;
  activeShaderCode : string;
  sliders : list Slider;
  uniforms : Uniforms;
  cameraControlsEnabled : bool;
  terraformConfig : option TerraformConfig;
  controlConfig : ControlConfig;
  soundConfig : SoundConfig;
  sessionSource : option string;
  shipConfig : ShipConfig;
  canvasSize : string;
  viewMode : ViewMode;
  isHdEnabled : bool;
  isFpsEnabled : bool;
  isHudEnabled : bool;
  collisionThresholdRed : Q;
  collisionThresholdYellow : Q
}.

Record Physics : Type := mkPhysics {
  lastTime : Q;
  accumulatedTimeRef : Q;
  cameraRef : CameraData;
  renderCameraRef : CameraData;
  cameraVelocityRef : vec3;
  cameraAngularVelocityRef : vec2;
  cameraRollRef : Q;
  isMovingRef : bool;
  previousSpeedRef : Q
}.

Record Collision : Type := mkCollision {
  collisionStateRef : CollisionState;
  collisionProximityRef : Q;
  collisionCooldownRef : Q
}.

(** Which instrument buses the audio graph holds. *)
Record AudioNodes : Type := mkNodes {
  nodes_reverb : bool;
  nodes_drone : bool;
  nodes_atmosphere : bool;
  nodes_arp : bool;
  nodes_rhythm : bool
}.

Record LiveAudioState : Type := mkLive {
  rhythmBpm : Q;
  arpSpeed : Q;
  arpOctaves : Q;
  melodyDensity : Q
}.

Record Audio : Type := mkAudio {
  audioNodesRef : option AudioNodes;
  liveAudioStateRef : LiveAudioState;
  nextMelodyTimeRef : Q;
  nextArpTimeRef : Q;
  nextRhythmTimeRef : Q;
  arpNoteIndexRef : Z;
  arpInternalDirectionRef : Z;
  audioInputsRef : ModulationSource -> Q;
  audioTargetAccumulatorsRef : ModulationTarget -> Q
}.

Record Store : Type := mkStore {
  session : Session;
  physics : Physics;
  collision : Collision;
  audio : Audio;
  defaultUniformsRef : Uniforms;
  effectiveShipConfigRef : ShipKey -> option Q
}.

(** ** Session files *)

(** A sound config as a session file may hold it: any property may be
    missing.  *)
Record LoadedReverb : Type := mkLReverb {
  l_reverb_enabled : option bool;
  l_reverb_mix : option Q;
  l_reverb_decay : option Q;
  l_reverb_tone : option Q
}.

Record LoadedDrone : Type := mkLDrone {
  l_drone_enabled : option bool;
  l_drone_gain : option Q;
  l_drone_filter : option Q;
  l_drone_pitch : option Q
}.

Record LoadedAtmosphere : Type := mkLAtmosphere {
  l_atmosphere_enabled : option bool;
  l_atmosphere_gain : option Q;
  l_atmosphere_texture : option Texture
}.

Record LoadedMelody : Type := mkLMelody {
  l_melody_enabled : option bool;
  l_melody_gain : option Q;
  l_melody_density : option Q;
  l_melody_scale : option ScaleName
}.

Record LoadedArp : Type := mkLArp {
  l_arp_enabled : option bool;
  l_arp_gain : option Q;
  l_arp_speed : option Q;
  l_arp_octaves : option Q;
  l_arp_filter : option Q;
  l_arp_direction : option ArpDirection
}.

Record LoadedRhythm : Type := mkLRhythm {
  l_rhythm_enabled : option bool;
  l_rhythm_gain : option Q;
  l_rhythm_bpm : option Q;
  l_rhythm_filter : option Q
}.

Record LoadedSoundConfig : Type := mkLSound {
  l_enabled : option bool;
  l_masterVolume : option Q;
  l_reverb : option LoadedReverb;
  l_drone : option LoadedDrone;
  l_atmosphere : option LoadedAtmosphere;
  l_melody : option LoadedMelody;
  l_arp : option LoadedArp;
  l_rhythm : option LoadedRhythm;
  l_modulations : option (list Modulation)
}.

Record SessionState : Type := mkSessionState {
  ss_sessionId : option string;
  ss_shaderCode : option string;
  ss_sliders : option (list Slider);
  ss_uniforms : option Uniforms;
  ss_cameraControlsEnabled : option bool;
  ss_terraformConfig : option TerraformConfig;
  ss_controlConfig : option ControlConfig;
  ss_soundConfig : option LoadedSoundConfig;
  ss_source : option string;
  ss_shipConfig : option ShipConfig;
  ss_canvasSize : option string;
  ss_viewMode : option ViewMode;
  ss_isHdEnabled : option bool;
  ss_isFpsEnabled : option bool;
  ss_isHudEnabled : option bool;
  ss_collisionThresholdRed : option Q;
  ss_collisionThresholdYellow : option Q
}.

(** A complete config object read as a session-file object: every
    property is present. *)
Definition storedSoundConfig (c : SoundConfig) : LoadedSoundConfig :=
  let r := sound_reverb c in
  let d := sound_drone c in
  let a := sound_atmosphere c in
  let m := sound_melody c in
  let p := sound_arp c in
  let y := sound_rhythm c in
  {| l_enabled := Some (sound_enabled c);
     l_masterVolume := Some (sound_masterVolume c);
     l_reverb := Some (mkLReverb (Some (reverb_enabled r)) (Some (reverb_mix_v r))
                         (Some (reverb_decay r)) (Some (reverb_tone_v r)));
     l_drone := Some (mkLDrone (Some (drone_enabled d)) (Some (drone_gain_v d))
                        (Some (drone_filter_v d)) (Some (drone_pitch_v d)));
     l_atmosphere := Some (mkLAtmosphere (Some (atmosphere_enabled a))
                             (Some (atmosphere_gain_v a)) (Some (atmosphere_texture a)));
     l_melody := Some (mkLMelody (Some (melody_enabled m)) (Some (melody_gain_v m))
                         (Some (melody_density_v m)) (Some (melody_scale m)));
     l_arp := Some (mkLArp (Some (arp_enabled p)) (Some (arp_gain_v p))
                      (Some (arp_speed_v p)) (Some (arp_octaves_v p))
                      (Some (arp_filter_v p)) (Some (arp_direction_v p)));
     l_rhythm := Some (mkLRhythm (Some (rhythm_enabled y)) (Some (rhythm_gain_v y))
                         (Some (rhythm_bpm_v y)) (Some (rhythm_filter_v y)));
     l_modulations := Some (sound_modulations c) |}.

(** [{ ...a, ...(b || {}) }] on the instrument objects. *)
Definition spreadReverb (a : ReverbConfig) (b : option LoadedReverb) : ReverbConfig :=
  match b with
  | None => a
  | Some b =>
      mkReverb (JS.nullish (l_reverb_enabled b) (reverb_enabled a))
               (JS.nullish (l_reverb_mix b) (reverb_mix_v a))
               (JS.nullish (l_reverb_decay b) (reverb_decay a))
               (JS.nullish (l_reverb_tone b) (reverb_tone_v a))
  end.

Definition spreadDrone (a : DroneConfig) (b : option LoadedDrone) : DroneConfig :=
  match b with
  | None => a
  | Some b =>
      mkDrone (JS.nullish (l_drone_enabled b) (drone_enabled a))
              (JS.nullish (l_drone_gain b) (drone_gain_v a))
              (JS.nullish (l_drone_filter b) (drone_filter_v a))
              (JS.nullish (l_drone_pitch b) (drone_pitch_v a))
  end.

Definition spreadAtmosphere (a : AtmosphereConfig) (b : option LoadedAtmosphere)
  : AtmosphereConfig :=
  match b with
  | None => a
  | Some b =>
      mkAtmosphere (JS.nullish (l_atmosphere_enabled b) (atmosphere_enabled a))
                   (JS.nullish (l_atmosphere_gain b) (atmosphere_gain_v a))
                   (JS.nullish (l_atmosphere_texture b) (atmosphere_texture a))
  end.

Definition spreadMelody (a : MelodyConfig) (b : option LoadedMelody) : MelodyConfig :=
  match b with
  | None => a
  | Some b =>
      mkMelody (JS.nullish (l_melody_enabled b) (melody_enabled a))
               (JS.nullish (l_melody_gain b) (melody_gain_v a))
               (JS.nullish (l_melody_density b) (melody_density_v a))
               (JS.nullish (l_melody_scale b) (melody_scale a))
  end.

Definition spreadArp (a : ArpConfig) (b : option LoadedArp) : ArpConfig :=
  match b with
  | None => a
  | Some b =>
      mkArp (JS.nullish (l_arp_enabled b) (arp_enabled a))
            (JS.nullish (l_arp_gain b) (arp_gain_v a))
            (JS.nullish (l_arp_speed b) (arp_speed_v a))
            (JS.nullish (l_arp_octaves b) (arp_octaves_v a))
            (JS.nullish (l_arp_filter b) (arp_filter_v a))
            (JS.nullish (l_arp_direction b) (arp_direction_v a))
  end.

Definition spreadRhythm (a : RhythmConfig) (b : option LoadedRhythm) : RhythmConfig :=
  match b with
  | None => a
  | Some b =>
      mkRhythm (JS.nullish (l_rhythm_enabled b) (rhythm_enabled a))
               (JS.nullish (l_rhythm_gain b) (rhythm_gain_v a))
               (JS.nullish (l_rhythm_bpm b) (rhythm_bpm_v a))
               (JS.nullish (l_rhythm_filter b) (rhythm_filter_v a))
  end.

(** [loadedSoundConfig?.f]: a property of a config that may itself be
    absent. *)
Definition optChain {A B : Type} (o : option A) (f : A -> option B) : option B :=
  match o with Some a => f a | None => None end.

(** The object [mergedSoundConfig] of [applySessionState].  An array is
    truthy, also the empty one, so [x || d] on a modulation list keeps
    every list that is present. *)
Definition mergedSoundConfig (loadedSoundConfig : option LoadedSoundConfig) : SoundConfig :=
  let d := defaultSoundConfig in
  {| sound_enabled := JS.nullish (optChain loadedSoundConfig l_enabled) (sound_enabled d);
     sound_masterVolume :=
       JS.nullish (optChain loadedSoundConfig l_masterVolume) (sound_masterVolume d);
     sound_reverb := spreadReverb (sound_reverb d) (optChain loadedSoundConfig l_reverb);
     sound_drone := spreadDrone (sound_drone d) (optChain loadedSoundConfig l_drone);
     sound_atmosphere :=
       spreadAtmosphere (sound_atmosphere d) (optChain loadedSoundConfig l_atmosphere);
     sound_melody := spreadMelody (sound_melody d) (optChain loadedSoundConfig l_melody);
     sound_arp := spreadArp (sound_arp d) (optChain loadedSoundConfig l_arp);
     sound_rhythm := spreadRhythm (sound_rhythm d) (optChain loadedSoundConfig l_rhythm);
     sound_modulations :=
       match optChain loadedSoundConfig l_modulations with
       | Some l => l
       | None => sound_modulations d
       end |}.

(** [{ ...defaultShipConfig, ...(sessionState.shipConfig ?? {}) }] *)
Definition loadedShipConfig (s : option ShipConfig) : ShipConfig :=
  match s with
  | None => defaultShipConfig
  | Some s =>
      {| ship_props := fun k =>
           match ship_props s k with
           | Some v => Some v
           | None => ship_props defaultShipConfig k
           end;
         ship_modulations :=
           match ship_modulations s with
           | Some l => Some l
           | None => ship_modulations defaultShipConfig
           end |}
  end.

(** ** Session load and save *)

Definition cleanupAudio (a : Audio) : Audio :=
  mkAudio None (liveAudioStateRef a)
          (nextMelodyTimeRef a) (nextArpTimeRef a) (nextRhythmTimeRef a)
          (arpNoteIndexRef a) (arpInternalDirectionRef a)
          (audioInputsRef a) (audioTargetAccumulatorsRef a).

(** [initAudio]: builds the graph once (one bus per instrument that is
    enabled at that moment) and arms the three schedulers.  [supported]
    says whether the host has an audio context class, [now] is the clock
    of the new context. *)
Definition initAudio (supported : bool) (now : Q) (st : Store) : Store :=
  let a := audio st in
  match audioNodesRef a with
  | Some _ => st
  | None =>
      if negb supported then st else
      let cfg := soundConfig (session st) in
      mkStore (session st) (physics st) (collision st)
        (mkAudio
           (Some (mkNodes (reverb_enabled (sound_reverb cfg))
                          (drone_enabled (sound_drone cfg))
                          (atmosphere_enabled (sound_atmosphere cfg))
                          (arp_enabled (sound_arp cfg))
                          (rhythm_enabled (sound_rhythm cfg))))
           (mkLive (rhythm_bpm_v (sound_rhythm cfg)) (arp_speed_v (sound_arp cfg))
                   (arp_octaves_v (sound_arp cfg)) (melody_density_v (sound_melody cfg)))
           (now + 2) (now + 0.5) (now + 0.1)
           (arpNoteIndexRef a) (arpInternalDirectionRef a)
           (audioInputsRef a) (audioTargetAccumulatorsRef a))
        (defaultUniformsRef st) (effectiveShipConfigRef st)
  end.

Definition applySessionState (sessionState : SessionState) (st : Store) : Store :=
  let loadedUniforms := JS.nullish (ss_uniforms sessionState) [] in
  let ph := physics st in
  {| session :=
       {| currentSessionId := JS.nullish (ss_sessionId sessionState) "local-file";
          activeShaderCode := JS.nullish (ss_shaderCode sessionState) "";
          sliders :=
            filter (fun slider =>
                      negb (String.eqb (variableName slider) "slider_cameraXRotation"))
                   (JS.nullish (ss_sliders sessionState) []);
          uniforms := loadedUniforms;
          cameraControlsEnabled := JS.nullish (ss_cameraControlsEnabled sessionState) false;
          terraformConfig :=
            Some (JS.nullish (ss_terraformConfig sessionState) (mkTerraform []));
          controlConfig :=
            JS.nullish (ss_controlConfig sessionState)
                       (mkControl None None None None None None None None None None);
          soundConfig := mergedSoundConfig (ss_soundConfig sessionState);
          sessionSource := ss_source sessionState;
          shipConfig := loadedShipConfig (ss_shipConfig sessionState);
          canvasSize := JS.nullish (ss_canvasSize sessionState) defaultCanvasSize;
          viewMode := JS.nullish (ss_viewMode sessionState) chase;
          isHdEnabled := JS.nullish (ss_isHdEnabled sessionState) false;
          isFpsEnabled := JS.nullish (ss_isFpsEnabled sessionState) false;
          isHudEnabled := JS.nullish (ss_isHudEnabled sessionState) true;
          collisionThresholdRed :=
            JS.nullish (ss_collisionThresholdRed sessionState) 0.002;
          collisionThresholdYellow :=
            JS.nullish (ss_collisionThresholdYellow sessionState) 0.02 |};
     physics :=
       mkPhysics (lastTime ph) (accumulatedTimeRef ph)
                 initialCamera initialCamera
                 (cameraVelocityRef ph) (cameraAngularVelocityRef ph)
                 (cameraRollRef ph) (isMovingRef ph) 0;
     collision := mkCollision none 0 (collisionCooldownRef (collision st));
     audio := cleanupAudio (audio st);
     defaultUniformsRef := loadedUniforms;
     effectiveShipConfigRef := effectiveShipConfigRef st |}.

(** [getSessionState].  The snapshot is written with [JSON.stringify] and
    read back with [JSON.parse]; on the numbers, strings, booleans, arrays
    and objects of a snapshot that pair is the identity, and the model
    takes it as such. *)
Definition getSessionState (st : Store) : SessionState :=
  let s := session st in
  {| ss_sessionId := Some (currentSessionId s);
     ss_shaderCode := Some (activeShaderCode s);
     ss_sliders := Some (sliders s);
     ss_uniforms := Some (uniforms s);
     ss_cameraControlsEnabled := Some (cameraControlsEnabled s);
     ss_terraformConfig := terraformConfig s;
     ss_controlConfig := Some (controlConfig s);
     ss_soundConfig := Some (storedSoundConfig (soundConfig s));
     ss_source := sessionSource s;
     ss_shipConfig := Some (shipConfig s);
     ss_canvasSize := Some (canvasSize s);
     ss_viewMode := Some (viewMode s);
     ss_isHdEnabled := Some (isHdEnabled s);
     ss_isFpsEnabled := Some (isFpsEnabled s);
     ss_isHudEnabled := Some (isHudEnabled s);
     ss_collisionThresholdRed := Some (collisionThresholdRed s);
     ss_collisionThresholdYellow := Some (collisionThresholdYellow s) |}.

(** The store of a freshly mounted hook. *)
Definition initialStore : Store :=
  {| session :=
       {| currentSessionId := "1";
          activeShaderCode := "";
          sliders := [];
          uniforms := [];
          cameraControlsEnabled := false;
          terraformConfig := None;
          controlConfig := mkControl None None None None None None None None None None;
          soundConfig := defaultSoundConfig;
          sessionSource := None;
          shipConfig := defaultShipConfig;
          canvasSize := defaultCanvasSize;
          viewMode := chase;
          isHdEnabled := false;
          isFpsEnabled := false;
          isHudEnabled := true;
          collisionThresholdRed := 0.002;
          collisionThresholdYellow := 0.02 |};
     physics := mkPhysics 0 0 initialCamera initialCamera (0, 0, 0) (0, 0) 0 false 0;
     collision := mkCollision none 0 0;
     audio :=
       mkAudio None
               (mkLive (rhythm_bpm_v (sound_rhythm defaultSoundConfig))
                       (arp_speed_v (sound_arp defaultSoundConfig))
                       (arp_octaves_v (sound_arp defaultSoundConfig))
                       (melody_density_v (sound_melody defaultSoundConfig)))
               0 0 0 0%Z 1%Z (fun _ => 0) (fun _ => 0);
     defaultUniformsRef := [];
     effectiveShipConfigRef := ship_props defaultShipConfig |}.

(** ** The audio generators *)

Inductive AudioEvent : Type :=
| CollisionSound
| GenerativeNote (playTime : Q)
| ArpNote (playTime : Q) (noteIndex : Z) (midiNote : Z)
| RhythmHit (playTime : Q).

(** [playGenerativeNote]: the note is synthesised when the graph exists
    and the melody is enabled (its pitch and length are further random
    draws of the synthesis and are not part of the store). *)
Definition playGenerativeNote (playTime : Q) (s : Session) (a : Audio) : list AudioEvent :=
  match audioNodesRef a with
  | None => []
  | Some _ =>
      if negb (melody_enabled (sound_melody (soundConfig s))) then []
      else [GenerativeNote playTime]
  end.

Definition playRhythm (playTime : Q) (s : Session) (a : Audio) : list AudioEvent :=
  match audioNodesRef a with
  | None => []
  | Some nodes =>
      if negb (nodes_rhythm nodes) || negb (rhythm_enabled (sound_rhythm (soundConfig s)))
      then []
      else [RhythmHit playTime]
  end.

Definition playCollisionSound (s : Session) (a : Audio) : list AudioEvent :=
  match audioNodesRef a with
  | None => []
  | Some _ => if negb (sound_enabled (soundConfig s)) then [] else [CollisionSound]
  end.

(** The number of positions of the arpeggio:
    [scale.length * Math.max(1, Math.round(arpOctaves))]. *)
Definition arpTotalNotes (s : Session) (a : Audio) : Z :=
  let scale := SCALES (melody_scale (sound_melody (soundConfig s))) in
  let currentOctaves := Z.max 1 (JS.Math_round (arpOctaves (liveAudioStateRef a))) in
  (Z.of_nat (List.length scale) * currentOctaves)%Z.

(** The direction of a step: the modulation of [arp.direction] first, the
    configured direction otherwise. *)
Definition arpEffectiveDirection (s : Session) (a : Audio) : ArpDirection :=
  let dirMod := audioTargetAccumulatorsRef a arp_direction in
  if JS.gt dirMod 0.3 then dir_up
  else if JS.lt dirMod (-0.3) then dir_down
  else arp_direction_v (sound_arp (soundConfig s)).

(** The step of the index: the new index and internal direction, before
    the final clamp. *)
Definition arpStep (direction : ArpDirection) (totalNotes : Z) (random : Q)
           (index internalDirection : Z) : Z * Z :=
  match direction with
  | dir_up => (Z.rem (index + 1) totalNotes, internalDirection)
  | dir_down => (Z.rem (index - 1 + totalNotes) totalNotes, internalDirection)
  | dir_random => (JS.Math_floor (random * inject_Z totalNotes), internalDirection)
  | dir_updown =>
      let i := (index + internalDirection)%Z in
      if (i >=? totalNotes - 1)%Z then ((totalNotes - 1)%Z, (-1)%Z)
      else if (i <=? 0)%Z then (0%Z, 1%Z)
      else (i, internalDirection)
  end.

(** [playArpNote]: steps the index, then plays the note at the new index.
    [random] is the draw that the direction ['random'] consumes. *)
Definition playArpNote (playTime random : Q) (s : Session) (a : Audio)
  : Audio * list AudioEvent :=
  match audioNodesRef a with
  | None => (a, [])
  | Some nodes =>
      if negb (nodes_arp nodes) || negb (arp_enabled (sound_arp (soundConfig s)))
      then (a, [])
      else
        let scale := SCALES (melody_scale (sound_melody (soundConfig s))) in
        let totalNotes := arpTotalNotes s a in
        let direction := arpEffectiveDirection s a in
        let stepped :=
          arpStep direction totalNotes random
                  (arpNoteIndexRef a) (arpInternalDirectionRef a) in
        let internalDirection := snd stepped in
        let index := Z.max 0 (Z.min (totalNotes - 1) (fst stepped)) in
        let scaleIndex := Z.rem index (Z.of_nat (List.length scale)) in
        let octave := (index / Z.of_nat (List.length scale))%Z in
        let midiNote := (nth (Z.to_nat scaleIndex) scale 0 + (octave + 1) * 12)%Z in
        (mkAudio (audioNodesRef a) (liveAudioStateRef a)
                 (nextMelodyTimeRef a) (nextArpTimeRef a) (nextRhythmTimeRef a)
                 index internalDirection
                 (audioInputsRef a) (audioTargetAccumulatorsRef a),
         [ArpNote playTime index midiNote])
  end.

(** ** The modulation router *)

(** The accumulators after the reset to the base values of the sound
    config; the base of [arp.direction] is the constant 0. *)
Definition baseAccumulators (sound : SoundConfig) (t : ModulationTarget) : Q :=
  match t with
  | masterVolume => sound_masterVolume sound
  | drone_gain => drone_gain_v (sound_drone sound)
  | drone_filter => drone_filter_v (sound_drone sound)
  | drone_pitch => drone_pitch_v (sound_drone sound)
  | atmosphere_gain => atmosphere_gain_v (sound_atmosphere sound)
  | arp_gain => arp_gain_v (sound_arp sound)
  | arp_speed => arp_speed_v (sound_arp sound)
  | arp_filter => arp_filter_v (sound_arp sound)
  | arp_octaves => arp_octaves_v (sound_arp sound)
  | arp_direction => 0
  | rhythm_gain => rhythm_gain_v (sound_rhythm sound)
  | rhythm_filter => rhythm_filter_v (sound_rhythm sound)
  | rhythm_bpm => rhythm_bpm_v (sound_rhythm sound)
  | melody_gain => melody_gain_v (sound_melody sound)
  | melody_density => melody_density_v (sound_melody sound)
  | reverb_mix => reverb_mix_v (sound_reverb sound)
  | reverb_tone => reverb_tone_v (sound_reverb sound)
  end.

(** What one modulation adds to its target. *)
Definition modulationDelta (ranges : ModulationTarget -> Q)
           (inputs : ModulationSource -> Q) (m : Modulation) : Q :=
  let range := JS.or (ranges (mod_target m)) 1.0 in
  JS.or (inputs (mod_source m)) 0 * mod_amount m * range.

(** The body of the loop over the modulations. *)
Definition applyModulation (ranges : ModulationTarget -> Q)
           (inputs : ModulationSource -> Q)
           (targetAccumulators : ModulationTarget -> Q) (m : Modulation)
  : ModulationTarget -> Q :=
  if negb (mod_enabled m) then targetAccumulators
  else fun t =>
         if target_eqb t (mod_target m)
         then targetAccumulators t + modulationDelta ranges inputs m
         else targetAccumulators t.

(** The loop, from any accumulators and with any range table. *)
Definition routeModulations (ranges : ModulationTarget -> Q)
           (inputs : ModulationSource -> Q)
           (modulations : list Modulation)
           (targetAccumulators : ModulationTarget -> Q)
  : ModulationTarget -> Q :=
  fold_left (applyModulation ranges inputs) modulations targetAccumulators.

(** The accumulators of a frame. *)
Definition routedAccumulators (sound : SoundConfig) (inputs : ModulationSource -> Q)
  : ModulationTarget -> Q :=
  routeModulations MOD_RANGES inputs (sound_modulations sound) (baseAccumulators sound).

(** The live state of the sequencer, clamped from the accumulators. *)
Definition liveFromAccumulators (acc : ModulationTarget -> Q) : LiveAudioState :=
  {| rhythmBpm := JS.Math_max 30 (JS.Math_min 300 (acc rhythm_bpm));
     arpSpeed := JS.Math_max 0.1 (JS.Math_min 5.0 (acc arp_speed));
     arpOctaves := JS.Math_max 1 (JS.Math_min 5 (acc arp_octaves));
     melodyDensity := JS.Math_max 0.0 (JS.Math_min 1.0 (acc melody_density)) |}.

(** The ship modulation loop on the copy of the numeric properties. *)
Definition ShipKey_eq_dec (a b : ShipKey) : {a = b} + {a <> b}.
Proof. repeat decide equality. Defined.

Definition applyShipModulation (inputs : ModulationSource -> Q)
           (effectiveConfig : ShipKey -> option Q) (m : ShipModulation)
  : ShipKey -> option Q :=
  if negb (smod_enabled m) then effectiveConfig
  else
    let targetKey := geometry (smod_target m) in
    match effectiveConfig targetKey with
    | None => effectiveConfig
    | Some old =>
        let range := JS.or (SHIP_MOD_RANGES (smod_target m)) 1.0 in
        let valueChange := JS.or (inputs (smod_source m)) 0 * smod_amount m * range in
        fun k => if ShipKey_eq_dec k targetKey then Some (old + valueChange)
                 else effectiveConfig k
    end.

Definition effectiveShipConfig (ship : ShipConfig) (inputs : ModulationSource -> Q)
  : ShipKey -> option Q :=
  fold_left (applyShipModulation inputs)
            (JS.nullish (ship_modulations ship) []) (ship_props ship).

(** ** The game loop *)

(** What the host hands to a frame. *)
Record FrameInput : Type := mkInput {
  timestamp : Q;              (* the argument of the frame callback, ms *)
  keys : list string;         (* keysPressed.current *)
  audioNow : Q;               (* ctx.currentTime, read when the graph exists *)
  random_melodyGate : Q;      (* the draw compared with the melody density *)
  random_melodyInterval : Q;  (* the draw in the melody cadence *)
  random_arp : Q              (* the draw of a 'random' arpeggio step *)
}.

Definition has (keys : list string) (k : string) : bool :=
  existsb (String.eqb k) keys.

(** [(keys.has(a) ? 1 : 0) - (keys.has(b) ? 1 : 0)], negated when the axis
    is inverted. *)
Definition axisInput (keys : list string) (a b : string) (inverted : option bool) : Q :=
  let v := (if has keys a then 1 else 0) - (if has keys b then 1 else 0) in
  match inverted with
  | Some true => - v
  | _ => v
  end.

Definition FLIGHT_PITCH_OFFSET : Q := 0.1.
Definition LOOKAHEAD : Q := 0.1.

(** The frame time [dt], at most 0.1 s; a [lastTime] of 0 is first set to
    the timestamp. *)
Definition frameDt (inp : FrameInput) (ph : Physics) : Q :=
  let last := if Qeq_bool (lastTime ph) 0 then timestamp inp else lastTime ph in
  JS.Math_min ((timestamp inp - last) / 1000.0) 0.1.

(** The three outcomes of the threshold test on the distance. *)
Definition classify (red yellow dist : Q) : CollisionState * Q :=
  if JS.lt dist red then (colliding, 1.0)
  else if JS.lt dist yellow then
    (approaching,
     JS.Math_max 0 (JS.Math_min 1 (1.0 - (dist - red) / (yellow - red))))
  else (none, 0).

(** The angular velocity after its smoothing step. *)
Definition angularStep (inp : FrameInput) (controls : ControlConfig) (ph : Physics)
  : vec2 :=
  let pitchInput := axisInput (keys inp) "arrowdown" "arrowup" (invertPitch controls) in
  let yawInput := axisInput (keys inp) "arrowright" "arrowleft" (invertYaw controls) in
  let rotSpd := 1.0 in
  let tRotX := pitchInput * rotSpd * JS.nullish (pitchVelocity controls) 0.3 in
  let tRotY := yawInput * rotSpd * JS.nullish (yawVelocity controls) 0.3 in
  let w := cameraAngularVelocityRef ph in
  (fst w + (tRotX - fst w) * 0.07, snd w + (tRotY - snd w) * 0.07).

(** The rotation that the frame commits: the pitch is clamped, the yaw is
    not wrapped. *)
Definition rotationStep (inp : FrameInput) (controls : ControlConfig) (ph : Physics)
  : vec2 :=
  let dt := frameDt inp ph in
  let w := angularStep inp controls ph in
  let rot := rotation (cameraRef ph) in
  (JS.Math_max (-1.57) (JS.Math_min 1.57 (fst rot + fst w * dt)),
   snd rot + snd w * dt).

Definition rollStep (inp : FrameInput) (controls : ControlConfig) (ph : Physics) : Q :=
  let yawInput := axisInput (keys inp) "arrowright" "arrowleft" (invertYaw controls) in
  cameraRollRef ph
  + (- yawInput * JS.nullish (yawVelocity controls) 0.3 * 0.75 * 0.4
     - cameraRollRef ph) * 0.1.

(** The heading source of the telemetry. *)
Definition headingOf (yaw : Q) : Q :=
  JS.rem yaw (JS.Math_PI * 2) / (JS.Math_PI * 2).

(** The scheduling block: an instrument is due when it is enabled and the
    audio clock is within the lookahead of its next event time. *)
Definition melodyDue (inp : FrameInput) (s : Session) (a : Audio) : bool :=
  melody_enabled (sound_melody (soundConfig s))
  && JS.ge (audioNow inp) (nextMelodyTimeRef a - LOOKAHEAD).

Definition arpDue (inp : FrameInput) (s : Session) (a : Audio) : bool :=
  arp_enabled (sound_arp (soundConfig s))
  && JS.ge (audioNow inp) (nextArpTimeRef a - LOOKAHEAD).

Definition rhythmDue (inp : FrameInput) (s : Session) (a : Audio) : bool :=
  rhythm_enabled (sound_rhythm (soundConfig s))
  && JS.ge (audioNow inp) (nextRhythmTimeRef a - LOOKAHEAD).

(** The intervals that a firing adds to the next event times. *)
Definition melodyInterval (inp : FrameInput) (live : LiveAudioState) : Q :=
  (60 / rhythmBpm live) * (random_melodyInterval inp * 4 + 4).
Definition arpInterval (live : LiveAudioState) : Q :=
  (60 / rhythmBpm live) / (arpSpeed live * 4).
Definition rhythmInterval (live : LiveAudioState) : Q :=
  60 / rhythmBpm live.

(** For each due instrument the generator is called at
    [Math.max(audioNow, next)] and the next event time moves on; the
    melody note is played only when its draw is below the density. *)
Definition schedule (inp : FrameInput) (s : Session) (a : Audio)
  : Audio * list AudioEvent :=
  let live := liveAudioStateRef a in
  let now := audioNow inp in
  let melodyEvents :=
    if melodyDue inp s a then
      if JS.lt (random_melodyGate inp) (melodyDensity live)
      then playGenerativeNote (JS.Math_max now (nextMelodyTimeRef a)) s a
      else []
    else [] in
  let arp :=
    if arpDue inp s a
    then playArpNote (JS.Math_max now (nextArpTimeRef a)) (random_arp inp) s a
    else (a, []) in
  let rhythmEvents :=
    if rhythmDue inp s a
    then playRhythm (JS.Math_max now (nextRhythmTimeRef a)) s a
    else [] in
  (mkAudio (audioNodesRef a) live
           (if melodyDue inp s a
            then nextMelodyTimeRef a + melodyInterval inp live
            else nextMelodyTimeRef a)
           (if arpDue inp s a
            then nextArpTimeRef a + arpInterval live
            else nextArpTimeRef a)
           (if rhythmDue inp s a
            then nextRhythmTimeRef a + rhythmInterval live
            else nextRhythmTimeRef a)
           (arpNoteIndexRef (fst arp)) (arpInternalDirectionRef (fst arp))
           (audioInputsRef a) (audioTargetAccumulatorsRef a),
   melodyEvents ++ snd arp ++ rhythmEvents).

(** Whether the audio block of a frame runs: session '1', the graph
    exists, sound is enabled. *)
Definition audioRunning (s : Session) (a : Audio) : bool :=
  String.eqb (currentSessionId s) "1"
  && match audioNodesRef a with Some _ => true | None => false end
  && sound_enabled (soundConfig s).

(** The audio block of a frame: the telemetry is stored, then, when the
    block runs, the accumulators are reset and routed, the live state is
    clamped from them and the schedulers run.  (The ramps that the block
    writes to the nodes of the graph are effects on the host and are not
    part of the store.) *)
Definition audioUpdate (inp : FrameInput) (s : Session)
           (inputs : ModulationSource -> Q) (a : Audio)
  : Audio * list AudioEvent :=
  if audioRunning s a then
    let targetAccumulators := routedAccumulators (soundConfig s) inputs in
    schedule inp s
      (mkAudio (audioNodesRef a) (liveFromAccumulators targetAccumulators)
               (nextMelodyTimeRef a) (nextArpTimeRef a) (nextRhythmTimeRef a)
               (arpNoteIndexRef a) (arpInternalDirectionRef a)
               inputs targetAccumulators)
  else
    (mkAudio (audioNodesRef a) (liveAudioStateRef a)
             (nextMelodyTimeRef a) (nextArpTimeRef a) (nextRhythmTimeRef a)
             (arpNoteIndexRef a) (arpInternalDirectionRef a)
             inputs (audioTargetAccumulatorsRef a),
     []).

Section GameLoop.

(** The transcendental functions of the host. *)
Variables Math_sin Math_cos Math_sqrt : Q -> Q.

(** [mod(v, y)] as the distance function writes it: [((v % y) + y) % y] *)
Definition foldMod (v y : Q) : Q := JS.rem (JS.rem v y + y) y.

(** The loop of [getPlanet1Distance]; [fuel] bounds the number of
    iterations, and [None] says that the loop is still running when
    the fuel is spent (it runs for ever when [scale >= 1]). *)
Fixpoint planet1Loop (fuel : nat) (rot pulse scale t : Q)
         (temp_q : vec3) (d i : Q) : option Q :=
  if JS.gt i 0.05 then
    match fuel with
    | O => None
    | S fuel' =>
        let angle := rot + Math_sin (t * 1.0 + at1 temp_q * 5.0) * pulse in
        let c := Math_cos angle in
        let s := Math_sin angle in
        let r0 := at0 temp_q * c + at2 temp_q * s in
        let r1 := at1 temp_q in
        let r2 := - at0 temp_q * s + at2 temp_q * c in
        let two_i := i + i in
        let qx := JS.Math_abs (foldMod r0 two_i - i) in
        let qy := JS.Math_abs (foldMod r1 two_i - i) in
        let qz := JS.Math_abs (foldMod r2 two_i - i) in
        let i9 := i * 0.9 in
        let temp_q' := (i9 - qx, i9 - qy, i9 - qz) in
        let d' := JS.Math_max d (JS.Math_min3 (i9 - qx) (i9 - qy) (i9 - qz)) in
        planet1Loop fuel' rot pulse scale t temp_q' d' (i * scale)
    end
  else Some d.

Definition getPlanet1Distance (fuel : nat) (p_vec : vec3) (uniforms : Uniforms) (t : Q)
  : option Q :=
  let scale := JS.nullish (lookup "slider_fractalScale" uniforms) 0.37 in
  let rot := JS.nullish (lookup "slider_fractalRotation" uniforms) 1.09 in
  let pulse := JS.nullish (lookup "slider_fractalPulseStrength" uniforms) 0.0 in
  planet1Loop fuel rot pulse scale t p_vec (- at1 p_vec) 58.0.

(** The velocity after the smoothing step toward the target velocity. *)
Definition steppedVelocity (inp : FrameInput) (controls : ControlConfig) (ph : Physics)
  : vec3 :=
  let fwd := axisInput (keys inp) "w" "s" (invertForward controls) in
  let str := axisInput (keys inp) "d" "a" (invertStrafe controls) in
  let asc := axisInput (keys inp) " " "shift" (invertAscend controls) in
  let p := fst (rotation (cameraRef ph)) in
  let y := snd (rotation (cameraRef ph)) in
  let spd := 1.0 in
  let dirX := Math_sin y * Math_cos (p - FLIGHT_PITCH_OFFSET) in
  let dirY := - Math_sin (p - FLIGHT_PITCH_OFFSET) in
  let dirZ := Math_cos y * Math_cos (p - FLIGHT_PITCH_OFFSET) in
  let rightX := Math_cos y in
  let rightZ := - Math_sin y in
  let fv := JS.nullish (forwardVelocity controls) 1 in
  let sv := JS.nullish (strafeVelocity controls) 1 in
  let av := JS.nullish (ascendVelocity controls) 1 in
  let tVX := (dirX * fwd * fv + rightX * str * sv) * spd in
  let tVY := (dirY * fwd * fv + asc * av) * spd in
  let tVZ := (dirZ * fwd * fv + rightZ * str * sv) * spd in
  let v := cameraVelocityRef ph in
  (at0 v + (tVX - at0 v) * 0.1,
   at1 v + (tVY - at1 v) * 0.1,
   at2 v + (tVZ - at2 v) * 0.1).

(** The position that the frame proposes. *)
Definition proposedPosition (inp : FrameInput) (controls : ControlConfig) (ph : Physics)
  : vec3 :=
  let dt := frameDt inp ph in
  let v := steppedVelocity inp controls ph in
  let currentPos := position (cameraRef ph) in
  (at0 currentPos + at0 v * dt,
   at1 currentPos + at1 v * dt,
   at2 currentPos + at2 v * dt).

(** The distance of the frame.  It is evaluated in session '1' only:
    [Some None] is a frame of another session, [None] a distance loop
    that does not finish within the fuel. *)
Definition frameDistance (fuel : nat) (inp : FrameInput) (st : Store)
  : option (option Q) :=
  let s := session st in
  let ph := physics st in
  if String.eqb (currentSessionId s) "1" then
    match getPlanet1Distance fuel (proposedPosition inp (controlConfig s) ph)
                             (uniforms s) (accumulatedTimeRef ph + frameDt inp ph) with
    | Some dist => Some (Some dist)
    | None => None
    end
  else Some None.

(** The frame, given its distance. *)
Definition frame (distance : option Q) (inp : FrameInput) (st : Store)
  : Store * list AudioEvent :=
  let s := session st in
  let ph := physics st in
  let col := collision st in
  let controls := controlConfig s in
  let sound := soundConfig s in
  let dt := frameDt inp ph in
  let currentPos := position (cameraRef ph) in
  let proposedPos := proposedPosition inp controls ph in
  (* Collision (Planet 1 only) *)
  let verdict :=
    match distance with
    | Some dist => classify (collisionThresholdRed s) (collisionThresholdYellow s) dist
    | None => (none, 0)
    end in
  let newState := fst verdict in
  let newProximity := snd verdict in
  let hit := match newState with colliding => true | _ => false end in
  let velocity := if hit then (0, 0, 0) else steppedVelocity inp controls ph in
  let soundDue :=
    hit
    && match collisionStateRef col with colliding => false | _ => true end
    && JS.gt (timestamp inp - collisionCooldownRef col) 500 in
  let cooldown := if soundDue then timestamp inp else collisionCooldownRef col in
  let collisionEvents :=
    if soundDue && sound_enabled sound then playCollisionSound s (audio st) else [] in
  let newPos := if hit then currentPos else proposedPos in
  let proximityRef :=
    if JS.gt (JS.Math_abs (newProximity - collisionProximityRef col)) 0.02
       || Qeq_bool newProximity 0 || Qeq_bool newProximity 1.0
    then newProximity else collisionProximityRef col in
  (* Rotation *)
  let w := angularStep inp controls ph in
  let newRot := rotationStep inp controls ph in
  let currentSpeed :=
    Math_sqrt (at0 velocity * at0 velocity + at1 velocity * at1 velocity
               + at2 velocity * at2 velocity) in
  let isMovingNow := JS.gt currentSpeed 0.0001 in
  let newRoll := rollStep inp controls ph in
  let camera := mkCamera newPos newRot newRoll in
  (* Shared physics inputs for audio and ship *)
  let now := timestamp inp / 1000.0 in
  let accel := (currentSpeed - previousSpeedRef ph) / dt in
  let inputs := fun src =>
    match src with
    | speed => currentSpeed
    | acceleration => accel * 0.1
    | altitude => at1 newPos - at1 INITIAL_CAMERA_POS
    | descent => - at1 velocity * 2.0
    | turning => JS.Math_abs (snd w)
    | turningSigned => snd w
    | heading => headingOf (snd newRot)
    | pitch => - fst newRot / 1.57
    | proximity => proximityRef
    | time => now
    end in
  let audioResult := audioUpdate inp s inputs (audio st) in
  ({| session := s;
      physics :=
        mkPhysics (timestamp inp) (accumulatedTimeRef ph + dt) camera camera
                  velocity w newRoll isMovingNow currentSpeed;
      collision := mkCollision newState proximityRef cooldown;
      audio := fst audioResult;
      defaultUniformsRef := defaultUniformsRef st;
      effectiveShipConfigRef := effectiveShipConfig (shipConfig s) inputs |},
   collisionEvents ++ snd audioResult).

(** One call of the frame callback.  The result is [None] when the
    distance loop does not finish within [fuel] iterations. *)
Definition gameLoop (fuel : nat) (inp : FrameInput) (st : Store)
  : option (Store * list AudioEvent) :=
  match frameDistance fuel inp st with
  | None => None
  | Some distance => Some (frame distance inp st)
  end.

(** A run of frames. *)
Fixpoint runFrames (fuel : nat) (inps : list FrameInput) (st : Store)
  : option (Store * list AudioEvent) :=
  match inps with
  | [] => Some (st, [])
  | inp :: rest =>
      match gameLoop fuel inp st with
      | None => None
      | Some r =>
          match runFrames fuel rest (fst r) with
          | None => None
          | Some r' => Some (fst r', snd r ++ snd r')
          end
      end
  end.

End GameLoop.

(** A run of calls of [playArpNote], each with its play time and its
    random draw. *)
Fixpoint playArpNotes (calls : list (Q * Q)) (s : Session) (a : Audio)
  : Audio * list AudioEvent :=
  match calls with
  | [] => (a, [])
  | c :: rest =>
      let r := playArpNote (fst c) (snd c) s a in
      let r' := playArpNotes rest s (fst r) in
      (fst r', snd r ++ snd r')
  end.

(** The indices of the arpeggio notes among some events, in order. *)
Definition firedIndices (evs : list AudioEvent) : list Z :=
  flat_map (fun e => match e with ArpNote _ i _ => [i] | _ => [] end) evs.

(** ** Reference definitions of the properties *)

(** Whether the loop of the distance function ends within [fuel]
    iterations: the loop counter alone decides it. *)
Fixpoint loopEnds (fuel : nat) (scale i : Q) : bool :=
  if JS.gt i 0.05 then
    match fuel with
    | O => false
    | S fuel' => loopEnds fuel' scale (i * scale)
    end
  else true.

(** Host functions and a store for the examples: the camera looks along
    its start rotation, where the yaw and the trimmed pitch are 0, and the
    fractal rotation is 0, so every angle whose sine and cosine the frame
    takes is 0; the two functions are the sine and the cosine there.  The
    camera is at rest, so the only square root that the frame takes is the
    one of 0. *)
Definition sinAtZero (x : Q) : Q := 0.
Definition cosAtZero (x : Q) : Q := 1.
Definition sqrtOfSquare (x : Q) : Q := x.

Definition storeAt (pos : vec3) (sound : SoundConfig) (u : Uniforms) : Store :=
  let s := session initialStore in
  {| session :=
       mkSession "1" "" [] u false None (controlConfig s) sound None (shipConfig s)
                 defaultCanvasSize chase false false true 0.002 0.02;
     physics := mkPhysics 0 0 (mkCamera pos INITIAL_CAMERA_ROT 0)
                          (mkCamera pos INITIAL_CAMERA_ROT 0)
                          (0, 0, 0) (0, 0) 0 false 0;
     collision := collision initialStore;
     audio := audio initialStore;
     defaultUniformsRef := u;
     effectiveShipConfigRef := effectiveShipConfigRef initialStore |}.

(** A camera inside the surface of planet 1 (its distance is negative);
    with a fractal scale of 0 the distance loop makes one iteration. *)
Definition storeInsideSurface : Store :=
  storeAt (0, 1, 0) defaultSoundConfig
          [("slider_fractalScale", 0); ("slider_fractalRotation", 0)].

(** The sum of a list of numbers. *)
Fixpoint sumQ (l : list Q) : Q :=
  match l with
  | [] => 0
  | x :: rest => x + sumQ rest
  end.

(** Whether a modulation adds to the target [t]: it is enabled and [t] is
    its target. *)
Definition contributes (t : ModulationTarget) (m : Modulation) : bool :=
  mod_enabled m && target_eqb t (mod_target m).

(** Whether some modulation of a list, enabled or not, has the target. *)
Definition hasTarget (modulations : list Modulation) (t : ModulationTarget) : bool :=
  existsb (fun m => target_eqb t (mod_target m)) modulations.

(** A sound config with another modulation list, and a modulation with
    its amount set to 0. *)
Definition withModulations (sound : SoundConfig) (l : list Modulation) : SoundConfig :=
  mkSound (sound_enabled sound) (sound_masterVolume sound) (sound_reverb sound)
          (sound_drone sound) (sound_atmosphere sound) (sound_melody sound)
          (sound_arp sound) (sound_rhythm sound) l.


(** The first two modulations of the default patch. *)
Definition defaultMod1 : Modulation := mkModulation "1" true speed drone_filter 0.4.
Definition defaultMod5 : Modulation :=
  mkModulation "5" true altitude atmosphere_gain 0.15.

(** The index of a point that starts at 0 and moves one step at a time
    between 0 and 7, turning at both ends, after [k] steps; and the
    direction in which it leaves: 1 upward, -1 downward. *)
Definition bounce (k : Z) : Z :=
  let m := (k mod 14)%Z in
  if (m <=? 7)%Z then m else (14 - m)%Z.

Definition bounceDirection (k : Z) : Z :=
  if (7 <=? k mod 14)%Z then (-1)%Z else 1%Z.

(** The index and the internal direction that each call of a run of
    [playArpNote] leaves in the store. *)
Fixpoint arpTrace (calls : list (Q * Q)) (s : Session) (a : Audio) : list (Z * Z) :=
  match calls with
  | [] => []
  | c :: rest =>
      let a' := fst (playArpNote (fst c) (snd c) s a) in
      (arpNoteIndexRef a', arpInternalDirectionRef a') :: arpTrace rest s a'
  end.

(** The arpeggio runs over eight positions in direction 'updown': its bus
    exists, it is enabled, the configured direction is 'updown', the
    modulation of the direction is within 0.3 of 0, and the scale and the
    octaves give eight notes. *)
Definition arpUpdown8 (s : Session) (a : Audio) : Prop :=
  (exists nodes, audioNodesRef a = Some nodes /\ nodes_arp nodes = true)
  /\ arp_enabled (sound_arp (soundConfig s)) = true
  /\ arp_direction_v (sound_arp (soundConfig s)) = dir_updown
  /\ -0.3 <= audioTargetAccumulatorsRef a arp_direction <= 0.3
  /\ arpTotalNotes s a = 8%Z.

(** A store whose arpeggio runs over one octave of the dorian scale, with
    the audio graph built at audio time 0. *)
Definition oneOctaveSound : SoundConfig :=
  let d := defaultSoundConfig in
  mkSound true 0.5 (sound_reverb d) (sound_drone d) (sound_atmosphere d)
          (sound_melody d) (mkArp true 0.25 1.0 1 600 dir_updown) (sound_rhythm d) [].

Definition arpStore : Store :=
  initAudio true 0 (storeAt INITIAL_CAMERA_POS oneOctaveSound []).

(** A frame with the left arrow key held, at a given timestamp. *)
Definition frameLeft (timestamp : Q) : FrameInput :=
  mkInput timestamp ["arrowleft"] 0 0 0 0.

(** Whether a call of a generator synthesises its event: the instrument is
    enabled and the graph (for the arpeggio and the rhythm: its bus)
    exists. *)
Definition melodyPlays (s : Session) (a : Audio) : bool :=
  melody_enabled (sound_melody (soundConfig s))
  && match audioNodesRef a with Some _ => true | None => false end.

Definition arpPlays (s : Session) (a : Audio) : bool :=
  arp_enabled (sound_arp (soundConfig s))
  && match audioNodesRef a with Some nodes => nodes_arp nodes | None => false end.

Definition rhythmPlays (s : Session) (a : Audio) : bool :=
  rhythm_enabled (sound_rhythm (soundConfig s))
  && match audioNodesRef a with Some nodes => nodes_rhythm nodes | None => false end.

(** The store of a freshly mounted hook once the audio graph is built, at
    audio time 0: the melody is armed for audio time 2. *)
Definition audioStore : Store := initAudio true 0 initialStore.

(** A frame at audio time 2 whose draw for the melody gate is 0.9. *)
Definition melodySlotFrame : FrameInput := mkInput 2000 [] 2 0.9 0 0.

(** A session file whose sound config has no [modulations] property, and
    nothing else. *)
Definition soundWithoutModulations : LoadedSoundConfig :=
  mkLSound (Some true) (Some 0.5) None None None None None None None.

Definition sessionWithoutModulations : SessionState :=
  mkSessionState None None None None None None None (Some soundWithoutModulations)
                 None None None None None None None None None.

(** The tuple of a modulation that a round trip has to keep. *)
Definition modulationTuple (m : Modulation)
  : ModulationSource * ModulationTarget * Q * bool :=
  (mod_source m, mod_target m, mod_amount m, mod_enabled m).

(** A sound config with three custom modulations. *)
Definition threeModulations : list Modulation :=
  [ mkModulation "a1" true turning reverb_mix 0.25;
    mkModulation "a2" false proximity rhythm_bpm (-0.5);
    mkModulation "a3" true heading melody_density 1 ].

(** ** Stores and frames of the examples *)

(** A camera at rest at the start position, with a fractal scale of 0. *)
Definition storeAtRest : Store :=
  storeAt INITIAL_CAMERA_POS defaultSoundConfig
          [("slider_fractalScale", 0); ("slider_fractalRotation", 0)].

(** The same camera with a fractal scale of 1. *)
Definition storeScaleOne : Store :=
  storeAt INITIAL_CAMERA_POS defaultSoundConfig [("slider_fractalScale", 1)].

(** The camera inside the surface, once the audio graph is built. *)
Definition storeInsideSurfaceAudio : Store := initAudio true 0 storeInsideSurface.

(** A store whose session was loaded from a local file without an id. *)
Definition storeLocalFile : Store :=
  applySessionState sessionWithoutModulations initialStore.

(** A frame at 1000 ms with no key held. *)
Definition restInput : FrameInput := mkInput 1000 [] 0 0 0 0.

(** The result of a frame of the examples, with the host functions of the
    examples. *)
Definition frameResult (fuel : nat) (inp : FrameInput) (st : Store)
  : Store * list AudioEvent :=
  JS.nullish (gameLoop sinAtZero cosAtZero sqrtOfSquare fuel inp st) (st, []).

(** Whether one of the six movement keys is held. *)
Definition movementKeyHeld (keys : list string) : bool :=
  has keys "w" || has keys "s" || has keys "a" || has keys "d"
  || has keys " " || has keys "shift".

(** Whether one of the four look keys is held. *)
Definition lookKeyHeld (keys : list string) : bool :=
  has keys "arrowup" || has keys "arrowdown"
  || has keys "arrowleft" || has keys "arrowright".



(** An audio state whose direction modulation is 0.5, over one octave. *)
Definition audioSteeredUp : Audio :=
  let a := audio arpStore in
  mkAudio (audioNodesRef a) (liveAudioStateRef a)
          (nextMelodyTimeRef a) (nextArpTimeRef a) (nextRhythmTimeRef a)
          7 1 (audioInputsRef a)
          (fun t => match t with arp_direction => 0.5 | _ => 0 end).

(** ** hooks/useAppStore: editing the configs *)

(** A [Partial<Modulation>]: the properties that an update carries. *)
Record PartialModulation : Type := mkPartialModulation {
  p_id : option string;
  p_enabled : option bool;
  p_source : option ModulationSource;
  p_target : option ModulationTarget;
  p_amount : option Q
}.

(** [{ ...mod, ...newConfig }] *)
Definition spreadModulation (m : Modulation) (newConfig : PartialModulation)
  : Modulation :=
  mkModulation (JS.nullish (p_id newConfig) (mod_id m))
               (JS.nullish (p_enabled newConfig) (mod_enabled m))
               (JS.nullish (p_source newConfig) (mod_source m))
               (JS.nullish (p_target newConfig) (mod_target m))
               (JS.nullish (p_amount newConfig) (mod_amount m)).

(** [addSoundModulation]: the new modulation gets a fresh id ([uuid], the
    result of [uuidv4()]) and is enabled, whatever the argument says. *)
Definition addSoundModulation (uuid : string) (m : Modulation) (prev : SoundConfig)
  : SoundConfig :=
  withModulations prev
    (sound_modulations prev
     ++ [mkModulation uuid true (mod_source m) (mod_target m) (mod_amount m)]).

Definition updateSoundModulation (id : string) (newConfig : PartialModulation)
           (prev : SoundConfig) : SoundConfig :=
  withModulations prev
    (map (fun m => if String.eqb (mod_id m) id then spreadModulation m newConfig else m)
         (sound_modulations prev)).

Definition removeSoundModulation (id : string) (prev : SoundConfig) : SoundConfig :=
  withModulations prev
    (filter (fun m => negb (String.eqb (mod_id m) id)) (sound_modulations prev)).

(** The update that disables a modulation. *)
Definition disableOnly : PartialModulation :=
  mkPartialModulation None (Some false) None None None.

(** The edits of [handleTerraformConfigChange] that the settings panel
    makes: the switch of a variable, its magnitude, its probability. *)
Inductive TerraformEdit : Type :=
| tf_enabled (value : bool)
| tf_set_magnitude (value : Q)
| tf_set_probability (value : Q).

(** [targets.findIndex(t => t.variableName === variableName)] *)
Fixpoint findTarget (variableName : string) (l : list TerraformTarget) : option nat :=
  match l with
  | [] => None
  | t :: rest =>
      if String.eqb (tf_variableName t) variableName then Some O
      else option_map S (findTarget variableName rest)
  end.

(** [newTargets[idx] = { ...newTargets[idx], [property]: value }] *)
Fixpoint editTarget (idx : nat) (f : TerraformTarget -> TerraformTarget)
         (l : list TerraformTarget) : list TerraformTarget :=
  match l, idx with
  | [], _ => []
  | t :: rest, O => f t :: rest
  | t :: rest, S i => t :: editTarget i f rest
  end.

Definition handleTerraformConfigChange (variableName : string) (edit : TerraformEdit)
           (prev : option TerraformConfig) : option TerraformConfig :=
  let l := match prev with Some c => targets c | None => [] end in
  let idx := findTarget variableName l in
  match edit, idx with
  | tf_enabled true, None =>
      Some (mkTerraform (l ++ [mkTerraformTarget variableName 0.01 (Some 1.0)]))
  | tf_enabled false, Some _ =>
      Some (mkTerraform
              (filter (fun t => negb (String.eqb (tf_variableName t) variableName)) l))
  | tf_enabled _, _ => prev
  | tf_set_magnitude value, Some i =>
      Some (mkTerraform
              (editTarget i (fun t => mkTerraformTarget (tf_variableName t) value
                                                        (tf_probability t)) l))
  | tf_set_probability value, Some i =>
      Some (mkTerraform
              (editTarget i (fun t => mkTerraformTarget (tf_variableName t)
                                                        (tf_magnitude t) (Some value)) l))
  | _, None => prev
  end.

(** The names of the targets of a terraform config; [null] has none. *)
Definition terraformNames (c : option TerraformConfig) : list string :=
  map tf_variableName (match c with Some c => targets c | None => [] end).

(** ** hooks/useAppStore: keys *)

(** [set.add(k)] and [set.delete(k)] on the set of held keys, kept in the
    order of insertion. *)
Definition keyAdd (k : string) (keys : list string) : list string :=
  if has keys k then keys else keys ++ [k].

Definition keyDelete (k : string) (keys : list string) : list string :=
  filter (fun k' => negb (String.eqb k k')) keys.

(** [pressKey]: in session '1', with sound enabled and no graph yet, the
    first key press builds the audio graph; the key is held under its
    lower-case name.  [toLowerCase] is the string method of the host. *)
Definition pressKey (toLowerCase : string -> string) (supported : bool) (now : Q)
           (key : string) (held : list string * Store) : list string * Store :=
  let st := snd held in
  let st' :=
    if String.eqb (currentSessionId (session st)) "1"
       && match audioNodesRef (audio st) with None => true | Some _ => false end
       && sound_enabled (soundConfig (session st))
    then initAudio supported now st
    else st in
  (keyAdd (toLowerCase key) (fst held), st').

Definition releaseKey (toLowerCase : string -> string) (key : string)
           (held : list string * Store) : list string * Store :=
  (keyDelete (toLowerCase key) (fst held), snd held).

(** ** hooks/useAppStore: slider values from the URL hash *)

(** The parameters of the hash: an object from names to strings. *)
Definition HashParams : Type := list (string * string).

Fixpoint hashParam (k : string) (h : HashParams) : option string :=
  match h with
  | [] => None
  | (k', v) :: rest => if String.eqb k k' then Some v else hashParam k rest
  end.

(** [obj[k] = v] on an object from names to numbers. *)
Fixpoint setUniform (k : string) (v : Q) (u : Uniforms) : Uniforms :=
  match u with
  | [] => [(k, v)]
  | (k', v') :: rest =>
      if String.eqb k k' then (k, v) :: rest else (k', v') :: setUniform k v rest
  end.

(** The loop of [loadSession] over the sliders: a slider whose name has a
    non-empty hash parameter that parses as a number takes the parsed
    value, clamped to its range.  [parseFloat] is the function of the host;
    [None] is the result [NaN]. *)
Definition hashUniforms (parseFloat : string -> option Q) (hashParams : HashParams)
           (sliders : list Slider) (initialUniforms : Uniforms) : Uniforms :=
  fold_left
    (fun u slider =>
       match hashParam (variableName slider) hashParams with
       | Some str =>
           if String.eqb str "" then u
           else match parseFloat str with
                | Some val =>
                    setUniform (variableName slider)
                               (JS.Math_max (slider_min slider)
                                            (JS.Math_min (slider_max slider) val)) u
                | None => u
                end
       | None => u
       end)
    sliders initialUniforms.

(** ** components/Hud *)

(** The values that the HUD draws. *)
Definition hudHeadingDeg (yaw : Q) : Q :=
  JS.rem (JS.rem (- yaw * 180 / JS.Math_PI) 360 + 360) 360.

Definition hudAltitude (camera : CameraData) : Q := at1 (position camera) + 1.49.

Definition hudIndicatorY (crY vY : Q) : Q :=
  let crHeight := 100 in
  let vYClamped := JS.Math_max (-0.5) (JS.Math_min 0.5 vY) in
  crY - (vYClamped / 0.5) * (crHeight / 2).

(** ** components/ShipOverlay *)

(** The animation state of the overlay. *)
Record OverlayState : Type := mkOverlay {
  ov_lastTime : Q;
  thrust_level : Q;
  thrust_isThrusting : bool;
  thrust_ignitionTime : Q;
  brakeLevel : Q;
  ship_yaw : Q;
  ship_pitch : Q;
  ship_roll : Q
}.

Definition truthy (b : option bool) : bool :=
  match b with Some true => true | _ => false end.

Definition isThrustingNow (pressedKeys : list string) (controls : ControlConfig) : bool :=
  (has pressedKeys "s" && negb (truthy (invertForward controls)))
  || (has pressedKeys "w" && truthy (invertForward controls)).

Definition isBraking (pressedKeys : list string) (controls : ControlConfig) : bool :=
  (has pressedKeys "w" && negb (truthy (invertForward controls)))
  || (has pressedKeys "s" && truthy (invertForward controls)).

(** The state update of one [render] call of the overlay, at time [t],
    from the held keys, the control config, the angular velocity of the
    camera and the pitch offset of the ship config. *)
Definition overlayRender (t : Q) (pressedKeys : list string) (controls : ControlConfig)
           (angularVelocity : vec2) (pitchOffset : option Q) (o : OverlayState)
  : OverlayState :=
  let dt := JS.Math_min ((t - ov_lastTime o) / 1000) 0.1 in
  let currentTimeSec := t * 0.001 in
  let thrusting := isThrustingNow pressedKeys controls in
  let braking := isBraking pressedKeys controls in
  let LERP_SPEED := 8.0 in
  let tYaw := - snd angularVelocity * 1.2 in
  let tPitch_velocity := fst angularVelocity in
  let tPitch := - tPitch_velocity * 1.0 + JS.nullish pitchOffset 0.0 in
  {| ov_lastTime := t;
     thrust_level :=
       thrust_level o + ((if thrusting then 1.0 else 0.0) - thrust_level o) * LERP_SPEED * dt;
     thrust_isThrusting := thrusting;
     thrust_ignitionTime :=
       if thrusting && negb (thrust_isThrusting o) then currentTimeSec
       else thrust_ignitionTime o;
     brakeLevel :=
       brakeLevel o + ((if braking then 1.0 else 0.0) - brakeLevel o) * LERP_SPEED * dt;
     ship_yaw := ship_yaw o + (tYaw - ship_yaw o) * 3.0 * dt;
     ship_pitch := ship_pitch o + (tPitch - ship_pitch o) * 3.0 * dt;
     ship_roll := ship_roll o + (tYaw * 1.5 - ship_roll o) * 3.0 * dt |}.

(** The state of the overlay when its effect starts. *)
Definition initialOverlay : OverlayState :=
  mkOverlay 0 0.0 false (-100.0) 0.0 0 0 0.

(** ** Sessions that agree *)

(** Two sessions hold the same values: every field is equal, the numeric
    properties of the ship config key by key. *)
Definition sameSession (s1 s2 : Session) : Prop :=
  currentSessionId s1 = currentSessionId s2
  /\ activeShaderCode s1 = activeShaderCode s2
  /\ sliders s1 = sliders s2
  /\ uniforms s1 = uniforms s2
  /\ cameraControlsEnabled s1 = cameraControlsEnabled s2
  /\ terraformConfig s1 = terraformConfig s2
  /\ controlConfig s1 = controlConfig s2
  /\ soundConfig s1 = soundConfig s2
  /\ sessionSource s1 = sessionSource s2
  /\ (forall k, ship_props (shipConfig s1) k = ship_props (shipConfig s2) k)
  /\ ship_modulations (shipConfig s1) = ship_modulations (shipConfig s2)
  /\ canvasSize s1 = canvasSize s2
  /\ viewMode s1 = viewMode s2
  /\ isHdEnabled s1 = isHdEnabled s2
  /\ isFpsEnabled s1 = isFpsEnabled s2
  /\ isHudEnabled s1 = isHudEnabled s2
  /\ collisionThresholdRed s1 = collisionThresholdRed s2
  /\ collisionThresholdYellow s1 = collisionThresholdYellow s2.

(** ** Targets of a terraform config *)

(** [prev?.targets ?? []] *)
Definition terraformTargets (c : option TerraformConfig) : list TerraformTarget :=
  match c with Some c => targets c | None => [] end.

(** ** Reference definitions for the smoothing and the ship loop *)

(** [x] lies between [a] and [b], whichever of the two is the larger. *)
Definition between (a b x : Q) : Prop := JS.Math_min a b <= x <= JS.Math_max a b.

(** The enabled ship modulations that write the key [k]. *)
Definition shipContributes (k : ShipKey) (m : ShipModulation) : bool :=
  smod_enabled m && if ShipKey_eq_dec k (geometry (smod_target m)) then true else false.

(** Source value times amount times the range of the target. *)
Definition shipDelta (inputs : ModulationSource -> Q) (m : ShipModulation) : Q :=
  inputs (smod_source m) * smod_amount m * SHIP_MOD_RANGES (smod_target m).

(** ** The game loop: the view fade *)

(** [viewModeTransitionRef]: the fade between cockpit and chase view. *)
Record ViewTransition : Type := mkTransition {
  vt_current : Q;
  vt_target : Q
}.

Definition initialTransition : ViewTransition := mkTransition 1.0 1.0.

(** [setViewMode] gives the fade its target. *)
Definition setViewMode (mode : ViewMode) (tr : ViewTransition) : ViewTransition :=
  mkTransition (vt_current tr) (match mode with chase => 1.0 | cockpit => 0.0 end).

(** The fade step of a frame with frame time [dt]. *)
Definition viewTransitionStep (dt : Q) (tr : ViewTransition) : ViewTransition :=
  let LERP_SPEED := 5.0 in
  if JS.gt (JS.Math_abs (vt_target tr - vt_current tr)) 0.001
  then mkTransition (vt_current tr + (vt_target tr - vt_current tr) * LERP_SPEED * dt)
                    (vt_target tr)
  else if negb (Qeq_bool (vt_current tr) (vt_target tr))
       then mkTransition (vt_target tr) (vt_target tr)
       else tr.

(** The fade over a run of frames. *)
Definition viewTransitionRun (dts : list Q) (tr : ViewTransition) : ViewTransition :=
  fold_left (fun tr dt => viewTransitionStep dt tr) dts tr.

(** ** The game loop: terraforming *)

(** The refs of the terraforming: whether the button is held, the power
    that is left, and the current and the target velocity of each uniform
    that is being terraformed. *)
Record TerraformRefs : Type := mkTerraformRefs {
  isTerraformingHeld : bool;
  terraformPowerRef : Q;
  terraform_currentVelocity : Uniforms;
  terraform_targetVelocity : Uniforms
}.

Definition initialTerraformRefs : TerraformRefs := mkTerraformRefs false 1.0 [] [].

(** [delete obj[k]] *)
Definition deleteUniform (k : string) (u : Uniforms) : Uniforms :=
  filter (fun kv => negb (String.eqb k (fst kv))) u.

(** [handleTerraformRelease]: every target velocity becomes 0. *)
Definition handleTerraformRelease (r : TerraformRefs) : TerraformRefs :=
  mkTerraformRefs false (terraformPowerRef r) (terraform_currentVelocity r)
                  (map (fun kv => (fst kv, 0)) (terraform_targetVelocity r)).

(** The power drains while the button is held and some is left, and
    recharges otherwise. *)
Definition terraformPowerStep (held : bool) (dt power : Q) : Q :=
  if held && JS.gt power 0 then JS.Math_max 0 (power - 0.33 * dt)
  else JS.Math_min 1.0 (power + 0.2 * dt).

(** [(cVs[k]||0) + ((tVs[k]||0) - (cVs[k]||0)) * 0.1] *)
Definition terraformVelocity (cV tV : option Q) : Q :=
  let c0 := JS.or (JS.nullish cV 0) 0 in
  c0 + (JS.or (JS.nullish tV 0) 0 - c0) * 0.1.

(** [Math.abs(cVs[k]) < 1e-4 && tVs[k]===0] *)
Definition terraformAtRest (c1 : Q) (tV : option Q) : bool :=
  JS.lt (JS.Math_abs c1) 0.0001
  && match tV with Some t => Qeq_bool t 0 | None => false end.

(** The value and the velocity after the two range tests. *)
Definition terraformClamp (s : Slider) (val c1 : Q) : Q * Q :=
  let r1 := if JS.gt val (slider_max s) then (slider_max s, 0) else (val, c1) in
  if JS.lt (fst r1) (slider_min s) then (slider_min s, 0) else r1.

(** The body of the loop over the affected uniforms, for the uniform [k]. *)
Definition terraformUpdateKey (sliders : list Slider) (k : string)
           (st : TerraformRefs * Uniforms) : TerraformRefs * Uniforms :=
  let r := fst st in
  let next := snd st in
  match find (fun sl => String.eqb (variableName sl) k) sliders with
  | None => st
  | Some s =>
      let tV := lookup k (terraform_targetVelocity r) in
      let c1 := terraformVelocity (lookup k (terraform_currentVelocity r)) tV in
      if terraformAtRest c1 tV
      then (mkTerraformRefs (isTerraformingHeld r) (terraformPowerRef r)
                            (deleteUniform k (terraform_currentVelocity r))
                            (deleteUniform k (terraform_targetVelocity r)),
            next)
      else
        let val := JS.nullish (lookup k next) (defaultValue s)
                   + c1 * terraformPowerRef r in
        let vc := terraformClamp s val c1 in
        (mkTerraformRefs (isTerraformingHeld r) (terraformPowerRef r)
                         (setUniform k (snd vc) (terraform_currentVelocity r))
                         (terraform_targetVelocity r),
         if match lookup k next with
            | Some old => Qeq_bool old (fst vc)
            | None => false
            end
         then next
         else setUniform k (fst vc) next)
  end.

(** [new Set(Object.keys(cVs).concat(Object.keys(tVs)))], in the order of
    insertion. *)
Definition affectedUniforms (r : TerraformRefs) : list string :=
  fold_left (fun acc k => keyAdd k acc)
            (map fst (terraform_currentVelocity r) ++ map fst (terraform_targetVelocity r))
            [].

(** The terraforming block of a frame with frame time [dt].  The updater
    that the block hands to [setUniforms] is taken to run once, in the
    frame itself. *)
Definition terraformStep (sliders : list Slider) (dt : Q)
           (st : TerraformRefs * Uniforms) : TerraformRefs * Uniforms :=
  let r := fst st in
  let r1 := mkTerraformRefs (isTerraformingHeld r)
                            (terraformPowerStep (isTerraformingHeld r) dt
                                                (terraformPowerRef r))
                            (terraform_currentVelocity r)
                            (terraform_targetVelocity r) in
  fold_left (fun st k => terraformUpdateKey sliders k st)
            (affectedUniforms r1) (r1, snd st).

(** The terraforming over a run of frames. *)
Definition terraformRun (sliders : list Slider) (dts : list Q)
           (st : TerraformRefs * Uniforms) : TerraformRefs * Uniforms :=
  fold_left (fun st dt => terraformStep sliders dt st) dts st.

(** What the terraforming holds for the uniform [k]: its current and its
    target velocity, its value, and the power. *)
Definition terraformView (k : string) (st : TerraformRefs * Uniforms)
  : option Q * option Q * option Q * Q :=
  (lookup k (terraform_currentVelocity (fst st)),
   lookup k (terraform_targetVelocity (fst st)),
   lookup k (snd st),
   terraformPowerRef (fst st)).

(** The refs of a frame after the power step. *)
Definition terraformPowered (dt : Q) (st : TerraformRefs * Uniforms)
  : TerraformRefs * Uniforms :=
  (mkTerraformRefs (isTerraformingHeld (fst st))
                   (terraformPowerStep (isTerraformingHeld (fst st)) dt
                                       (terraformPowerRef (fst st)))
                   (terraform_currentVelocity (fst st))
                   (terraform_targetVelocity (fst st)),
   snd st).

(** The uniform [k] has a velocity entry. *)
Definition terraformAffected (k : string) (r : TerraformRefs) : bool :=
  match lookup k (terraform_currentVelocity r), lookup k (terraform_targetVelocity r) with
  | None, None => false
  | _, _ => true
  end.

(** The uniform [k] has come to rest: it has no velocity entry left. *)
Definition terraformResting (k : string) (st : TerraformRefs * Uniforms) : Prop :=
  lookup k (terraform_currentVelocity (fst st)) = None
  /\ lookup k (terraform_targetVelocity (fst st)) = None.

(** [slidersRef.current.find(sl => sl.variableName === k)] *)
Definition findSlider (sliders : list Slider) (k : string) : option Slider :=
  find (fun sl => String.eqb (variableName sl) k) sliders.

(** ** The router in the arithmetic of the host *)

(** The reset of the accumulators and the loop over the modulations once
    more, with the numbers and their operations as parameters: [add] and
    [mul] are [+] and [*], [falsy x] says that [x || d] is [d], and
    [number q] is the number that the literal [q] of the config and of the
    tables denotes.  With the rationals and their exact operations this is
    the router of the frame above; with the binary64 numbers of the host
    it is the router as the host runs it. *)
Section HostArithmetic.

Variable num : Type.
Variables zero one : num.
Variables add mul : num -> num -> num.
Variable falsy : num -> bool.
Variable number : Q -> num.

Definition orOver (x d : num) : num := if falsy x then d else x.

Definition baseAccumulatorsOver (sound : SoundConfig) (t : ModulationTarget) : num :=
  match t with
  | masterVolume => number (sound_masterVolume sound)
  | drone_gain => number (drone_gain_v (sound_drone sound))
  | drone_filter => number (drone_filter_v (sound_drone sound))
  | drone_pitch => number (drone_pitch_v (sound_drone sound))
  | atmosphere_gain => number (atmosphere_gain_v (sound_atmosphere sound))
  | arp_gain => number (arp_gain_v (sound_arp sound))
  | arp_speed => number (arp_speed_v (sound_arp sound))
  | arp_filter => number (arp_filter_v (sound_arp sound))
  | arp_octaves => number (arp_octaves_v (sound_arp sound))
  | arp_direction => zero
  | rhythm_gain => number (rhythm_gain_v (sound_rhythm sound))
  | rhythm_filter => number (rhythm_filter_v (sound_rhythm sound))
  | rhythm_bpm => number (rhythm_bpm_v (sound_rhythm sound))
  | melody_gain => number (melody_gain_v (sound_melody sound))
  | melody_density => number (melody_density_v (sound_melody sound))
  | reverb_mix => number (reverb_mix_v (sound_reverb sound))
  | reverb_tone => number (reverb_tone_v (sound_reverb sound))
  end.

(** [(inputs[mod.source] || 0) * mod.amount * (MOD_RANGES[mod.target] || 1.0)] *)
Definition modulationDeltaOver (ranges : ModulationTarget -> num)
           (inputs : ModulationSource -> num) (m : Modulation) : num :=
  let range := orOver (ranges (mod_target m)) one in
  mul (mul (orOver (inputs (mod_source m)) zero) (number (mod_amount m))) range.

Definition applyModulationOver (ranges : ModulationTarget -> num)
           (inputs : ModulationSource -> num)
           (targetAccumulators : ModulationTarget -> num) (m : Modulation)
  : ModulationTarget -> num :=
  if negb (mod_enabled m) then targetAccumulators
  else fun t =>
         if target_eqb t (mod_target m)
         then add (targetAccumulators t) (modulationDeltaOver ranges inputs m)
         else targetAccumulators t.

Definition routeModulationsOver (ranges : ModulationTarget -> num)
           (inputs : ModulationSource -> num)
           (modulations : list Modulation)
           (targetAccumulators : ModulationTarget -> num)
  : ModulationTarget -> num :=
  fold_left (applyModulationOver ranges inputs) modulations targetAccumulators.

Definition routedAccumulatorsOver (sound : SoundConfig)
           (inputs : ModulationSource -> num) : ModulationTarget -> num :=
  routeModulationsOver (fun t => number (MOD_RANGES t)) inputs
                       (sound_modulations sound) (baseAccumulatorsOver sound).

(** The merge of two routed results, target by target: a target of the
    first list takes its value from the first result, any other target
    from the second. *)
Definition mergeRoutedOver (first : list Modulation)
           (r1 r2 : ModulationTarget -> num) (t : ModulationTarget) : num :=
  if hasTarget first t then r1 t else r2 t.

End HostArithmetic.

(** ** The numbers of the host *)

(** A JavaScript number is a binary64 floating-point number; the
    operations [+], [-], [*], [/], [<], [<=] and [===] of the host are the
    operations of [PrimFloat].  The literals of the source are written as
    rationals and read by [number], which gives the binary64 number
    nearest to the literal. *)
Module Host64.
Import PrimFloat.
Local Open Scope float_scope.

Definition NaN : float := nan.

(** The integer [z] as a number (exact below 2^53). *)
Definition ofZ (z : Z) : float :=
  match z with
  | Z0 => zero
  | Zpos p => of_uint63 (Uint63.of_Z (Zpos p))
  | Zneg p => - of_uint63 (Uint63.of_Z (Zpos p))
  end.

(** The number that the literal [q] denotes: numerator and denominator
    are exact and the division rounds to the nearest number. *)
Definition number (q : Q) : float := ofZ (Qnum q) / ofZ (Zpos (Qden q)).

(** [x || d]: the numbers [0], [-0] and [NaN] are falsy. *)
Definition falsy (x : float) : bool := (x =? zero) || is_nan x.
Definition or (x d : float) : float := if falsy x then d else x.

(** [a >= b]: false when either number is [NaN]. *)
Definition ge (a b : float) : bool := b <=? a.

(** [Math.max(a, b)] and [Math.min(a, b)]: [NaN] when either argument is
    [NaN]; of the two zeros, [+0] is the larger. *)
Definition Math_max (a b : float) : float :=
  if is_nan a || is_nan b then nan
  else if a <? b then b
  else if b <? a then a
  else if a =? zero then a + b
  else a.

Definition Math_min (a b : float) : float :=
  if is_nan a || is_nan b then nan
  else if a <? b then a
  else if b <? a then b
  else if a =? zero then - (- a + - b)
  else a.

(** The frame time: [if (lastTime === 0) lastTime = timestamp;
    dt = Math.min((timestamp - lastTime) / 1000.0, 0.1)]. *)
Definition frameDt (lastTime timestamp : float) : float :=
  let last := if lastTime =? zero then timestamp else lastTime in
  Math_min ((timestamp - last) / number 1000.0) (number 0.1).


(** The router of the frame. *)
Definition routeModulations :=
  routeModulationsOver float zero (number 1.0) add mul falsy number.

Definition baseAccumulators := baseAccumulatorsOver float zero number.

Definition routedAccumulators :=
  routedAccumulatorsOver float zero (number 1.0) add mul falsy number.

Definition liveArpOctaves (acc : ModulationTarget -> float) : float :=
  Math_max (number 1) (Math_min (number 5) (acc arp_octaves)).
Definition liveMelodyDensity (acc : ModulationTarget -> float) : float :=
  Math_max (number 0.0) (Math_min (number 1.0) (acc melody_density)).

(** The intervals of the schedulers and the test of the lookahead. *)
Definition rhythmInterval (rhythmBpm : float) : float := number 60 / rhythmBpm.
Definition arpInterval (rhythmBpm arpSpeed : float) : float :=
  (number 60 / rhythmBpm) / (arpSpeed * number 4).
Definition melodyInterval (rhythmBpm random : float) : float :=
  (number 60 / rhythmBpm) * (random * number 4 + number 4).

End Host64.

(** The router over the rationals, with the exact operations. *)
Definition routeModulationsExact :=
  routeModulationsOver Q 0 1.0 Qplus Qmult (fun x => Qeq_bool x 0) (fun q => q).

(** ** Examples for the router of the host *)






(** Two modulations of the proximity on the gain of the drone, in both
    orders, and the telemetry of a frame that collides. *)
Definition gainPatch1 : Modulation := mkModulation "a" true proximity drone_gain 0.01.
Definition gainPatch2 : Modulation := mkModulation "b" true proximity drone_gain 0.69.

Definition collidingInputs (src : ModulationSource) : PrimFloat.float :=
  match src with
  | proximity => Host64.number 1
  | _ => Host64.number 0
  end.

(** ** components/Hud: what is drawn *)

(** [x.toFixed(0)] as a whole number: the nearest integer, the larger one
    of two that are equally near; a negative [x] is rounded as [-x] is. *)
Definition toFixed0 (x : Q) : Z :=
  if Qlt_le_dec x 0 then (- Qfloor (- x + (1 # 2)))%Z else Qfloor (x + (1 # 2)).

(** The number in the heading text, [headingDeg.toFixed(0)]. *)
Definition hudHeadingText (yaw : Q) : Z := toFixed0 (hudHeadingDeg yaw).

(** The box of the climb-rate indicator and its marker, each as the top
    edge and the height of the rectangle that is filled:
    [fillRect(crX - 3, crY - crHeight / 2, 6, crHeight)] and
    [fillRect(crX - 3, indicatorY - 2, 6, 4)]. *)
Definition hudClimbBox (crY : Q) : Q * Q := (crY - 100 / 2, 100).
Definition hudClimbMarker (crY vY : Q) : Q * Q := (hudIndicatorY crY vY - 2, 4).

(** ** A store of another session with an audio graph *)

(** The session of a local file, after sound was switched on in the
    panel: [handleSoundConfigChange] calls [initAudio] in every session. *)
Definition storeLocalFileAudio : Store := initAudio true 0 storeLocalFile.

(** * Properties *)

(** ** The JavaScript operators *)

Module JSFacts.

Lemma lt_true (a b : Q) : JS.lt a b = true <-> a < b.
Proof.
  unfold JS.lt. destruct (Qlt_le_dec a b) as [H | H]; split; intro K;
    try reflexivity; try assumption; try discriminate.
  exfalso. apply (Qlt_not_le _ _ K H).
Qed.

Lemma lt_false (a b : Q) : JS.lt a b = false <-> b <= a.
Proof.
  unfold JS.lt. destruct (Qlt_le_dec a b) as [H | H]; split; intro K;
    try reflexivity; try assumption; try discriminate.
  exfalso. apply (Qlt_not_le _ _ H K).
Qed.

Lemma gt_true (a b : Q) : JS.gt a b = true <-> b < a.
Proof. unfold JS.gt. apply lt_true. Qed.

Lemma ge_true (a b : Q) : JS.ge a b = true <-> b <= a.
Proof.
  unfold JS.ge. rewrite negb_true_iff. apply lt_false.
Qed.

Lemma ge_false (a b : Q) : JS.ge a b = false <-> a < b.
Proof.
  unfold JS.ge. rewrite negb_false_iff. apply lt_true.
Qed.

Lemma max_l (a b : Q) : a <= JS.Math_max a b.
Proof. unfold JS.Math_max. destruct (Qlt_le_dec a b); lra. Qed.

Lemma max_r (a b : Q) : b <= JS.Math_max a b.
Proof. unfold JS.Math_max. destruct (Qlt_le_dec a b); lra. Qed.

Lemma max_lub (a b c : Q) : a <= c -> b <= c -> JS.Math_max a b <= c.
Proof. unfold JS.Math_max. destruct (Qlt_le_dec a b); lra. Qed.

Lemma min_l (a b : Q) : JS.Math_min a b <= a.
Proof. unfold JS.Math_min. destruct (Qlt_le_dec b a); lra. Qed.

Lemma min_r (a b : Q) : JS.Math_min a b <= b.
Proof. unfold JS.Math_min. destruct (Qlt_le_dec b a); lra. Qed.

Lemma min_glb (a b c : Q) : c <= a -> c <= b -> c <= JS.Math_min a b.
Proof. unfold JS.Math_min. destruct (Qlt_le_dec b a); lra. Qed.

(** [Math.max(lo, Math.min(hi, x))] lies between the bounds. *)
Lemma clamp_bounds (lo hi x : Q) :
  lo <= hi -> lo <= JS.Math_max lo (JS.Math_min hi x) <= hi.
Proof.
  intro H. split.
  - apply max_l.
  - apply max_lub; [assumption | apply min_l].
Qed.

(** The clamp leaves a value within the bounds alone. *)
Lemma clamp_inside (lo hi x : Q) :
  lo <= x <= hi -> JS.Math_max lo (JS.Math_min hi x) == x.
Proof.
  intros [H1 H2]. unfold JS.Math_max, JS.Math_min.
  destruct (Qlt_le_dec x hi); destruct (Qlt_le_dec lo _); lra.
Qed.


(** [x || d] keeps a number up to equality of rationals when [d] is 0,
    and keeps every nonzero number. *)
Lemma or_zero (x : Q) : JS.or x 0 == x.
Proof.
  unfold JS.or. destruct (Qeq_bool x 0) eqn:E.
  - apply Qeq_bool_iff in E. symmetry. exact E.
  - reflexivity.
Qed.

Lemma or_nonzero (x d : Q) : ~ x == 0 -> JS.or x d = x.
Proof.
  intro H. unfold JS.or. destruct (Qeq_bool x 0) eqn:E.
  - apply Qeq_bool_iff in E. contradiction.
  - reflexivity.
Qed.

(** Division by a positive number is monotone. *)
Lemma div_le_mono (a b c : Q) : 0 < c -> a <= b -> a / c <= b / c.
Proof.
  intros Hc Hab. unfold Qdiv. apply Qmult_le_compat_r.
  - exact Hab.
  - apply Qlt_le_weak. apply Qinv_lt_0_compat. exact Hc.
Qed.

Lemma div_nonneg (a c : Q) : 0 < c -> 0 <= a -> 0 <= a / c.
Proof.
  intros Hc Ha. setoid_replace 0 with (0 / c) by (unfold Qdiv; ring).
  apply div_le_mono; assumption.
Qed.

Lemma div_lt_1 (a c : Q) : 0 < c -> a < c -> a / c < 1.
Proof.
  intros Hc Ha. apply Qlt_shift_div_r; [exact Hc | lra].
Qed.

End JSFacts.

(** ** The frame and its distance *)

(** The loop of the distance function ends as soon as its counter does,
    whatever the host functions return. *)
Lemma planet1Loop_ends (Math_sin Math_cos : Q -> Q) (rot pulse scale t : Q) :
  forall (fuel : nat) (temp_q : vec3) (d i : Q),
    loopEnds fuel scale i = true ->
    exists dist,
      planet1Loop Math_sin Math_cos fuel rot pulse scale t temp_q d i = Some dist.
Proof.
  induction fuel as [| fuel IH]; intros temp_q d i H; simpl in *.
  - destruct (JS.gt i 0.05); [discriminate | eexists; reflexivity].
  - destruct (JS.gt i 0.05); [| eexists; reflexivity].
    apply IH. exact H.
Qed.

(** A frame whose distance is known is the frame of [frame]. *)
Lemma gameLoop_frame (Math_sin Math_cos Math_sqrt : Q -> Q)
      (fuel : nat) (inp : FrameInput) (st : Store) (distance : option Q) :
  frameDistance Math_sin Math_cos fuel inp st = Some distance ->
  gameLoop Math_sin Math_cos Math_sqrt fuel inp st
  = Some (frame Math_sin Math_cos Math_sqrt distance inp st).
Proof.
  intro H. unfold gameLoop. rewrite H. reflexivity.
Qed.

(** In session '1' the frame distance is the distance of the proposed
    position. *)
Lemma frameDistance_session1 (Math_sin Math_cos : Q -> Q)
      (fuel : nat) (inp : FrameInput) (st : Store) (dist : Q) :
  currentSessionId (session st) = "1" ->
  getPlanet1Distance Math_sin Math_cos fuel
    (proposedPosition Math_sin Math_cos inp (controlConfig (session st)) (physics st))
    (uniforms (session st))
    (accumulatedTimeRef (physics st) + frameDt inp (physics st)) = Some dist ->
  frameDistance Math_sin Math_cos fuel inp st = Some (Some dist).
Proof.
  intros Hs Hd. unfold frameDistance. rewrite Hs, Hd. reflexivity.
Qed.


(** ** C1: the collision veto *)

(** C1. In a frame of the collidable session (session '1') whose distance
    function, evaluated at the proposed position, is below the red
    threshold, the frame returns, the camera position that it commits is the
    position at the start of the frame (all three components, so the
    displacement is vetoed as a whole), the three components of the camera
    velocity are 0 after the collision branch, and the state is
    'colliding'. *)
Theorem collision_veto (Math_sin Math_cos Math_sqrt : Q -> Q)
        (fuel : nat) (inp : FrameInput) (st : Store) (dist : Q) :
  currentSessionId (session st) = "1" ->
  getPlanet1Distance Math_sin Math_cos fuel
    (proposedPosition Math_sin Math_cos inp (controlConfig (session st)) (physics st))
    (uniforms (session st))
    (accumulatedTimeRef (physics st) + frameDt inp (physics st)) = Some dist ->
  dist < collisionThresholdRed (session st) ->
  exists st' evs,
    gameLoop Math_sin Math_cos Math_sqrt fuel inp st = Some (st', evs)
    /\ position (cameraRef (physics st')) = position (cameraRef (physics st))
    /\ position (renderCameraRef (physics st')) = position (cameraRef (physics st))
    /\ cameraVelocityRef (physics st') = (0, 0, 0)
    /\ collisionStateRef (collision st') = colliding.
Proof.
  intros Hs Hd Hred.
  pose proof (frameDistance_session1 Math_sin Math_cos fuel inp st dist Hs Hd) as Hf.
  exists (fst (frame Math_sin Math_cos Math_sqrt (Some dist) inp st)).
  exists (snd (frame Math_sin Math_cos Math_sqrt (Some dist) inp st)).
  split.
  - rewrite (gameLoop_frame _ _ Math_sqrt _ _ _ _ Hf).
    rewrite <- surjective_pairing. reflexivity.
  - apply JSFacts.lt_true in Hred.
    unfold frame; cbn [fst snd physics collision cameraRef renderCameraRef position
                         cameraVelocityRef collisionStateRef].
    unfold classify. rewrite Hred. cbn. repeat split; reflexivity.
Qed.

(** A frame that meets the hypotheses of C1: the camera rests inside the
    surface. *)
Lemma collision_veto_witness :
  exists st' evs,
    gameLoop sinAtZero cosAtZero sqrtOfSquare 8 (mkInput 1000 [] 0 0 0 0)
             storeInsideSurface = Some (st', evs)
    /\ position (cameraRef (physics st')) = (0, 1, 0)
    /\ position (renderCameraRef (physics st')) = (0, 1, 0)
    /\ cameraVelocityRef (physics st') = (0, 0, 0)
    /\ collisionStateRef (collision st') = colliding.
Proof.
  apply (collision_veto sinAtZero cosAtZero sqrtOfSquare 8 (mkInput 1000 [] 0 0 0 0)
                        storeInsideSurface
                        (JS.nullish
                           (getPlanet1Distance sinAtZero cosAtZero 8
                              (proposedPosition sinAtZero cosAtZero
                                 (mkInput 1000 [] 0 0 0 0)
                                 (controlConfig (session storeInsideSurface))
                                 (physics storeInsideSurface))
                              (uniforms (session storeInsideSurface))
                              (accumulatedTimeRef (physics storeInsideSurface)
                               + frameDt (mkInput 1000 [] 0 0 0 0)
                                         (physics storeInsideSurface))) 0)).
  - reflexivity.
  - vm_compute. reflexivity.
  - vm_compute. reflexivity.
Defined.

(** ** C2: classification and proximity *)




(** The proximity of every classification lies in [0, 1]. *)
Lemma classify_range (red yellow d : Q) :
  0 <= snd (classify red yellow d) <= 1.
Proof.
  unfold classify.
  destruct (JS.lt d red); [cbn; lra |].
  destruct (JS.lt d yellow); [| cbn; lra].
  cbn [snd]. apply JSFacts.clamp_bounds. lra.
Qed.



(** ** C3 and C6: the modulation router *)

Lemma target_eqb_true (a b : ModulationTarget) : target_eqb a b = true <-> a = b.
Proof.
  unfold target_eqb. destruct (ModulationTarget_eq_dec a b); split; intro H;
    try reflexivity; try assumption; try discriminate; contradiction.
Qed.

Lemma sumQ_app (l1 l2 : list Q) : sumQ (l1 ++ l2) == sumQ l1 + sumQ l2.
Proof.
  induction l1 as [| x l1 IH]; simpl.
  - ring.
  - rewrite IH. ring.
Qed.

(** The loop adds to each target the deltas of the modulations that
    contribute to it, and nothing else. *)
Lemma routeModulations_sum (ranges : ModulationTarget -> Q)
      (inputs : ModulationSource -> Q) (t : ModulationTarget) :
  forall (modulations : list Modulation) (acc : ModulationTarget -> Q),
    routeModulations ranges inputs modulations acc t
    == acc t + sumQ (map (modulationDelta ranges inputs)
                         (filter (contributes t) modulations)).
Proof.
  unfold routeModulations.
  induction modulations as [| m l IH]; intro acc; simpl.
  - ring.
  - rewrite IH. unfold applyModulation, contributes.
    destruct (mod_enabled m); simpl.
    + destruct (target_eqb t (mod_target m)); simpl; ring.
    + ring.
Qed.

(** A disabled modulation leaves the accumulators as they are. *)
Lemma routeModulations_enabled_only (ranges : ModulationTarget -> Q)
      (inputs : ModulationSource -> Q) :
  forall (modulations : list Modulation) (acc : ModulationTarget -> Q),
    routeModulations ranges inputs modulations acc
    = routeModulations ranges inputs (filter mod_enabled modulations) acc.
Proof.
  unfold routeModulations.
  induction modulations as [| m l IH]; intro acc; simpl.
  - reflexivity.
  - destruct (mod_enabled m) eqn:E; simpl.
    + apply IH.
    + unfold applyModulation at 2. rewrite E. simpl. apply IH.
Qed.

(** No entry of the range table is 0, so [MOD_RANGES[t] || 1.0] is the
    entry, and [inputs[source] || 0] is the input. *)
Lemma modulationDelta_MOD_RANGES (inputs : ModulationSource -> Q) (m : Modulation) :
  modulationDelta MOD_RANGES inputs m
  == inputs (mod_source m) * mod_amount m * MOD_RANGES (mod_target m).
Proof.
  unfold modulationDelta.
  rewrite JSFacts.or_zero.
  rewrite JSFacts.or_nonzero; [reflexivity |].
  destruct (mod_target m); discriminate.
Qed.



(** The loop over any numbers adds to each target the deltas of the
    modulations that contribute to it, in the order of the list, and
    nothing else. *)
Lemma routeModulationsOver_target (num : Type) (zero one : num)
      (add mul : num -> num -> num) (falsy : num -> bool) (number : Q -> num)
      (ranges : ModulationTarget -> num) (inputs : ModulationSource -> num)
      (t : ModulationTarget) :
  forall (modulations : list Modulation) (acc : ModulationTarget -> num),
    routeModulationsOver num zero one add mul falsy number ranges inputs modulations acc t
    = fold_left add
        (map (modulationDeltaOver num zero one mul falsy number ranges inputs)
             (filter (contributes t) modulations))
        (acc t).
Proof.
  unfold routeModulationsOver.
  induction modulations as [| m l IH]; intro acc; cbn [fold_left filter map].
  - reflexivity.
  - rewrite IH. unfold applyModulationOver, contributes.
    destruct (mod_enabled m); cbn [negb andb];
      [destruct (target_eqb t (mod_target m)) |]; reflexivity.
Qed.

(** The router of the frame is the router over the rationals with the
    exact operations. *)
Lemma routeModulations_exact (ranges : ModulationTarget -> Q)
      (inputs : ModulationSource -> Q) (modulations : list Modulation)
      (acc : ModulationTarget -> Q) :
  routeModulations ranges inputs modulations acc
  = routeModulationsExact ranges inputs modulations acc.
Proof. reflexivity. Qed.




(** The sum of the contributions to a target does not depend on the
    order of the list. *)
Lemma sumQ_contributions_perm (f : Modulation -> Q) (p : Modulation -> bool) :
  forall l l' : list Modulation,
    Permutation l l' ->
    sumQ (map f (filter p l)) == sumQ (map f (filter p l')).
Proof.
  induction 1 as [| x l l' _ IH | x y l | l l' l'' _ IH1 _ IH2]; simpl.
  - reflexivity.
  - destruct (p x); simpl; rewrite IH; reflexivity.
  - destruct (p x); destruct (p y); simpl; ring.
  - rewrite IH1. exact IH2.
Qed.

(** A list without the target contributes nothing to it. *)
Lemma filter_contributes_no_target (t : ModulationTarget) :
  forall l : list Modulation,
    hasTarget l t = false -> filter (contributes t) l = [].
Proof.
  unfold hasTarget.
  induction l as [| m l IH]; simpl; intro H.
  - reflexivity.
  - apply orb_false_iff in H. destruct H as [H1 H2].
    unfold contributes. rewrite H1, andb_false_r. apply IH. exact H2.
Qed.

(** C6 (amended).  In the arithmetic of the host, whatever it is, and for
    every base-value map, telemetry record and range table: the routed
    value of a target depends only on the enabled modulations with that
    target and on their order among themselves, so two lists that hold,
    for every target, the same enabled modulations in the same order route
    to the same values, however the modulations of different targets and
    the disabled ones are placed; and when no target belongs to both of
    two lists, routing the concatenated list gives, for every target, the
    merge of the two separate results.  With exact sums (rationals) any two
    lists that are permutations of each other route to the same value of
    every target. *)
Theorem router_order_independent :
  (forall (num : Type) (zero one : num) (add mul : num -> num -> num)
          (falsy : num -> bool) (number : Q -> num)
          (ranges : ModulationTarget -> num) (inputs : ModulationSource -> num)
          (base : ModulationTarget -> num),
      let route := routeModulationsOver num zero one add mul falsy number ranges inputs in
      (forall l l' : list Modulation,
          (forall t, filter (fun m => mod_enabled m && target_eqb t (mod_target m)) l
                     = filter (fun m => mod_enabled m && target_eqb t (mod_target m)) l') ->
          forall t, route l base t = route l' base t)
      /\ (forall l1 l2 : list Modulation,
             (forall t, hasTarget l1 t = true -> hasTarget l2 t = false) ->
             forall t, route (l1 ++ l2) base t
                       = mergeRoutedOver num l1 (route l1 base) (route l2 base) t))
  /\ (forall (ranges : ModulationTarget -> Q) (inputs : ModulationSource -> Q)
             (base : ModulationTarget -> Q) (l l' : list Modulation),
         Permutation l l' ->
         forall t, routeModulations ranges inputs l base t
                   == routeModulations ranges inputs l' base t).
Proof.
  split.
  - intros num zero one add mul falsy number ranges inputs base route. split.
    + intros l l' H t. unfold route. rewrite !routeModulationsOver_target.
      change (filter (contributes t) l) with
        (filter (fun m => mod_enabled m && target_eqb t (mod_target m)) l).
      rewrite (H t). reflexivity.
    + intros l1 l2 H t. unfold route, mergeRoutedOver.
      rewrite !routeModulationsOver_target, filter_app, map_app, fold_left_app.
      destruct (hasTarget l1 t) eqn:E.
      * rewrite (filter_contributes_no_target t l2 (H t E)). reflexivity.
      * rewrite (filter_contributes_no_target t l1 E). reflexivity.
  - intros ranges inputs base l l' H t. rewrite !routeModulations_sum.
    rewrite (sumQ_contributions_perm _ _ l l' H). reflexivity.
Qed.

(** The hypotheses of C6 in the arithmetic of the host: the first two
    default modulations, which have different targets, in both orders, and
    split by target. *)
Lemma router_order_independent_witness :
  (forall t,
      Host64.routeModulations (fun t => Host64.number (MOD_RANGES t)) collidingInputs
                              [defaultMod1; defaultMod5]
                              (Host64.baseAccumulators defaultSoundConfig) t
      = Host64.routeModulations (fun t => Host64.number (MOD_RANGES t)) collidingInputs
                                [defaultMod5; defaultMod1]
                                (Host64.baseAccumulators defaultSoundConfig) t)
  /\ (forall t,
         Host64.routeModulations (fun t => Host64.number (MOD_RANGES t)) collidingInputs
                                 ([defaultMod1] ++ [defaultMod5])
                                 (Host64.baseAccumulators defaultSoundConfig) t
         = mergeRoutedOver PrimFloat.float [defaultMod1]
             (Host64.routeModulations (fun t => Host64.number (MOD_RANGES t))
                                      collidingInputs [defaultMod1]
                                      (Host64.baseAccumulators defaultSoundConfig))
             (Host64.routeModulations (fun t => Host64.number (MOD_RANGES t))
                                      collidingInputs [defaultMod5]
                                      (Host64.baseAccumulators defaultSoundConfig)) t)
  /\ routeModulations MOD_RANGES (fun _ => 1) [defaultMod1; defaultMod5]
                      (baseAccumulators defaultSoundConfig) drone_filter
     == routeModulations MOD_RANGES (fun _ => 1) [defaultMod5; defaultMod1]
                         (baseAccumulators defaultSoundConfig) drone_filter.
Proof.
  destruct router_order_independent as [Hhost Hexact].
  destruct (Hhost PrimFloat.float PrimFloat.zero (Host64.number 1.0)
                  PrimFloat.add PrimFloat.mul Host64.falsy Host64.number
                  (fun t => Host64.number (MOD_RANGES t)) collidingInputs
                  (Host64.baseAccumulators defaultSoundConfig)) as [Hsame Hcat].
  split; [| split].
  - apply Hsame. intro t. destruct t; reflexivity.
  - apply Hcat. intros t H. destruct t; try discriminate H. reflexivity.
  - apply Hexact. apply perm_swap.
Defined.

(** C6 as the specification states it fails in the arithmetic of the host,
    which rounds every sum to the nearest binary64 number: with the gain of
    the drone at 0.4 and a proximity of 1, the two modulations of 0.01 and
    of 0.69 on that gain route to (0.4 + 0.01) + 0.69 in one order and to
    (0.4 + 0.69) + 0.01 in the other, and the two numbers differ. *)
Lemma router_order_independent_counterexample :
  Permutation [gainPatch1; gainPatch2] [gainPatch2; gainPatch1]
  /\ Host64.baseAccumulators defaultSoundConfig drone_gain = Host64.number 0.4
  /\ PrimFloat.eqb
       (Host64.routedAccumulators
          (withModulations defaultSoundConfig [gainPatch1; gainPatch2])
          collidingInputs drone_gain)
       (Host64.routedAccumulators
          (withModulations defaultSoundConfig [gainPatch2; gainPatch1])
          collidingInputs drone_gain)
     = false
  /\ Host64.routedAccumulators
       (withModulations defaultSoundConfig [gainPatch1; gainPatch2])
       collidingInputs drone_gain
     = Host64.number 1.1
  /\ PrimFloat.ltb
       (Host64.routedAccumulators
          (withModulations defaultSoundConfig [gainPatch2; gainPatch1])
          collidingInputs drone_gain)
       (Host64.number 1.1)
     = true.
Proof.
  split; [apply perm_swap |].
  repeat split; vm_compute; reflexivity.
Qed.

(** ** C4: the arpeggio in direction 'updown' *)

Lemma bounce_range (k : Z) : (0 <= bounce k <= 7)%Z.
Proof.
  unfold bounce.
  pose proof (Z.mod_pos_bound k 14 ltac:(lia)) as H.
  destruct (Z.leb_spec (k mod 14) 7); lia.
Qed.

(** One step of direction 'updown' over eight notes moves the bouncing
    point by one step; the final clamp changes nothing. *)
Lemma arpStep_bounce (random : Q) (k : Z) :
  let stepped := arpStep dir_updown 8 random (bounce k) (bounceDirection k) in
  Z.max 0 (Z.min (8 - 1) (fst stepped)) = bounce (k + 1)
  /\ snd stepped = bounceDirection (k + 1).
Proof.
  unfold bounce, bounceDirection.
  rewrite <- (Z.add_mod_idemp_l k 1 14) by lia.
  pose proof (Z.mod_pos_bound k 14 ltac:(lia)) as H.
  remember (k mod 14)%Z as m eqn:Em. clear Em.
  assert (C : (m = 0 \/ m = 1 \/ m = 2 \/ m = 3 \/ m = 4 \/ m = 5 \/ m = 6 \/ m = 7
               \/ m = 8 \/ m = 9 \/ m = 10 \/ m = 11 \/ m = 12 \/ m = 13)%Z) by lia.
  repeat (destruct C as [C | C]; [subst m; split; reflexivity |]).
  subst m; split; reflexivity.
Qed.

(** The internal direction changes in a step exactly when the step lands
    on index 0 or on index 7. *)
Lemma bounceDirection_flips (k : Z) :
  bounceDirection (k + 1) <> bounceDirection k
  <-> bounce (k + 1) = 0%Z \/ bounce (k + 1) = 7%Z.
Proof.
  unfold bounce, bounceDirection.
  rewrite <- (Z.add_mod_idemp_l k 1 14) by lia.
  pose proof (Z.mod_pos_bound k 14 ltac:(lia)) as H.
  remember (k mod 14)%Z as m eqn:Em. clear Em.
  assert (C : (m = 0 \/ m = 1 \/ m = 2 \/ m = 3 \/ m = 4 \/ m = 5 \/ m = 6 \/ m = 7
               \/ m = 8 \/ m = 9 \/ m = 10 \/ m = 11 \/ m = 12 \/ m = 13)%Z) by lia.
  repeat (destruct C as [C | C]; [subst m; cbn; split; intro K; lia |]).
  subst m; cbn; split; intro K; lia.
Qed.

(** The effective direction of an arpeggio whose modulation is small is
    the configured one. *)
Lemma arpUpdown8_direction (s : Session) (a : Audio) :
  arpUpdown8 s a -> arpEffectiveDirection s a = dir_updown.
Proof.
  intros (_ & _ & Hd & [Hlo Hhi] & _). unfold arpEffectiveDirection.
  assert (G : JS.gt (audioTargetAccumulatorsRef a arp_direction) 0.3 = false)
    by (unfold JS.gt; apply JSFacts.lt_false; exact Hhi).
  assert (L : JS.lt (audioTargetAccumulatorsRef a arp_direction) (-0.3) = false)
    by (apply JSFacts.lt_false; exact Hlo).
  rewrite G, L. exact Hd.
Qed.

(** One call of [playArpNote] in that setting: it plays one note, at the
    index it has just stepped to, and stays in the setting. *)
Lemma playArpNote_updown8 (playTime random : Q) (s : Session) (a : Audio) (k : Z) :
  arpUpdown8 s a ->
  arpNoteIndexRef a = bounce k ->
  arpInternalDirectionRef a = bounceDirection k ->
  let r := playArpNote playTime random s a in
  arpUpdown8 s (fst r)
  /\ arpNoteIndexRef (fst r) = bounce (k + 1)
  /\ arpInternalDirectionRef (fst r) = bounceDirection (k + 1)
  /\ firedIndices (snd r) = [bounce (k + 1)].
Proof.
  intros Hready Hi Hd.
  pose proof (arpUpdown8_direction s a Hready) as Hdir.
  destruct Hready as ((nodes & Hn & Harp) & Hen & Hcfg & Hmod & Htot).
  destruct (arpStep_bounce random k) as [Sidx Sdir].
  unfold playArpNote. rewrite Hn, Harp, Hen. cbn [negb orb].
  rewrite Htot, Hdir, Hi, Hd.
  cbn [fst snd arpNoteIndexRef arpInternalDirectionRef firedIndices flat_map app].
  rewrite Sidx, Sdir.
  repeat split; try reflexivity.
  - exists nodes. split; [reflexivity | exact Harp].
  - exact Hen.
  - exact Hcfg.
  - exact (proj1 Hmod).
  - exact (proj2 Hmod).
  - exact Htot.
Qed.

(** A run of calls from the [k]-th point of the bounce. *)
Lemma playArpNotes_updown8 (s : Session) :
  forall (calls : list (Q * Q)) (a : Audio) (k : nat),
    arpUpdown8 s a ->
    arpNoteIndexRef a = bounce (Z.of_nat k) ->
    arpInternalDirectionRef a = bounceDirection (Z.of_nat k) ->
    firedIndices (snd (playArpNotes calls s a))
    = map (fun j => bounce (Z.of_nat j)) (seq (S k) (List.length calls))
    /\ arpTrace calls s a
       = map (fun j => (bounce (Z.of_nat j), bounceDirection (Z.of_nat j)))
             (seq (S k) (List.length calls)).
Proof.
  induction calls as [| c rest IH]; intros a k Hready Hi Hd.
  - split; reflexivity.
  - destruct (playArpNote_updown8 (fst c) (snd c) s a (Z.of_nat k) Hready Hi Hd)
      as (Hready' & Hi' & Hd' & Hfired).
    replace (Z.of_nat k + 1)%Z with (Z.of_nat (S k)) in * by lia.
    destruct (IH _ (S k) Hready' Hi' Hd') as [IH1 IH2].
    split.
    + cbn [playArpNotes snd]. unfold firedIndices in *.
      rewrite flat_map_app, Hfired, IH1. reflexivity.
    + cbn [arpTrace List.length seq map]. rewrite Hi', Hd', IH2. reflexivity.
Qed.

(** C4 (amended). With the arp index at 0, the internal direction up, the
    effective direction 'updown' (configured direction 'updown', direction
    modulation within 0.3 of 0) and eight notes, every arp-note event
    first steps the index and then fires the note at the new index: the
    k-th event (k = 1, 2, ...) fires index [bounce k], so the fired indices
    are 1,2,...,7,6,...,1,0,1,... (index 0 is fired for the first time by
    the 14th event).  The indices stay in [0, 7], and the internal
    direction changes in an event exactly when the event lands on index 0
    or on index 7. *)
Theorem arp_updown_sequence (s : Session) (a : Audio) (calls : list (Q * Q)) :
  arpUpdown8 s a ->
  arpNoteIndexRef a = 0%Z ->
  arpInternalDirectionRef a = 1%Z ->
  firedIndices (snd (playArpNotes calls s a))
  = map (fun k => bounce (Z.of_nat k)) (seq 1 (List.length calls))
  /\ arpTrace calls s a
     = map (fun k => (bounce (Z.of_nat k), bounceDirection (Z.of_nat k)))
           (seq 1 (List.length calls))
  /\ Forall (fun i => (0 <= i <= 7)%Z) (firedIndices (snd (playArpNotes calls s a)))
  /\ (forall k : Z,
         bounceDirection (k + 1) <> bounceDirection k
         <-> bounce (k + 1) = 0%Z \/ bounce (k + 1) = 7%Z)
  /\ map (fun k => bounce (Z.of_nat k)) (seq 1 16)
     = [1; 2; 3; 4; 5; 6; 7; 6; 5; 4; 3; 2; 1; 0; 1; 2]%Z.
Proof.
  intros Hready Hi Hd.
  destruct (playArpNotes_updown8 s calls a 0 Hready Hi Hd) as [H1 H2].
  split; [exact H1 |]. split; [exact H2 |]. split.
  - rewrite H1. apply Forall_forall. intros i Hin.
    apply in_map_iff in Hin. destruct Hin as (k & <- & _). apply bounce_range.
  - split; [exact bounceDirection_flips | reflexivity].
Qed.

Lemma arpStore_updown8 : arpUpdown8 (session arpStore) (audio arpStore).
Proof.
  unfold arpUpdown8. split.
  - eexists. split; reflexivity.
  - repeat split; try reflexivity; cbn; lra.
Qed.

(** The store [arpStore] meets the hypotheses of C4; its first sixteen
    events. *)
Lemma arp_updown_sequence_witness :
  firedIndices (snd (playArpNotes (repeat (0, 0) 16) (session arpStore) (audio arpStore)))
  = [1; 2; 3; 4; 5; 6; 7; 6; 5; 4; 3; 2; 1; 0; 1; 2]%Z.
Proof.
  destruct (arp_updown_sequence (session arpStore) (audio arpStore) (repeat (0, 0) 16))
    as (H & _).
  - exact arpStore_updown8.
  - reflexivity.
  - reflexivity.
  - exact H.
Defined.

(** C4 as the specification states it fails: from index 0 the first event
    fires index 1, not index 0. *)
Lemma arp_updown_sequence_counterexample :
  arpNoteIndexRef (audio arpStore) = 0%Z
  /\ arpInternalDirectionRef (audio arpStore) = 1%Z
  /\ arpEffectiveDirection (session arpStore) (audio arpStore) = dir_updown
  /\ arpTotalNotes (session arpStore) (audio arpStore) = 8%Z
  /\ firedIndices
       (snd (playArpNotes (repeat (0, 0) 16) (session arpStore) (audio arpStore)))
     <> [0; 1; 2; 3; 4; 5; 6; 7; 6; 5; 4; 3; 2; 1; 0; 1]%Z
  /\ firedIndices (snd (playArpNote 0 0 (session arpStore) (audio arpStore))) = [1%Z].
Proof.
  repeat split; try reflexivity.
  vm_compute. discriminate.
Qed.

(** ** C5: the heading source *)

(** The remainder of a division by a positive number has the sign of the
    dividend and is smaller than the divisor. *)
Lemma rem_nonneg (a b : Q) : 0 < b -> 0 <= a -> 0 <= JS.rem a b < b.
Proof.
  intros Hb Ha. unfold JS.rem, JS.trunc.
  assert (Hq : b * (a / b) == a) by (apply Qmult_div_r; lra).
  assert (Hq0 : 0 <= a / b) by (apply JSFacts.div_nonneg; assumption).
  destruct (Qlt_le_dec (a / b) 0) as [C | C]; [lra |].
  pose proof (Qfloor_le (a / b)) as F1.
  pose proof (Qlt_floor (a / b)) as F2.
  rewrite inject_Z_plus in F2.
  assert (G1 : b * inject_Z (Qfloor (a / b)) <= b * (a / b))
    by (apply Qmult_le_l; assumption).
  assert (G2 : b * (a / b) < b * (inject_Z (Qfloor (a / b)) + inject_Z 1))
    by (apply Qmult_lt_l; assumption).
  rewrite Hq in G1, G2.
  assert (E : b * (inject_Z (Qfloor (a / b)) + inject_Z 1)
              == b * inject_Z (Qfloor (a / b)) + b) by ring.
  rewrite E in G2. lra.
Qed.

Lemma rem_negative (a b : Q) : 0 < b -> a < 0 -> - b < JS.rem a b <= 0.
Proof.
  intros Hb Ha. unfold JS.rem, JS.trunc.
  assert (Hq : b * (a / b) == a) by (apply Qmult_div_r; lra).
  assert (Hq0 : a / b < 0).
  { apply Qlt_shift_div_r; [exact Hb | lra]. }
  destruct (Qlt_le_dec (a / b) 0) as [C | C]; [| lra].
  pose proof (Qle_ceiling (a / b)) as F1.
  pose proof (Qceiling_lt (a / b)) as F2.
  unfold Z.sub in F2. rewrite inject_Z_plus in F2.
  assert (G1 : b * (a / b) <= b * inject_Z (Qceiling (a / b)))
    by (apply Qmult_le_l; assumption).
  assert (G2 : b * (inject_Z (Qceiling (a / b)) + inject_Z (-1)) < b * (a / b))
    by (apply Qmult_lt_l; assumption).
  rewrite Hq in G1, G2.
  assert (E : b * (inject_Z (Qceiling (a / b)) + inject_Z (-1))
              == b * inject_Z (Qceiling (a / b)) - b) by ring.
  rewrite E in G2. lra.
Qed.

(** A dividend between the negated divisor and 0 is its own remainder. *)
Lemma rem_small_negative (a b : Q) : 0 < b -> - b < a -> a < 0 -> JS.rem a b == a.
Proof.
  intros Hb Hlo Ha. unfold JS.rem, JS.trunc.
  assert (Hq0 : a / b < 0).
  { apply Qlt_shift_div_r; [exact Hb | lra]. }
  assert (Hq1 : -1 < a / b).
  { apply Qlt_shift_div_l; [exact Hb | lra]. }
  destruct (Qlt_le_dec (a / b) 0) as [C | C]; [| lra].
  pose proof (Qle_ceiling (a / b)) as F1.
  pose proof (Qceiling_lt (a / b)) as F2.
  assert (Z0 : Qceiling (a / b) = 0%Z).
  { assert (A : inject_Z (Qceiling (a / b) - 1) < inject_Z 0)
      by exact (Qlt_trans _ _ _ F2 C).
    assert (B : inject_Z (-1) < inject_Z (Qceiling (a / b)))
      by exact (Qlt_le_trans _ _ _ Hq1 F1).
    rewrite <- Zlt_Qlt in A, B. lia. }
  rewrite Z0. cbn. ring.
Qed.

Lemma two_pi_positive : 0 < JS.Math_PI * 2.
Proof. reflexivity. Qed.

(** The heading has the sign of the yaw: for a yaw that is not negative it
    lies in [0, 1), for a negative yaw it lies in (-1, 0]. *)
Lemma headingOf_sign (yaw : Q) :
  (0 <= yaw -> 0 <= headingOf yaw < 1)
  /\ (yaw < 0 -> -1 < headingOf yaw <= 0).
Proof.
  pose proof two_pi_positive as Hb. unfold headingOf. split; intro H.
  - destruct (rem_nonneg yaw (JS.Math_PI * 2) Hb H) as [A B]. split.
    + apply JSFacts.div_nonneg; assumption.
    + apply JSFacts.div_lt_1; assumption.
  - destruct (rem_negative yaw (JS.Math_PI * 2) Hb H) as [A B]. split.
    + apply Qlt_shift_div_l; [exact Hb | lra].
    + apply Qle_shift_div_r; [exact Hb | lra].
Qed.

(** Within one turn to the left the heading is the yaw over 2 pi: it is
    negative. *)
Lemma headingOf_left_turn (yaw : Q) :
  - (JS.Math_PI * 2) < yaw -> yaw < 0 ->
  headingOf yaw == yaw / (JS.Math_PI * 2) /\ headingOf yaw < 0.
Proof.
  intros Hlo Hneg. pose proof two_pi_positive as Hb. unfold headingOf.
  rewrite (rem_small_negative yaw (JS.Math_PI * 2) Hb Hlo Hneg).
  split; [reflexivity |].
  apply Qlt_shift_div_r; [exact Hb | lra].
Qed.

(** The telemetry that a frame stores is the telemetry of the frame, whether
    or not the audio block runs. *)
Lemma audioUpdate_inputs (inp : FrameInput) (s : Session)
      (inputs : ModulationSource -> Q) (a : Audio) :
  audioInputsRef (fst (audioUpdate inp s inputs a)) = inputs.
Proof.
  unfold audioUpdate. destruct (audioRunning s a); reflexivity.
Qed.

Lemma frame_heading (Math_sin Math_cos Math_sqrt : Q -> Q)
      (distance : option Q) (inp : FrameInput) (st : Store) :
  audioInputsRef (audio (fst (frame Math_sin Math_cos Math_sqrt distance inp st))) heading
  = headingOf (snd (rotationStep inp (controlConfig (session st)) (physics st))).
Proof.
  unfold frame. cbn [fst audio]. rewrite audioUpdate_inputs. reflexivity.
Qed.

(** With the default fractal scale the distance loop ends within eight
    iterations, whatever the position and the host functions. *)
Lemma frameDistance_default_scale (Math_sin Math_cos : Q -> Q)
      (inp : FrameInput) (st : Store) :
  currentSessionId (session st) = "1" ->
  lookup "slider_fractalScale" (uniforms (session st)) = None ->
  exists dist, frameDistance Math_sin Math_cos 8 inp st = Some (Some dist).
Proof.
  intros Hs Hu. unfold frameDistance, getPlanet1Distance. rewrite Hs, Hu.
  cbn [String.eqb Ascii.eqb Bool.eqb JS.nullish].
  match goal with
  | |- context [planet1Loop _ _ _ ?rot ?pulse _ ?t ?q ?d _] =>
      destruct (planet1Loop_ends Math_sin Math_cos rot pulse 0.37 t 8 q d 58.0)
        as [dist Hd]; [vm_compute; reflexivity |]
  end.
  exists dist. rewrite Hd. reflexivity.
Qed.

(** C5 (the code at a failing input).  From the store of a freshly mounted
    hook, two frames with the left arrow key held (16 ms apart) leave a
    negative yaw, and the 'heading' source that the second frame stores is
    negative: it is the yaw over 2 pi, not the yaw wrapped into [0, 2 pi)
    over 2 pi, and it lies outside [0, 1).  This holds whatever the host
    functions return. *)
Theorem heading_negative_after_left_turn (Math_sin Math_cos Math_sqrt : Q -> Q) :
  exists st' evs,
    runFrames Math_sin Math_cos Math_sqrt 8 [frameLeft 1000; frameLeft 1016] initialStore
    = Some (st', evs)
    /\ snd (rotation (cameraRef (physics st'))) == -0.00064848
    /\ audioInputsRef (audio st') heading
       == -0.00064848 / (JS.Math_PI * 2)
    /\ audioInputsRef (audio st') heading < 0.
Proof.
  destruct (frameDistance_default_scale Math_sin Math_cos (frameLeft 1000) initialStore)
    as [d1 H1]; [reflexivity | reflexivity |].
  pose (st1 := fst (frame Math_sin Math_cos Math_sqrt (Some d1) (frameLeft 1000)
                          initialStore)).
  destruct (frameDistance_default_scale Math_sin Math_cos (frameLeft 1016) st1)
    as [d2 H2]; [reflexivity | reflexivity |].
  exists (fst (frame Math_sin Math_cos Math_sqrt (Some d2) (frameLeft 1016) st1)).
  eexists. split.
  - cbn [runFrames].
    rewrite (gameLoop_frame _ _ Math_sqrt _ _ _ _ H1). cbn [fst snd]. fold st1.
    rewrite (gameLoop_frame _ _ Math_sqrt _ _ _ _ H2). cbn [fst snd]. reflexivity.
  - assert (Y : snd (rotationStep (frameLeft 1016) (controlConfig (session st1))
                                  (physics st1)) == -0.00064848)
      by (vm_compute; reflexivity).
    assert (R : snd (rotation (cameraRef (physics
                  (fst (frame Math_sin Math_cos Math_sqrt (Some d2)
                              (frameLeft 1016) st1)))))
                = snd (rotationStep (frameLeft 1016) (controlConfig (session st1))
                                    (physics st1))) by reflexivity.
    rewrite frame_heading, R.
    destruct (headingOf_left_turn
                (snd (rotationStep (frameLeft 1016) (controlConfig (session st1))
                                   (physics st1)))) as [E N].
    + rewrite Y. reflexivity.
    + rewrite Y. reflexivity.
    + split; [exact Y |]. split; [| exact N].
      rewrite E, Y. reflexivity.
Qed.

(** ** C7: the lookahead of the schedulers *)

Lemma playGenerativeNote_events (playTime : Q) (s : Session) (a : Audio) :
  playGenerativeNote playTime s a
  = if melodyPlays s a then [GenerativeNote playTime] else [].
Proof.
  unfold playGenerativeNote, melodyPlays.
  destruct (audioNodesRef a); destruct (melody_enabled _); reflexivity.
Qed.

Lemma playRhythm_events (playTime : Q) (s : Session) (a : Audio) :
  playRhythm playTime s a = if rhythmPlays s a then [RhythmHit playTime] else [].
Proof.
  unfold playRhythm, rhythmPlays.
  destruct (audioNodesRef a) as [nodes |]; [| rewrite andb_false_r; reflexivity].
  destruct (nodes_rhythm nodes); destruct (rhythm_enabled _); reflexivity.
Qed.

Lemma playArpNote_events (playTime random : Q) (s : Session) (a : Audio) :
  if arpPlays s a
  then exists index midiNote,
      snd (playArpNote playTime random s a) = [ArpNote playTime index midiNote]
  else snd (playArpNote playTime random s a) = [].
Proof.
  unfold playArpNote, arpPlays.
  destruct (audioNodesRef a) as [nodes |]; [| rewrite andb_false_r; reflexivity].
  destruct (nodes_arp nodes); destruct (arp_enabled _); cbn [negb orb andb snd];
    try reflexivity.
  eexists. eexists. reflexivity.
Qed.

Lemma due_iff (enabled : bool) (now next : Q) :
  enabled && JS.ge now (next - LOOKAHEAD) = true
  <-> enabled = true /\ next - LOOKAHEAD <= now.
Proof.
  rewrite andb_true_iff, JSFacts.ge_true. reflexivity.
Qed.

(** The scheduling block, for each instrument whose generator can play:
    a rhythm hit, and an arpeggio note, is fired exactly when the audio
    clock is within the lookahead of the next event time; a melody note
    needs the random draw below the density as well. *)
Lemma schedule_fires (inp : FrameInput) (s : Session) (a : Audio) :
  let evs := snd (schedule inp s a) in
  let now := audioNow inp in
  (forall t,
      In (RhythmHit t) evs
      <-> rhythmPlays s a = true
          /\ nextRhythmTimeRef a - LOOKAHEAD <= now
          /\ t = JS.Math_max now (nextRhythmTimeRef a))
  /\ (forall t,
         (exists index midiNote, In (ArpNote t index midiNote) evs)
         <-> arpPlays s a = true
             /\ nextArpTimeRef a - LOOKAHEAD <= now
             /\ t = JS.Math_max now (nextArpTimeRef a))
  /\ (forall t,
         In (GenerativeNote t) evs
         <-> melodyPlays s a = true
             /\ nextMelodyTimeRef a - LOOKAHEAD <= now
             /\ random_melodyGate inp < melodyDensity (liveAudioStateRef a)
             /\ t = JS.Math_max now (nextMelodyTimeRef a)).
Proof.
  intros evs now.
  assert (HR : forall t,
             In (RhythmHit t) evs
             <-> rhythmPlays s a = true
                 /\ nextRhythmTimeRef a - LOOKAHEAD <= now
                 /\ t = JS.Math_max now (nextRhythmTimeRef a)).
  { intro t. subst evs now. unfold schedule. cbn [snd].
    rewrite !in_app_iff, playRhythm_events, playGenerativeNote_events.
    pose proof (playArpNote_events (JS.Math_max (audioNow inp) (nextArpTimeRef a))
                                   (random_arp inp) s a) as PA.
    unfold rhythmDue, rhythmPlays in *.
    split.
    - intros [H | [H | H]].
      + destruct (melodyDue inp s a); [| destruct H].
        destruct (JS.lt _ _); [| destruct H].
        destruct (melodyPlays s a); [| destruct H].
        destruct H as [H | []]. discriminate H.
      + destruct (arpDue inp s a); [| destruct H].
        destruct (arpPlays s a).
        * destruct PA as (i & m & PA). rewrite PA in H.
          destruct H as [H | []]. discriminate H.
        * rewrite PA in H. destruct H.
      + destruct (rhythm_enabled _ && JS.ge _ _) eqn:E; [| destruct H].
        apply due_iff in E. destruct E as [E1 E2]. rewrite E1 in *. cbn [andb] in *.
        destruct (match audioNodesRef a with
                  | Some nodes => nodes_rhythm nodes
                  | None => false
                  end); [| destruct H].
        destruct H as [H | []]. injection H as <-. repeat split. exact E2.
    - intros (P & L & ->). right. right.
      apply andb_true_iff in P. destruct P as [P1 P2].
      assert (E : rhythm_enabled (sound_rhythm (soundConfig s))
                  && JS.ge (audioNow inp) (nextRhythmTimeRef a - LOOKAHEAD) = true)
        by (apply due_iff; split; assumption).
      rewrite E, P1, P2. left. reflexivity. }
  assert (HA : forall t,
             (exists index midiNote, In (ArpNote t index midiNote) evs)
             <-> arpPlays s a = true
                 /\ nextArpTimeRef a - LOOKAHEAD <= now
                 /\ t = JS.Math_max now (nextArpTimeRef a)).
  { intro t. subst evs now. unfold schedule. cbn [snd].
    rewrite playRhythm_events, playGenerativeNote_events.
    pose proof (playArpNote_events (JS.Math_max (audioNow inp) (nextArpTimeRef a))
                                   (random_arp inp) s a) as PA.
    unfold arpDue.
    split.
    - intros (i & m & H). rewrite !in_app_iff in H. destruct H as [H | [H | H]].
      + destruct (melodyDue inp s a); [| destruct H].
        destruct (JS.lt _ _); [| destruct H].
        destruct (melodyPlays s a); [| destruct H].
        destruct H as [H | []]. discriminate H.
      + destruct (arp_enabled _ && JS.ge _ _) eqn:E; [| destruct H].
        apply due_iff in E. destruct E as [E1 E2].
        destruct (arpPlays s a).
        * destruct PA as (i' & m' & PA). rewrite PA in H.
          destruct H as [H | []]. injection H as <- _ _. repeat split. exact E2.
        * rewrite PA in H. destruct H.
      + destruct (rhythmDue inp s a); [| destruct H].
        destruct (rhythmPlays s a); [| destruct H].
        destruct H as [H | []]. discriminate H.
    - intros (P & L & ->). rewrite P in PA. destruct PA as (i & m & PA).
      exists i, m. rewrite !in_app_iff. right. left.
      assert (E : arp_enabled (sound_arp (soundConfig s))
                  && JS.ge (audioNow inp) (nextArpTimeRef a - LOOKAHEAD) = true).
      { apply due_iff. split; [| exact L]. unfold arpPlays in P.
        apply andb_true_iff in P. apply P. }
      rewrite E, PA. left. reflexivity. }
  assert (HM : forall t,
             In (GenerativeNote t) evs
             <-> melodyPlays s a = true
                 /\ nextMelodyTimeRef a - LOOKAHEAD <= now
                 /\ random_melodyGate inp < melodyDensity (liveAudioStateRef a)
                 /\ t = JS.Math_max now (nextMelodyTimeRef a)).
  { intro t. subst evs now. unfold schedule. cbn [snd].
    rewrite !in_app_iff, playRhythm_events, playGenerativeNote_events.
    pose proof (playArpNote_events (JS.Math_max (audioNow inp) (nextArpTimeRef a))
                                   (random_arp inp) s a) as PA.
    unfold melodyDue.
    split.
    - intros [H | [H | H]].
      + destruct (melody_enabled _ && JS.ge _ _) eqn:E; [| destruct H].
        apply due_iff in E. destruct E as [E1 E2].
        destruct (JS.lt _ _) eqn:G; [| destruct H].
        apply JSFacts.lt_true in G.
        destruct (melodyPlays s a); [| destruct H].
        destruct H as [H | []]. injection H as <-. repeat split; assumption.
      + destruct (arpDue inp s a); [| destruct H].
        destruct (arpPlays s a).
        * destruct PA as (i & m & PA). rewrite PA in H.
          destruct H as [H | []]. discriminate H.
        * rewrite PA in H. destruct H.
      + destruct (rhythmDue inp s a); [| destruct H].
        destruct (rhythmPlays s a); [| destruct H].
        destruct H as [H | []]. discriminate H.
    - intros (P & L & G & ->). left.
      assert (E : melody_enabled (sound_melody (soundConfig s))
                  && JS.ge (audioNow inp) (nextMelodyTimeRef a - LOOKAHEAD) = true).
      { apply due_iff. split; [| exact L]. unfold melodyPlays in P.
        apply andb_true_iff in P. apply P. }
      apply JSFacts.lt_true in G.
      rewrite E, G, P. left. reflexivity. }
  split; [exact HR |]. split; [exact HA | exact HM].
Qed.

(** The audio of a frame and its events: the frame runs the audio block
    on the audio refs that it finds, with the telemetry of the frame, and
    its events are those of the audio block after at most one collision
    sound. *)
Lemma frame_audio (Math_sin Math_cos Math_sqrt : Q -> Q)
      (distance : option Q) (inp : FrameInput) (st : Store) :
  exists inputs collisionEvents,
    audio (fst (frame Math_sin Math_cos Math_sqrt distance inp st))
    = fst (audioUpdate inp (session st) inputs (audio st))
    /\ snd (frame Math_sin Math_cos Math_sqrt distance inp st)
       = collisionEvents ++ snd (audioUpdate inp (session st) inputs (audio st))
    /\ (collisionEvents = [] \/ collisionEvents = [CollisionSound]).
Proof.
  unfold frame. cbn [fst snd audio].
  eexists. eexists. split; [reflexivity |]. split; [reflexivity |].
  destruct (_ && sound_enabled _); [| left; reflexivity].
  unfold playCollisionSound. destruct (audioNodesRef (audio st)); [| left; reflexivity].
  destruct (negb _); [left | right]; reflexivity.
Qed.

(** The events of the instruments in a frame, by the refs that the frame
    finds and the live state that it leaves. *)
Lemma frame_fires (Math_sin Math_cos Math_sqrt : Q -> Q)
      (distance : option Q) (inp : FrameInput) (st : Store) :
  let r := frame Math_sin Math_cos Math_sqrt distance inp st in
  let s := session st in
  let a := audio st in
  let evs := snd r in
  let now := audioNow inp in
  (forall t,
      In (RhythmHit t) evs
      <-> audioRunning s a = true
          /\ rhythmPlays s a = true
          /\ nextRhythmTimeRef a - 0.1 <= now
          /\ t = JS.Math_max now (nextRhythmTimeRef a))
  /\ (forall t,
         (exists index midiNote, In (ArpNote t index midiNote) evs)
         <-> audioRunning s a = true
             /\ arpPlays s a = true
             /\ nextArpTimeRef a - 0.1 <= now
             /\ t = JS.Math_max now (nextArpTimeRef a))
  /\ (forall t,
         In (GenerativeNote t) evs
         <-> audioRunning s a = true
             /\ melodyPlays s a = true
             /\ nextMelodyTimeRef a - 0.1 <= now
             /\ random_melodyGate inp < melodyDensity (liveAudioStateRef (audio (fst r)))
             /\ t = JS.Math_max now (nextMelodyTimeRef a)).
Proof.
  intros r s a evs now.
  destruct (frame_audio Math_sin Math_cos Math_sqrt distance inp st)
    as (inputs & ce & EA & EE & EC).
  fold r in EA, EE. fold s a in EA, EE. subst evs. rewrite EE, EA. clear EA EE.
  assert (NC : forall e, e <> CollisionSound ->
                         (In e (ce ++ snd (audioUpdate inp s inputs a))
                          <-> In e (snd (audioUpdate inp s inputs a)))).
  { intros e Ne. rewrite in_app_iff. split; [| intro H; right; exact H].
    intros [H | H]; [| exact H].
    destruct EC as [-> | ->]; [destruct H |].
    destruct H as [H | []]. exfalso. apply Ne. symmetry. exact H. }
  destruct (audioRunning s a) eqn:R.
  - pose (a' := mkAudio (audioNodesRef a)
                        (liveFromAccumulators (routedAccumulators (soundConfig s) inputs))
                        (nextMelodyTimeRef a) (nextArpTimeRef a) (nextRhythmTimeRef a)
                        (arpNoteIndexRef a) (arpInternalDirectionRef a)
                        inputs (routedAccumulators (soundConfig s) inputs)).
    assert (U : audioUpdate inp s inputs a = schedule inp s a')
      by (unfold audioUpdate; rewrite R; reflexivity).
    rewrite U in NC |- *.
    destruct (schedule_fires inp s a') as (HR & HA & HM).
    cbv zeta in HR, HA, HM.
    change (rhythmPlays s a') with (rhythmPlays s a) in HR.
    change (arpPlays s a') with (arpPlays s a) in HA.
    change (melodyPlays s a') with (melodyPlays s a) in HM.
    change (nextRhythmTimeRef a') with (nextRhythmTimeRef a) in HR.
    change (nextArpTimeRef a') with (nextArpTimeRef a) in HA.
    change (nextMelodyTimeRef a') with (nextMelodyTimeRef a) in HM.
    change (liveAudioStateRef (fst (schedule inp s a'))) with (liveAudioStateRef a').
    change LOOKAHEAD with 0.1 in HR, HA, HM.
    split; [| split].
    + intro t. rewrite NC by discriminate. rewrite HR. tauto.
    + intro t. split.
      * intros (i & m & H). apply NC in H; [| discriminate].
        split; [reflexivity |]. apply HA. exists i, m. exact H.
      * intros (_ & H). apply HA in H. destruct H as (i & m & H).
        exists i, m. apply NC; [discriminate | exact H].
    + intro t. rewrite NC by discriminate. rewrite HM. tauto.
  - assert (U : snd (audioUpdate inp s inputs a) = [])
      by (unfold audioUpdate; rewrite R; reflexivity).
    rewrite U in NC |- *. split; [| split].
    + intro t. rewrite NC by discriminate. cbn [In]. split; [tauto |].
      intros (H & _). discriminate H.
    + intro t. split.
      * intros (i & m & H). apply NC in H; [destruct H | discriminate].
      * intros (H & _). discriminate H.
    + intro t. rewrite NC by discriminate. cbn [In]. split; [tauto |].
      intros (H & _). discriminate H.
Qed.

(** C7 (amended).  In every frame that returns.  When the audio block of
    the frame runs (session '1', the audio graph is built, sound is
    enabled), for each instrument whose generator can play (the instrument
    is enabled and its bus exists): a rhythm hit, and an arpeggio note, is
    fired exactly when the audio clock is within the 0.1 s lookahead of the
    next event time (audioNow >= next - 0.1); a melody note is fired exactly
    when the clock is within the lookahead and, in addition, the random draw
    of the frame is below the density that the frame has routed.  When the
    audio block does not run, or the generator cannot play, the instrument
    fires nothing.  The audio time of every fired event is
    Math.max(audioNow, next), which is never before the audio clock. *)
Theorem scheduler_lookahead (Math_sin Math_cos Math_sqrt : Q -> Q)
        (fuel : nat) (inp : FrameInput) (st : Store) (r : Store * list AudioEvent) :
  gameLoop Math_sin Math_cos Math_sqrt fuel inp st = Some r ->
  let s := session st in
  let a := audio st in
  let evs := snd r in
  let now := audioNow inp in
  (forall t,
      In (RhythmHit t) evs
      <-> audioRunning s a = true
          /\ rhythmPlays s a = true
          /\ nextRhythmTimeRef a - 0.1 <= now
          /\ t = JS.Math_max now (nextRhythmTimeRef a))
  /\ (forall t,
         (exists index midiNote, In (ArpNote t index midiNote) evs)
         <-> audioRunning s a = true
             /\ arpPlays s a = true
             /\ nextArpTimeRef a - 0.1 <= now
             /\ t = JS.Math_max now (nextArpTimeRef a))
  /\ (forall t,
         In (GenerativeNote t) evs
         <-> audioRunning s a = true
             /\ melodyPlays s a = true
             /\ nextMelodyTimeRef a - 0.1 <= now
             /\ random_melodyGate inp < melodyDensity (liveAudioStateRef (audio (fst r)))
             /\ t = JS.Math_max now (nextMelodyTimeRef a))
  /\ (forall t, In (RhythmHit t) evs \/ In (GenerativeNote t) evs
                \/ (exists index midiNote, In (ArpNote t index midiNote) evs) ->
                now <= t).
Proof.
  intros G s a evs now.
  assert (E : exists distance, r = frame Math_sin Math_cos Math_sqrt distance inp st).
  { unfold gameLoop in G.
    destruct (frameDistance Math_sin Math_cos fuel inp st) as [d |]; [| discriminate G].
    injection G as <-. exists d. reflexivity. }
  destruct E as [distance ->].
  destruct (frame_fires Math_sin Math_cos Math_sqrt distance inp st) as (HR & HA & HM).
  cbv zeta in HR, HA, HM. fold s a in HR, HA, HM. fold evs now in HR, HA, HM.
  split; [exact HR |]. split; [exact HA |]. split; [exact HM |].
  intros t [H | [H | H]].
  - apply HR in H. destruct H as (_ & _ & _ & ->). apply JSFacts.max_l.
  - apply HM in H. destruct H as (_ & _ & _ & _ & ->). apply JSFacts.max_l.
  - apply HA in H. destruct H as (_ & _ & _ & ->). apply JSFacts.max_l.
Qed.

(** The first frame at audio time 2 after the graph of the default session
    is built returns; its rhythm fires at audio time 2, and its melody
    slot stays silent. *)
Lemma scheduler_lookahead_witness :
  exists r,
    gameLoop sinAtZero cosAtZero sqrtOfSquare 8 melodySlotFrame audioStore = Some r
    /\ In (RhythmHit 2) (snd r)
    /\ (forall t, In (GenerativeNote t) (snd r) -> False).
Proof.
  destruct (frameDistance_default_scale sinAtZero cosAtZero melodySlotFrame audioStore)
    as [dist F]; [reflexivity | reflexivity |].
  pose proof (gameLoop_frame sinAtZero cosAtZero sqrtOfSquare 8 melodySlotFrame audioStore
                             (Some dist) F) as G.
  exists (frame sinAtZero cosAtZero sqrtOfSquare (Some dist) melodySlotFrame audioStore).
  split; [exact G |].
  destruct (scheduler_lookahead sinAtZero cosAtZero sqrtOfSquare 8 melodySlotFrame
                                audioStore _ G) as (HR & _ & HM & _).
  split.
  - apply HR. split; [reflexivity |]. split; [reflexivity |].
    split; [discriminate | reflexivity].
  - intros t H. apply HM in H. destruct H as (_ & _ & _ & D & _).
    destruct (frame_audio sinAtZero cosAtZero sqrtOfSquare (Some dist) melodySlotFrame
                          audioStore) as (inputs & ce & EA & _).
    rewrite EA in D. revert D. unfold audioUpdate.
    assert (R : audioRunning (session audioStore) (audio audioStore) = true)
      by reflexivity.
    rewrite R. cbn [fst schedule liveAudioStateRef liveFromAccumulators melodyDensity].
    assert (M : routedAccumulators (soundConfig (session audioStore)) inputs
                                   melody_density = 0.4) by reflexivity.
    rewrite M. vm_compute. discriminate.
Defined.

(** C7 as the specification states it fails, in two ways.  In the first
    frame at audio time 2 of the default session the melody is enabled, its
    graph exists and the audio clock has reached its next event time, and
    yet the frame fires no melody note: the draw 0.9 is not below the
    density 0.4.  In a session other than '1' whose audio graph was built
    from the sound panel, the rhythm is enabled, its bus exists and the
    clock is within the lookahead, and yet the frame fires nothing: its
    audio block does not run. *)
Lemma scheduler_lookahead_counterexample :
  (melodyPlays (session audioStore) (audio audioStore) = true
   /\ nextMelodyTimeRef (audio audioStore) - 0.1 <= audioNow melodySlotFrame
   /\ exists r,
       gameLoop sinAtZero cosAtZero sqrtOfSquare 8 melodySlotFrame audioStore = Some r
       /\ forall t, ~ In (GenerativeNote t) (snd r))
  /\ (rhythmPlays (session storeLocalFileAudio) (audio storeLocalFileAudio) = true
      /\ nextRhythmTimeRef (audio storeLocalFileAudio) - 0.1 <= audioNow melodySlotFrame
      /\ exists st',
          gameLoop sinAtZero cosAtZero sqrtOfSquare 8 melodySlotFrame storeLocalFileAudio
          = Some (st', [])).
Proof.
  split.
  - split; [reflexivity |]. split; [discriminate |].
    destruct (frameDistance_default_scale sinAtZero cosAtZero melodySlotFrame audioStore)
      as [dist F]; [reflexivity | reflexivity |].
    exists (frame sinAtZero cosAtZero sqrtOfSquare (Some dist) melodySlotFrame audioStore).
    split; [apply gameLoop_frame; exact F |].
    intros t H.
    destruct (frame_fires sinAtZero cosAtZero sqrtOfSquare (Some dist) melodySlotFrame
                          audioStore) as (_ & _ & HM).
    apply HM in H. destruct H as (_ & _ & _ & D & _).
    destruct (frame_audio sinAtZero cosAtZero sqrtOfSquare (Some dist) melodySlotFrame
                          audioStore) as (inputs & ce & EA & _).
    rewrite EA in D. revert D. unfold audioUpdate.
    assert (R : audioRunning (session audioStore) (audio audioStore) = true)
      by reflexivity.
    rewrite R. cbn [fst schedule liveAudioStateRef liveFromAccumulators melodyDensity].
    assert (M : routedAccumulators (soundConfig (session audioStore)) inputs
                                   melody_density = 0.4) by reflexivity.
    rewrite M. vm_compute. discriminate.
  - split; [reflexivity |]. split; [discriminate |].
    assert (F : frameDistance sinAtZero cosAtZero 8 melodySlotFrame storeLocalFileAudio
                = Some None) by reflexivity.
    exists (fst (frame sinAtZero cosAtZero sqrtOfSquare None melodySlotFrame
                       storeLocalFileAudio)).
    rewrite (gameLoop_frame _ _ sqrtOfSquare _ _ _ _ F). reflexivity.
Qed.

(** ** C8 and C9: session load and save *)

(** C8 (amended).  When a loaded session state omits optional fields, each
    falls back to its default: collisionThresholdRed to 0.002,
    collisionThresholdYellow to 0.02, the other top-level fields to the
    defaults of [applySessionState], a missing sound config to the default
    sound config, a missing ship modulation list to the empty list.  A
    sound config without a modulations field yields the modulation list of
    the default sound config (its six modulations), not an error, and a
    modulations field that is present, also an empty one, is kept. *)
Theorem load_defaults (sessionState : SessionState) (st : Store) :
  let s := session (applySessionState sessionState st) in
  (ss_collisionThresholdRed sessionState = None -> collisionThresholdRed s = 0.002)
  /\ (ss_collisionThresholdYellow sessionState = None ->
      collisionThresholdYellow s = 0.02)
  /\ (optChain (ss_soundConfig sessionState) l_modulations = None ->
      sound_modulations (soundConfig s) = sound_modulations defaultSoundConfig)
  /\ (forall l, optChain (ss_soundConfig sessionState) l_modulations = Some l ->
                sound_modulations (soundConfig s) = l)
  /\ (ss_soundConfig sessionState = None -> soundConfig s = defaultSoundConfig)
  /\ (ss_shipConfig sessionState = None -> shipConfig s = defaultShipConfig)
  /\ (optChain (ss_shipConfig sessionState) ship_modulations = None ->
      ship_modulations (shipConfig s) = Some [])
  /\ (ss_sessionId sessionState = None -> currentSessionId s = "local-file")
  /\ (ss_shaderCode sessionState = None -> activeShaderCode s = "")
  /\ (ss_sliders sessionState = None -> sliders s = [])
  /\ (ss_uniforms sessionState = None -> uniforms s = [])
  /\ (ss_cameraControlsEnabled sessionState = None -> cameraControlsEnabled s = false)
  /\ (ss_terraformConfig sessionState = None ->
      terraformConfig s = Some (mkTerraform []))
  /\ (ss_canvasSize sessionState = None -> canvasSize s = "100%")
  /\ (ss_viewMode sessionState = None -> viewMode s = chase)
  /\ (ss_isHdEnabled sessionState = None -> isHdEnabled s = false)
  /\ (ss_isFpsEnabled sessionState = None -> isFpsEnabled s = false)
  /\ (ss_isHudEnabled sessionState = None -> isHudEnabled s = true).
Proof.
  cbn [applySessionState session collisionThresholdRed collisionThresholdYellow
       soundConfig shipConfig currentSessionId activeShaderCode sliders uniforms
       cameraControlsEnabled terraformConfig canvasSize viewMode isHdEnabled
       isFpsEnabled isHudEnabled].
  repeat split; try (intros H; rewrite H; reflexivity).
  - intros H. unfold mergedSoundConfig. cbn [sound_modulations]. rewrite H. reflexivity.
  - intros l H. unfold mergedSoundConfig. cbn [sound_modulations]. rewrite H.
    reflexivity.
  - intros H. unfold loadedShipConfig.
    destruct (ss_shipConfig sessionState) as [ship |]; [| reflexivity].
    cbn in H. cbn. rewrite H. reflexivity.
Qed.

(** The session file [sessionWithoutModulations] meets the hypotheses of
    C8 on the thresholds and on the modulation list. *)
Lemma load_defaults_witness :
  collisionThresholdRed (session (applySessionState sessionWithoutModulations initialStore))
  = 0.002
  /\ collisionThresholdYellow
       (session (applySessionState sessionWithoutModulations initialStore)) = 0.02
  /\ sound_modulations
       (soundConfig (session (applySessionState sessionWithoutModulations initialStore)))
     = sound_modulations defaultSoundConfig.
Proof.
  destruct (load_defaults sessionWithoutModulations initialStore)
    as (H1 & H2 & H3 & _).
  split; [apply H1; reflexivity |].
  split; [apply H2; reflexivity |].
  apply H3. reflexivity.
Defined.

(** C8 as the specification states it fails: a sound config without a
    modulations field does not load as the empty list, it loads as the six
    default modulations. *)
Lemma load_defaults_counterexample :
  l_modulations soundWithoutModulations = None
  /\ sound_modulations
       (soundConfig (session (applySessionState sessionWithoutModulations initialStore)))
     <> []
  /\ map mod_id
         (sound_modulations
            (soundConfig
               (session (applySessionState sessionWithoutModulations initialStore))))
     = ["1"; "5"; "6"; "new1"; "new2"; "new3"].
Proof.
  split; [reflexivity |]. split; [discriminate | reflexivity].
Qed.

Lemma mergedSoundConfig_stored (c : SoundConfig) :
  mergedSoundConfig (Some (storedSoundConfig c)) = c.
Proof.
  destruct c as [en vol [] [] [] [] [] [] mods]. reflexivity.
Qed.

(** C9. For every store, and so for every sound config whose modulation
    list is not empty, loading the snapshot of [getSessionState] with
    [applySessionState] gives back the sound config: the same modulation
    list, hence the same {source, target, amount, enabled} tuples, in the
    same order. *)
Theorem session_roundtrip_modulations (st target : Store) :
  soundConfig (session (applySessionState (getSessionState st) target))
  = soundConfig (session st)
  /\ sound_modulations
       (soundConfig (session (applySessionState (getSessionState st) target)))
     = sound_modulations (soundConfig (session st))
  /\ map modulationTuple
         (sound_modulations
            (soundConfig (session (applySessionState (getSessionState st) target))))
     = map modulationTuple (sound_modulations (soundConfig (session st))).
Proof.
  assert (E : soundConfig (session (applySessionState (getSessionState st) target))
              = soundConfig (session st)).
  { cbn [applySessionState getSessionState session soundConfig ss_soundConfig].
    apply mergedSoundConfig_stored. }
  rewrite E. repeat split.
Qed.

(** A round trip of a sound config with three custom modulations. *)
Example roundtrip_three_modulations :
  map modulationTuple
      (sound_modulations
         (soundConfig
            (session
               (applySessionState
                  (getSessionState
                     (storeAt INITIAL_CAMERA_POS
                              (withModulations defaultSoundConfig threeModulations) []))
                  initialStore))))
  = [ (turning, reverb_mix, 0.25, true);
      (proximity, rhythm_bpm, -0.5, false);
      (heading, melody_density, 1, true) ].
Proof. reflexivity. Qed.

(** ** C10: the intervals of the schedulers *)

(** The clamps of the live state. *)
Lemma liveFromAccumulators_bounds (acc : ModulationTarget -> Q) :
  let live := liveFromAccumulators acc in
  30 <= rhythmBpm live <= 300
  /\ 0.1 <= arpSpeed live <= 5.0
  /\ 1 <= arpOctaves live <= 5
  /\ 0 <= melodyDensity live <= 1.
Proof.
  unfold liveFromAccumulators.
  cbn [rhythmBpm arpSpeed arpOctaves melodyDensity].
  pose proof (JSFacts.clamp_bounds 30 300 (acc rhythm_bpm)) as B1.
  pose proof (JSFacts.clamp_bounds 0.1 5.0 (acc arp_speed)) as B2.
  pose proof (JSFacts.clamp_bounds 1 5 (acc arp_octaves)) as B3.
  pose proof (JSFacts.clamp_bounds 0.0 1.0 (acc melody_density)) as B4.
  repeat split; lra.
Qed.

(** The three intervals of a clamped live state. *)
Lemma intervals_bounds (live : LiveAudioState) :
  30 <= rhythmBpm live <= 300 ->
  0.1 <= arpSpeed live <= 5.0 ->
  0.2 <= rhythmInterval live <= 2
  /\ 0.01 <= arpInterval live <= 5
  /\ (forall inp, 0 <= random_melodyInterval inp < 1 ->
                  0.8 <= melodyInterval inp live < 16).
Proof.
  intros [B1 B2] [S1 S2].
  assert (R : 0.2 <= 60 / rhythmBpm live <= 2).
  { split.
    - apply Qle_shift_div_l; lra.
    - apply Qle_shift_div_r; lra. }
  split; [exact R |]. split.
  - unfold arpInterval. split.
    + apply Qle_shift_div_l; lra.
    + apply Qle_shift_div_r; lra.
  - intros inp [D1 D2]. unfold melodyInterval.
    set (x := 60 / rhythmBpm live) in *.
    set (z := random_melodyInterval inp * 4 + 4).
    assert (Z1 : 4 <= z) by (unfold z; lra).
    assert (Z2 : z < 8) by (unfold z; lra).
    split.
    + apply Qle_trans with (0.2 * z); [lra |].
      apply Qmult_le_compat_r; lra.
    + apply Qle_lt_trans with (2 * z); [| lra].
      apply Qmult_le_compat_r; lra.
Qed.

(** The audio block schedules with the live state that it has just
    clamped from the routed accumulators of the frame. *)
Lemma audioUpdate_running (inp : FrameInput) (s : Session)
      (inputs : ModulationSource -> Q) (a : Audio) :
  audioRunning s a = true ->
  let live := liveFromAccumulators (routedAccumulators (soundConfig s) inputs) in
  let a' := fst (audioUpdate inp s inputs a) in
  liveAudioStateRef a' = live
  /\ (nextRhythmTimeRef a' = nextRhythmTimeRef a
      \/ nextRhythmTimeRef a' = nextRhythmTimeRef a + rhythmInterval live)
  /\ (nextArpTimeRef a' = nextArpTimeRef a
      \/ nextArpTimeRef a' = nextArpTimeRef a + arpInterval live)
  /\ (nextMelodyTimeRef a' = nextMelodyTimeRef a
      \/ nextMelodyTimeRef a' = nextMelodyTimeRef a + melodyInterval inp live).
Proof.
  intro H. unfold audioUpdate. rewrite H. unfold schedule.
  cbn [fst liveAudioStateRef nextRhythmTimeRef nextArpTimeRef nextMelodyTimeRef].
  repeat split.
  - destruct (rhythmDue _ _ _); [right | left]; reflexivity.
  - destruct (arpDue _ _ _); [right | left]; reflexivity.
  - destruct (melodyDue _ _ _); [right | left]; reflexivity.
Qed.

(** Over the rationals, where every accumulator is a finite number: in
    every frame whose audio block runs, whatever the sound config, its
    modulations and the telemetry, the live state that the schedulers read
    is clamped from the routed accumulators of the frame (BPM into
    [30, 300], arp speed into [0.1, 5.0], arp octaves into [1, 5], melody
    density into [0, 1]) before any interval is computed, each next event
    time is left as it is or moved on by its interval, and the intervals are
    positive and bounded: 60/bpm in [0.2, 2], (60/bpm)/(arpSpeed*4) in
    [0.01, 5], and the melody cadence (60/bpm)*(4r + 4), for a draw r in
    [0, 1), in [0.8, 16). *)
Lemma scheduler_intervals_safe (inp : FrameInput) (s : Session)
      (inputs : ModulationSource -> Q) (a : Audio) :
  audioRunning s a = true ->
  0 <= random_melodyInterval inp < 1 ->
  let a' := fst (audioUpdate inp s inputs a) in
  let live := liveAudioStateRef a' in
  let routed := routedAccumulators (soundConfig s) inputs in
  (rhythmBpm live = JS.Math_max 30 (JS.Math_min 300 (routed rhythm_bpm))
   /\ arpSpeed live = JS.Math_max 0.1 (JS.Math_min 5.0 (routed arp_speed))
   /\ arpOctaves live = JS.Math_max 1 (JS.Math_min 5 (routed arp_octaves))
   /\ melodyDensity live = JS.Math_max 0.0 (JS.Math_min 1.0 (routed melody_density)))
  /\ (30 <= rhythmBpm live <= 300
      /\ 0.1 <= arpSpeed live <= 5.0
      /\ 1 <= arpOctaves live <= 5
      /\ 0 <= melodyDensity live <= 1)
  /\ (0.2 <= rhythmInterval live <= 2
      /\ 0.01 <= arpInterval live <= 5
      /\ 0.8 <= melodyInterval inp live < 16)
  /\ (0 < rhythmBpm live /\ 0 < arpSpeed live * 4)
  /\ (nextRhythmTimeRef a' = nextRhythmTimeRef a
      \/ nextRhythmTimeRef a' = nextRhythmTimeRef a + rhythmInterval live)
  /\ (nextArpTimeRef a' = nextArpTimeRef a
      \/ nextArpTimeRef a' = nextArpTimeRef a + arpInterval live)
  /\ (nextMelodyTimeRef a' = nextMelodyTimeRef a
      \/ nextMelodyTimeRef a' = nextMelodyTimeRef a + melodyInterval inp live).
Proof.
  intros Hrun Hrnd a' live routed.
  destruct (audioUpdate_running inp s inputs a Hrun) as (E & N1 & N2 & N3).
  fold a' in E, N1, N2, N3. fold live in E.
  pose proof (liveFromAccumulators_bounds
                (routedAccumulators (soundConfig s) inputs)) as B.
  cbv zeta in B. rewrite <- E in B, N1, N2, N3.
  destruct B as (B1 & B2 & B3 & B4).
  destruct (intervals_bounds live B1 B2) as (I1 & I2 & I3).
  split; [rewrite E; repeat split |].
  split; [repeat split; first [apply B1 | apply B2 | apply B3 | apply B4] |].
  split; [split; [exact I1 | split; [exact I2 | apply I3; exact Hrnd]] |].
  split; [split; lra |].
  split; [exact N1 |]. split; [exact N2 | exact N3].
Qed.

(** The first frame after the audio graph of the default session is built
    meets the hypotheses. *)
Lemma scheduler_intervals_safe_example :
  rhythmInterval
    (liveAudioStateRef
       (fst (audioUpdate melodySlotFrame (session audioStore) (fun _ => 0)
                         (audio audioStore)))) == 1
  /\ 0.2 <= rhythmInterval
              (liveAudioStateRef
                 (fst (audioUpdate melodySlotFrame (session audioStore) (fun _ => 0)
                                   (audio audioStore)))) <= 2.
Proof.
  destruct (scheduler_intervals_safe melodySlotFrame (session audioStore) (fun _ => 0)
                                     (audio audioStore))
    as (_ & _ & (I & _) & _).
  - reflexivity.
  - split; [discriminate | reflexivity].
  - split; [vm_compute; reflexivity | exact I].
Qed.



(** * Further properties of the game loop *)

(** A frame that returns is the frame of its distance. *)
Lemma gameLoop_inv (Math_sin Math_cos Math_sqrt : Q -> Q)
      (fuel : nat) (inp : FrameInput) (st : Store) (r : Store * list AudioEvent) :
  gameLoop Math_sin Math_cos Math_sqrt fuel inp st = Some r ->
  exists distance,
    frameDistance Math_sin Math_cos fuel inp st = Some distance
    /\ r = frame Math_sin Math_cos Math_sqrt distance inp st.
Proof.
  unfold gameLoop. destruct (frameDistance Math_sin Math_cos fuel inp st) as [d |].
  - intro H. injection H as <-. exists d. split; reflexivity.
  - discriminate.
Qed.

(** The frame of an example returns once its distance is known. *)
Lemma frameResult_runs (fuel : nat) (inp : FrameInput) (st : Store) :
  frameDistance sinAtZero cosAtZero fuel inp st <> None ->
  gameLoop sinAtZero cosAtZero sqrtOfSquare fuel inp st
  = Some (frameResult fuel inp st).
Proof.
  intro H. unfold frameResult, gameLoop.
  destruct (frameDistance sinAtZero cosAtZero fuel inp st); [reflexivity |].
  contradiction.
Qed.

(** ** The distance function *)

(** One iteration of the loop: the running distance becomes the maximum
    of itself and a number, and the counter is multiplied by the scale. *)
Lemma planet1Loop_step (Math_sin Math_cos : Q -> Q) (rot pulse scale t : Q)
      (fuel : nat) (temp_q : vec3) (d i : Q) :
  exists temp_q' m,
    planet1Loop Math_sin Math_cos (S fuel) rot pulse scale t temp_q d i
    = if JS.gt i 0.05
      then planet1Loop Math_sin Math_cos fuel rot pulse scale t temp_q'
                       (JS.Math_max d m) (i * scale)
      else Some d.
Proof. eexists. eexists. reflexivity. Qed.

Lemma planet1Loop_zero (Math_sin Math_cos : Q -> Q) (rot pulse scale t : Q)
      (temp_q : vec3) (d i : Q) :
  planet1Loop Math_sin Math_cos 0 rot pulse scale t temp_q d i
  = if JS.gt i 0.05 then None else Some d.
Proof. reflexivity. Qed.

(** The loop only raises the running distance. *)
Lemma planet1Loop_lower (Math_sin Math_cos : Q -> Q) (rot pulse scale t : Q) :
  forall (fuel : nat) (temp_q : vec3) (d i dist : Q),
    planet1Loop Math_sin Math_cos fuel rot pulse scale t temp_q d i = Some dist ->
    d <= dist.
Proof.
  induction fuel as [| fuel IH]; intros temp_q d i dist H.
  - rewrite planet1Loop_zero in H.
    destruct (JS.gt i 0.05); [discriminate |]. injection H as <-. apply Qle_refl.
  - destruct (planet1Loop_step Math_sin Math_cos rot pulse scale t fuel temp_q d i)
      as (q' & m & E).
    rewrite E in H. destruct (JS.gt i 0.05).
    + apply IH in H. eapply Qle_trans; [| exact H]. apply JSFacts.max_l.
    + injection H as <-. apply Qle_refl.
Qed.

(** With a scale of 1 or more the counter of the loop never falls. *)
Lemma planet1Loop_never_ends (Math_sin Math_cos : Q -> Q) (rot pulse scale t : Q) :
  1 <= scale ->
  forall (fuel : nat) (temp_q : vec3) (d i : Q),
    0.05 < i ->
    planet1Loop Math_sin Math_cos fuel rot pulse scale t temp_q d i = None.
Proof.
  intro Hs. induction fuel as [| fuel IH]; intros temp_q d i Hi.
  - rewrite planet1Loop_zero. apply JSFacts.gt_true in Hi. rewrite Hi. reflexivity.
  - destruct (planet1Loop_step Math_sin Math_cos rot pulse scale t fuel temp_q d i)
      as (q' & m & E).
    rewrite E. pose proof Hi as G. apply JSFacts.gt_true in G. rewrite G.
    apply IH.
    assert (M : i * 1 <= i * scale) by (apply Qmult_le_l; lra).
    lra.
Qed.

(** A smaller scale and a smaller counter end the loop no later. *)
Lemma loopEnds_mono (scale scale' : Q) :
  0 <= scale' -> scale' <= scale ->
  forall (fuel : nat) (i i' : Q),
    i' <= i -> loopEnds fuel scale i = true -> loopEnds fuel scale' i' = true.
Proof.
  intros H0 Hs. induction fuel as [| fuel IH]; intros i i' Hi H; simpl in *.
  - destruct (JS.gt i' 0.05) eqn:G'; [| reflexivity].
    apply JSFacts.gt_true in G'.
    assert (G : JS.gt i 0.05 = true) by (apply JSFacts.gt_true; lra).
    rewrite G in H. discriminate.
  - destruct (JS.gt i' 0.05) eqn:G'; [| reflexivity].
    apply JSFacts.gt_true in G'.
    assert (G : JS.gt i 0.05 = true) by (apply JSFacts.gt_true; lra).
    rewrite G in H. apply (IH (i * scale)); [| exact H].
    apply Qle_trans with (i' * scale).
    + apply Qmult_le_l; lra.
    + apply Qmult_le_compat_r; lra.
Qed.

Lemma loopEnds_scale_bound (scale : Q) : scale <= 0.9 -> loopEnds 67 scale 58.0 = true.
Proof.
  intro H. destruct (Qlt_le_dec scale 0) as [N | N].
  - cbn [loopEnds].
    assert (G : JS.gt 58.0 0.05 = true) by reflexivity. rewrite G.
    assert (E : JS.gt (58.0 * scale) 0.05 = false).
    { unfold JS.gt. apply JSFacts.lt_false.
      assert (58.0 * scale <= 58.0 * 0) by (apply Qmult_le_l; lra). lra. }
    rewrite E. reflexivity.
  - apply (loopEnds_mono 0.9 scale N H 67 58.0 58.0); [apply Qle_refl |].
    vm_compute. reflexivity.
Qed.

(** More fuel does not keep the loop from ending. *)
Lemma loopEnds_more_fuel (scale : Q) :
  forall (fuel fuel' : nat) (i : Q),
    (fuel <= fuel')%nat -> loopEnds fuel scale i = true -> loopEnds fuel' scale i = true.
Proof.
  induction fuel as [| fuel IH]; intros fuel' i L H.
  - simpl in H. destruct fuel'; simpl; destruct (JS.gt i 0.05);
      first [discriminate | reflexivity].
  - destruct fuel' as [| fuel']; [lia |]. simpl in *.
    destruct (JS.gt i 0.05); [| reflexivity].
    apply IH; [lia | exact H].
Qed.

(** X1. The distance that [getPlanet1Distance] returns is never below the
    negated height of the probed point.  So a frame of session '1' whose
    fractal scale is at most 0.9 and whose proposed position lies at or
    below the height [- red] never collides: the distance loop ends within
    67 iterations, the frame returns, its state is not 'colliding' and it
    commits the proposed position. *)
Theorem no_collision_below_plane (Math_sin Math_cos Math_sqrt : Q -> Q)
        (inp : FrameInput) (st : Store) :
  let proposed :=
    proposedPosition Math_sin Math_cos inp (controlConfig (session st)) (physics st) in
  (forall fuel p_vec u t dist,
      getPlanet1Distance Math_sin Math_cos fuel p_vec u t = Some dist ->
      - at1 p_vec <= dist)
  /\ (currentSessionId (session st) = "1" ->
      JS.nullish (lookup "slider_fractalScale" (uniforms (session st))) 0.37 <= 0.9 ->
      collisionThresholdRed (session st) <= - at1 proposed ->
      forall fuel, (67 <= fuel)%nat ->
      exists r,
        gameLoop Math_sin Math_cos Math_sqrt fuel inp st = Some r
        /\ collisionStateRef (collision (fst r)) <> colliding
        /\ position (cameraRef (physics (fst r))) = proposed).
Proof.
  intro proposed.
  assert (L : forall fuel p_vec u t dist,
             getPlanet1Distance Math_sin Math_cos fuel p_vec u t = Some dist ->
             - at1 p_vec <= dist).
  { intros fuel p_vec u t dist Hd. unfold getPlanet1Distance in Hd.
    apply planet1Loop_lower in Hd. exact Hd. }
  split; [exact L |].
  intros Hs Hscale Hred fuel Hfuel.
  destruct (planet1Loop_ends Math_sin Math_cos
              (JS.nullish (lookup "slider_fractalRotation" (uniforms (session st))) 1.09)
              (JS.nullish (lookup "slider_fractalPulseStrength" (uniforms (session st))) 0.0)
              (JS.nullish (lookup "slider_fractalScale" (uniforms (session st))) 0.37)
              (accumulatedTimeRef (physics st) + frameDt inp (physics st))
              fuel proposed (- at1 proposed) 58.0) as [dist Hd].
  { apply (loopEnds_more_fuel _ 67 fuel); [exact Hfuel |].
    apply loopEnds_scale_bound. exact Hscale. }
  fold (getPlanet1Distance Math_sin Math_cos fuel proposed (uniforms (session st))
          (accumulatedTimeRef (physics st) + frameDt inp (physics st))) in Hd.
  pose proof (L _ _ _ _ _ Hd) as Ld.
  pose proof (frameDistance_session1 Math_sin Math_cos fuel inp st dist Hs Hd) as Hf.
  exists (frame Math_sin Math_cos Math_sqrt (Some dist) inp st).
  split; [apply gameLoop_frame; exact Hf |].
  assert (N : JS.lt dist (collisionThresholdRed (session st)) = false)
    by (apply JSFacts.lt_false; lra).
  unfold frame.
  cbn [fst physics collision cameraRef position collisionStateRef].
  unfold classify. rewrite N.
  destruct (JS.lt dist (collisionThresholdYellow (session st))); cbn;
    split; (discriminate || reflexivity).
Qed.

(** The camera at rest at the start position meets the hypotheses of X1. *)
Lemma no_collision_below_plane_witness :
  exists r,
    gameLoop sinAtZero cosAtZero sqrtOfSquare 67 restInput storeAtRest = Some r
    /\ collisionStateRef (collision (fst r)) <> colliding
    /\ position (cameraRef (physics (fst r)))
       = proposedPosition sinAtZero cosAtZero restInput
                          (controlConfig (session storeAtRest)) (physics storeAtRest).
Proof.
  destruct (no_collision_below_plane sinAtZero cosAtZero sqrtOfSquare restInput storeAtRest)
    as [_ H].
  apply (H eq_refl); [vm_compute; discriminate | vm_compute; discriminate | lia].
Defined.

(** X2. The loop of [getPlanet1Distance] multiplies its counter by the
    uniform slider_fractalScale (0.37 when the uniform is missing).  With a
    scale of at most 0.9 it ends within 67 iterations, whatever the point
    and the other uniforms; with a scale of 1 or more it never ends, and a
    frame of session '1' then never returns. *)
Theorem distance_loop_termination (Math_sin Math_cos Math_sqrt : Q -> Q)
        (u : Uniforms) :
  (JS.nullish (lookup "slider_fractalScale" u) 0.37 <= 0.9 ->
   forall p_vec t,
   exists dist, getPlanet1Distance Math_sin Math_cos 67 p_vec u t = Some dist)
  /\ (1 <= JS.nullish (lookup "slider_fractalScale" u) 0.37 ->
      (forall fuel p_vec t, getPlanet1Distance Math_sin Math_cos fuel p_vec u t = None)
      /\ (forall fuel inp st,
             currentSessionId (session st) = "1" ->
             uniforms (session st) = u ->
             gameLoop Math_sin Math_cos Math_sqrt fuel inp st = None)).
Proof.
  split.
  - intros H p_vec t. unfold getPlanet1Distance.
    apply planet1Loop_ends. apply loopEnds_scale_bound. exact H.
  - intro H.
    assert (N : forall fuel p_vec t,
               getPlanet1Distance Math_sin Math_cos fuel p_vec u t = None).
    { intros fuel p_vec t. unfold getPlanet1Distance.
      apply planet1Loop_never_ends; [exact H | reflexivity]. }
    split; [exact N |].
    intros fuel inp st Hs Hu. unfold gameLoop, frameDistance.
    rewrite Hs, Hu, N. reflexivity.
Qed.

(** The two hypotheses of X2: the default scale, and a scale of 1. *)
Lemma distance_loop_termination_witness :
  (exists dist,
      getPlanet1Distance sinAtZero cosAtZero 67 INITIAL_CAMERA_POS [] 0 = Some dist)
  /\ gameLoop sinAtZero cosAtZero sqrtOfSquare 1000 restInput storeScaleOne = None.
Proof.
  split.
  - apply (distance_loop_termination sinAtZero cosAtZero sqrtOfSquare []).
    vm_compute. discriminate.
  - apply (distance_loop_termination sinAtZero cosAtZero sqrtOfSquare
             [("slider_fractalScale", 1)]).
    + vm_compute. discriminate.
    + reflexivity.
    + reflexivity.
Defined.

(** ** Bounds that every frame keeps *)

Lemma frameDt_bounds (inp : FrameInput) (ph : Physics) :
  frameDt inp ph <= 0.1
  /\ (lastTime ph <= timestamp inp -> 0 <= frameDt inp ph).
Proof.
  unfold frameDt. split; [apply JSFacts.min_r |].
  intro H. apply JSFacts.min_glb; [| discriminate].
  apply JSFacts.div_nonneg; [reflexivity |].
  destruct (Qeq_bool (lastTime ph) 0); lra.
Qed.

Lemma frame_pitch (Math_sin Math_cos Math_sqrt : Q -> Q)
      (distance : option Q) (inp : FrameInput) (st : Store) :
  audioInputsRef (audio (fst (frame Math_sin Math_cos Math_sqrt distance inp st))) pitch
  = - fst (rotationStep inp (controlConfig (session st)) (physics st)) / 1.57.
Proof.
  unfold frame. cbn [fst audio]. rewrite audioUpdate_inputs. reflexivity.
Qed.

(** X3. After every frame that returns, the pitch of the camera lies in
    [-1.57, 1.57] and the 'pitch' source of the telemetry in [-1, 1]; the
    accumulated time has grown by at most 0.1 s, and it has not fallen when
    the timestamp is not before the last one. *)
Theorem frame_bounds (Math_sin Math_cos Math_sqrt : Q -> Q)
        (fuel : nat) (inp : FrameInput) (st : Store) (r : Store * list AudioEvent) :
  gameLoop Math_sin Math_cos Math_sqrt fuel inp st = Some r ->
  (-1.57 <= fst (rotation (cameraRef (physics (fst r)))) <= 1.57)
  /\ (-1 <= audioInputsRef (audio (fst r)) pitch <= 1)
  /\ accumulatedTimeRef (physics (fst r)) - accumulatedTimeRef (physics st) <= 0.1
  /\ (lastTime (physics st) <= timestamp inp ->
      accumulatedTimeRef (physics st) <= accumulatedTimeRef (physics (fst r)))
  /\ lastTime (physics (fst r)) = timestamp inp.
Proof.
  intro H. destruct (gameLoop_inv _ _ _ _ _ _ _ H) as (distance & _ & ->).
  assert (P : -1.57 <= fst (rotationStep inp (controlConfig (session st)) (physics st))
              <= 1.57).
  { unfold rotationStep. cbn [fst]. apply JSFacts.clamp_bounds. discriminate. }
  destruct (frameDt_bounds inp (physics st)) as [D1 D2].
  split; [exact P |]. split.
  - rewrite frame_pitch. split.
    + apply Qle_shift_div_l; [reflexivity | lra].
    + apply Qle_shift_div_r; [reflexivity | lra].
  - unfold frame. cbn [fst physics accumulatedTimeRef lastTime].
    split; [lra |]. split; [| reflexivity].
    intro L. specialize (D2 L). lra.
Qed.

(** The frame of the camera at rest meets the hypothesis of X3. *)
Lemma frame_bounds_witness :
  -1.57 <= fst (rotation (cameraRef (physics (fst (frameResult 8 restInput storeAtRest)))))
  <= 1.57.
Proof.
  apply (frame_bounds sinAtZero cosAtZero sqrtOfSquare 8 restInput storeAtRest
                      (frameResult 8 restInput storeAtRest)).
  apply frameResult_runs. vm_compute. discriminate.
Defined.

(** ** Sessions without a distance function *)

(** X4. In a session other than '1' a frame never evaluates the distance
    function: it returns whatever the fuel, the collision state is 'none'
    with proximity 0, the proposed position is committed with the smoothed
    velocity, no audio event is fired and the schedulers and the arpeggio
    are left as they are. *)
Theorem other_session_frame (Math_sin Math_cos Math_sqrt : Q -> Q)
        (fuel : nat) (inp : FrameInput) (st : Store) :
  currentSessionId (session st) <> "1" ->
  exists st',
    gameLoop Math_sin Math_cos Math_sqrt fuel inp st = Some (st', [])
    /\ collisionStateRef (collision st') = none
    /\ collisionProximityRef (collision st') = 0
    /\ position (cameraRef (physics st'))
       = proposedPosition Math_sin Math_cos inp (controlConfig (session st)) (physics st)
    /\ cameraVelocityRef (physics st')
       = steppedVelocity Math_sin Math_cos inp (controlConfig (session st)) (physics st)
    /\ nextMelodyTimeRef (audio st') = nextMelodyTimeRef (audio st)
    /\ nextArpTimeRef (audio st') = nextArpTimeRef (audio st)
    /\ nextRhythmTimeRef (audio st') = nextRhythmTimeRef (audio st)
    /\ arpNoteIndexRef (audio st') = arpNoteIndexRef (audio st)
    /\ audioTargetAccumulatorsRef (audio st') = audioTargetAccumulatorsRef (audio st).
Proof.
  intro Hs. apply String.eqb_neq in Hs.
  assert (F : frameDistance Math_sin Math_cos fuel inp st = Some None)
    by (unfold frameDistance; rewrite Hs; reflexivity).
  exists (fst (frame Math_sin Math_cos Math_sqrt None inp st)).
  assert (A : audioRunning (session st) (audio st) = false)
    by (unfold audioRunning; rewrite Hs; reflexivity).
  split.
  - rewrite (gameLoop_frame _ _ Math_sqrt _ _ _ _ F). f_equal.
    unfold frame, audioUpdate. rewrite A. reflexivity.
  - unfold frame, audioUpdate. rewrite A.
    cbn [fst snd physics collision audio cameraRef position cameraVelocityRef
         collisionStateRef collisionProximityRef nextMelodyTimeRef nextArpTimeRef
         nextRhythmTimeRef arpNoteIndexRef audioTargetAccumulatorsRef].
    repeat split.
    destruct (JS.gt _ _); reflexivity.
Qed.

(** A session loaded from a local file without an id meets the hypothesis
    of X4. *)
Lemma other_session_frame_witness :
  exists st',
    gameLoop sinAtZero cosAtZero sqrtOfSquare 0 restInput storeLocalFile = Some (st', [])
    /\ collisionStateRef (collision st') = none.
Proof.
  destruct (other_session_frame sinAtZero cosAtZero sqrtOfSquare 0 restInput storeLocalFile)
    as (st' & H1 & H2 & _).
  - discriminate.
  - exists st'. split; assumption.
Defined.

(** ** The collision sound *)

Lemma schedule_no_collision_sound (inp : FrameInput) (s : Session) (a : Audio) :
  ~ In CollisionSound (snd (schedule inp s a)).
Proof.
  unfold schedule. cbn [snd].
  rewrite playRhythm_events, playGenerativeNote_events.
  pose proof (playArpNote_events (JS.Math_max (audioNow inp) (nextArpTimeRef a))
                                 (random_arp inp) s a) as PA.
  rewrite !in_app_iff. intros [H | [H | H]].
  - destruct (melodyDue inp s a); [| destruct H].
    destruct (JS.lt _ _); [| destruct H].
    destruct (melodyPlays s a); [| destruct H].
    destruct H as [H | []]. discriminate H.
  - destruct (arpDue inp s a); [| destruct H].
    destruct (arpPlays s a).
    + destruct PA as (i & m & PA). rewrite PA in H.
      destruct H as [H | []]. discriminate H.
    + rewrite PA in H. destruct H.
  - destruct (rhythmDue inp s a); [| destruct H].
    destruct (rhythmPlays s a); [| destruct H].
    destruct H as [H | []]. discriminate H.
Qed.

Lemma audioUpdate_no_collision_sound (inp : FrameInput) (s : Session)
      (inputs : ModulationSource -> Q) (a : Audio) :
  ~ In CollisionSound (snd (audioUpdate inp s inputs a)).
Proof.
  unfold audioUpdate. destruct (audioRunning s a).
  - apply schedule_no_collision_sound.
  - intros [].
Qed.

(** X5. The collision sound is edge-triggered with a cooldown: a frame
    fires it only when the frame collides, the state before the frame was
    not 'colliding', more than 500 ms have passed since the last trigger,
    sound is enabled and the audio graph exists; the frame then stores its
    timestamp as the new trigger time.  So a frame that starts in state
    'colliding' never fires it. *)
Theorem collision_sound_edge (Math_sin Math_cos Math_sqrt : Q -> Q)
        (fuel : nat) (inp : FrameInput) (st : Store) (r : Store * list AudioEvent) :
  gameLoop Math_sin Math_cos Math_sqrt fuel inp st = Some r ->
  (In CollisionSound (snd r) ->
   collisionStateRef (collision st) <> colliding
   /\ collisionStateRef (collision (fst r)) = colliding
   /\ 500 < timestamp inp - collisionCooldownRef (collision st)
   /\ collisionCooldownRef (collision (fst r)) = timestamp inp
   /\ sound_enabled (soundConfig (session st)) = true
   /\ audioNodesRef (audio st) <> None)
  /\ (collisionStateRef (collision st) = colliding -> ~ In CollisionSound (snd r)).
Proof.
  intro H. destruct (gameLoop_inv _ _ _ _ _ _ _ H) as (distance & _ & ->).
  assert (K : In CollisionSound
                 (snd (frame Math_sin Math_cos Math_sqrt distance inp st)) ->
              collisionStateRef (collision st) <> colliding
              /\ collisionStateRef
                   (collision (fst (frame Math_sin Math_cos Math_sqrt distance inp st)))
                 = colliding
              /\ 500 < timestamp inp - collisionCooldownRef (collision st)
              /\ collisionCooldownRef
                   (collision (fst (frame Math_sin Math_cos Math_sqrt distance inp st)))
                 = timestamp inp
              /\ sound_enabled (soundConfig (session st)) = true
              /\ audioNodesRef (audio st) <> None).
  { unfold frame.
    cbn [fst snd collision collisionStateRef collisionCooldownRef].
    rewrite in_app_iff. intros [I | I].
    - destruct (fst match distance with
                    | Some dist =>
                        classify (collisionThresholdRed (session st))
                                 (collisionThresholdYellow (session st)) dist
                    | None => (none, 0)
                    end) eqn:V; cbn [andb] in I; try destruct I.
      destruct (collisionStateRef (collision st)) eqn:C; cbn [andb] in I;
        try destruct I;
        (destruct (JS.gt (timestamp inp - collisionCooldownRef (collision st)) 500)
           eqn:G; cbn [andb] in I; [| destruct I]);
        (destruct (sound_enabled (soundConfig (session st))) eqn:E; [| destruct I]);
        apply JSFacts.gt_true in G;
        (repeat split; try discriminate; try assumption);
        unfold playCollisionSound in I;
        intro N; rewrite N in I; destruct I.
    - exfalso. exact (audioUpdate_no_collision_sound _ _ _ _ I). }
  split; [exact K |].
  intros C I. apply K in I. destruct I as [I _]. contradiction.
Qed.

(** The frame of the camera inside the surface, with the audio graph
    built, fires the collision sound. *)
Lemma collision_sound_edge_witness :
  collisionStateRef (collision (fst (frameResult 8 restInput storeInsideSurfaceAudio)))
  = colliding
  /\ collisionCooldownRef
       (collision (fst (frameResult 8 restInput storeInsideSurfaceAudio))) = 1000.
Proof.
  destruct (collision_sound_edge sinAtZero cosAtZero sqrtOfSquare 8 restInput
              storeInsideSurfaceAudio (frameResult 8 restInput storeInsideSurfaceAudio))
    as [K _].
  - apply frameResult_runs. vm_compute. discriminate.
  - destruct K as (_ & K1 & _ & K2 & _).
    + vm_compute. left. reflexivity.
    + split; assumption.
Defined.

(** ** Smoothing without input *)

Lemma axisInput_released (keys : list string) (a b : string) (inverted : option bool) :
  has keys a = false -> has keys b = false -> axisInput keys a b inverted == 0.
Proof.
  intros Ha Hb. unfold axisInput. rewrite Ha, Hb.
  destruct inverted as [[|] |]; reflexivity.
Qed.

Lemma steppedVelocity_released (Math_sin Math_cos : Q -> Q)
      (inp : FrameInput) (controls : ControlConfig) (ph : Physics) :
  movementKeyHeld (keys inp) = false ->
  let v := cameraVelocityRef ph in
  let v' := steppedVelocity Math_sin Math_cos inp controls ph in
  at0 v' == 0.9 * at0 v /\ at1 v' == 0.9 * at1 v /\ at2 v' == 0.9 * at2 v.
Proof.
  unfold movementKeyHeld. intro H.
  repeat (apply orb_false_iff in H; destruct H as [H ?]).
  pose proof (axisInput_released (keys inp) "w" "s" (invertForward controls)
                ltac:(assumption) ltac:(assumption)) as F.
  pose proof (axisInput_released (keys inp) "d" "a" (invertStrafe controls)
                ltac:(assumption) ltac:(assumption)) as S.
  pose proof (axisInput_released (keys inp) " " "shift" (invertAscend controls)
                ltac:(assumption) ltac:(assumption)) as A.
  unfold steppedVelocity. cbn [at0 at1 at2 fst snd].
  rewrite F, S, A. repeat split; ring.
Qed.

Lemma angularStep_released (inp : FrameInput) (controls : ControlConfig) (ph : Physics) :
  lookKeyHeld (keys inp) = false ->
  fst (angularStep inp controls ph) == 0.93 * fst (cameraAngularVelocityRef ph)
  /\ snd (angularStep inp controls ph) == 0.93 * snd (cameraAngularVelocityRef ph).
Proof.
  unfold lookKeyHeld. intro H.
  repeat (apply orb_false_iff in H; destruct H as [H ?]).
  pose proof (axisInput_released (keys inp) "arrowdown" "arrowup" (invertPitch controls)
                ltac:(assumption) ltac:(assumption)) as P.
  pose proof (axisInput_released (keys inp) "arrowright" "arrowleft" (invertYaw controls)
                ltac:(assumption) ltac:(assumption)) as Y.
  unfold angularStep. cbn [fst snd]. rewrite P, Y. split; ring.
Qed.

(** X6. When none of the six movement keys is held, a frame that does not
    collide multiplies each component of the camera velocity by 0.9,
    whatever the orientation of the camera and the velocity settings, and
    a frame that collides sets the velocity to 0.  When none of the four
    look keys is held, a frame multiplies both angular velocities by
    0.93. *)
Theorem released_keys_decay (Math_sin Math_cos Math_sqrt : Q -> Q)
        (fuel : nat) (inp : FrameInput) (st : Store) (r : Store * list AudioEvent) :
  gameLoop Math_sin Math_cos Math_sqrt fuel inp st = Some r ->
  (movementKeyHeld (keys inp) = false ->
   let v := cameraVelocityRef (physics st) in
   let v' := cameraVelocityRef (physics (fst r)) in
   (collisionStateRef (collision (fst r)) = colliding /\ v' = (0, 0, 0))
   \/ (collisionStateRef (collision (fst r)) <> colliding
       /\ at0 v' == 0.9 * at0 v /\ at1 v' == 0.9 * at1 v /\ at2 v' == 0.9 * at2 v))
  /\ (lookKeyHeld (keys inp) = false ->
      let w := cameraAngularVelocityRef (physics st) in
      let w' := cameraAngularVelocityRef (physics (fst r)) in
      fst w' == 0.93 * fst w /\ snd w' == 0.93 * snd w).
Proof.
  intro H. destruct (gameLoop_inv _ _ _ _ _ _ _ H) as (distance & _ & ->).
  split.
  - intros K v v'. subst v v'. unfold frame.
    cbn [fst physics collision cameraVelocityRef collisionStateRef].
    destruct (fst match distance with
                  | Some dist =>
                      classify (collisionThresholdRed (session st))
                               (collisionThresholdYellow (session st)) dist
                  | None => (none, 0)
                  end).
    + right. split; [discriminate |].
      apply (steppedVelocity_released Math_sin Math_cos inp _ (physics st) K).
    + right. split; [discriminate |].
      apply (steppedVelocity_released Math_sin Math_cos inp _ (physics st) K).
    + left. split; reflexivity.
  - intros K w w'. subst w w'. unfold frame. cbn [fst physics cameraAngularVelocityRef].
    apply angularStep_released. exact K.
Qed.

(** The frame of the camera at rest, with no key held, meets the
    hypotheses of X6. *)
Lemma released_keys_decay_witness :
  fst (cameraAngularVelocityRef (physics (fst (frameResult 8 restInput storeAtRest))))
  == 0.93 * fst (cameraAngularVelocityRef (physics storeAtRest)).
Proof.
  destruct (released_keys_decay sinAtZero cosAtZero sqrtOfSquare 8 restInput storeAtRest
                                (frameResult 8 restInput storeAtRest)) as [_ W].
  - apply frameResult_runs. vm_compute. discriminate.
  - apply W. reflexivity.
Defined.

(** ** The proximity *)

(** X7. The stored proximity, which is the 'proximity' source of the
    telemetry, stays in [0, 1]: a frame that starts with it in [0, 1]
    leaves it in [0, 1], for every distance and all thresholds. *)
Theorem proximity_in_unit_interval (Math_sin Math_cos Math_sqrt : Q -> Q)
        (fuel : nat) (inp : FrameInput) (st : Store) (r : Store * list AudioEvent) :
  gameLoop Math_sin Math_cos Math_sqrt fuel inp st = Some r ->
  0 <= collisionProximityRef (collision st) <= 1 ->
  0 <= collisionProximityRef (collision (fst r)) <= 1
  /\ audioInputsRef (audio (fst r)) proximity = collisionProximityRef (collision (fst r)).
Proof.
  intros H B. destruct (gameLoop_inv _ _ _ _ _ _ _ H) as (distance & _ & ->).
  split.
  - unfold frame. cbn [fst collision collisionProximityRef].
    match goal with
    | |- context [if ?c then _ else _] => destruct c
    end; [| exact B].
    destruct distance as [dist |]; [apply classify_range | cbn; lra].
  - unfold frame. cbn [fst audio collision collisionProximityRef].
    rewrite audioUpdate_inputs. reflexivity.
Qed.

Lemma proximity_in_unit_interval_witness :
  0 <= collisionProximityRef (collision (fst (frameResult 8 restInput storeInsideSurface)))
  <= 1.
Proof.
  apply (proximity_in_unit_interval sinAtZero cosAtZero sqrtOfSquare 8 restInput
           storeInsideSurface (frameResult 8 restInput storeInsideSurface)).
  - apply frameResult_runs. vm_compute. discriminate.
  - split; discriminate.
Defined.

(** * Further properties of the audio generators *)

Lemma scale_length (s : ScaleName) :
  List.length (SCALES s) = 7%nat \/ List.length (SCALES s) = 8%nat.
Proof. destruct s; cbn; auto. Qed.

Lemma arpTotalNotes_lower (s : Session) (a : Audio) :
  let len := Z.of_nat (List.length (SCALES (melody_scale (sound_melody (soundConfig s))))) in
  (7 <= len)%Z /\ (len <= arpTotalNotes s a)%Z.
Proof.
  unfold arpTotalNotes.
  destruct (scale_length (melody_scale (sound_melody (soundConfig s)))) as [E | E];
    rewrite E; cbn [Z.of_nat]; split; lia.
Qed.

Lemma arpPlays_inv (s : Session) (a : Audio) :
  arpPlays s a = true ->
  exists nodes,
    audioNodesRef a = Some nodes /\ nodes_arp nodes = true
    /\ arp_enabled (sound_arp (soundConfig s)) = true.
Proof.
  unfold arpPlays. intro H. apply andb_true_iff in H. destruct H as [E N].
  destruct (audioNodesRef a) as [nodes |]; [| discriminate].
  exists nodes. repeat split; assumption.
Qed.

(** X8. Every call of [playArpNote] that plays, in every direction and from
    every stored index (also one that is out of range because the octaves
    were reduced), leaves the index within the positions of the arpeggio,
    fires exactly one note at that index, and reads the note from inside
    the scale: the MIDI number is the scale entry at [index % length] plus
    12 for each octave [floor(index / length) + 1]. *)
Theorem playArpNote_in_range (playTime random : Q) (s : Session) (a : Audio) :
  arpPlays s a = true ->
  let scale := SCALES (melody_scale (sound_melody (soundConfig s))) in
  let len := Z.of_nat (List.length scale) in
  let r := playArpNote playTime random s a in
  let index := arpNoteIndexRef (fst r) in
  (0 <= index < arpTotalNotes s a)%Z
  /\ (0 <= Z.rem index len < len)%Z
  /\ exists note,
      nth_error scale (Z.to_nat (Z.rem index len)) = Some note
      /\ snd r = [ArpNote playTime index (note + (index / len + 1) * 12)].
Proof.
  intro P.
  destruct (arpPlays_inv s a P) as (nodes & Hn & Harp & Hen).
  pose proof (arpTotalNotes_lower s a) as L. cbv zeta in L.
  assert (T1 : (1 <= arpTotalNotes s a)%Z) by lia.
  assert (L7 : (0 < Z.of_nat (List.length
                               (SCALES (melody_scale (sound_melody (soundConfig s))))))%Z)
    by lia.
  clear L.
  assert (C : forall T x : Z, (1 <= T)%Z -> (0 <= Z.max 0 (Z.min (T - 1) x) < T)%Z)
    by (intros; lia).
  unfold playArpNote. rewrite Hn, Harp, Hen. cbn [negb orb fst snd arpNoteIndexRef].
  set (index := Z.max 0 (Z.min (arpTotalNotes s a - 1)
                   (fst (arpStep (arpEffectiveDirection s a) (arpTotalNotes s a) random
                                 (arpNoteIndexRef a) (arpInternalDirectionRef a))))).
  assert (B : (0 <= index < arpTotalNotes s a)%Z) by (apply C; exact T1).
  clearbody index.
  set (scale := SCALES (melody_scale (sound_melody (soundConfig s)))) in *.
  assert (M : (0 <= Z.rem index (Z.of_nat (List.length scale))
               < Z.of_nat (List.length scale))%Z)
    by (apply Z.rem_bound_pos; [apply B | exact L7]).
  split; [exact B |]. split; [exact M |].
  exists (nth (Z.to_nat (Z.rem index (Z.of_nat (List.length scale)))) scale 0%Z). split.
  - apply nth_error_nth'. lia.
  - reflexivity.
Qed.

(** An index left over from five octaves, played over one octave. *)
Lemma playArpNote_in_range_witness :
  (0 <= arpNoteIndexRef
          (fst (playArpNote 0 0 (session arpStore)
                            (mkAudio (audioNodesRef (audio arpStore))
                                     (liveAudioStateRef (audio arpStore))
                                     0 0 0 39 1
                                     (audioInputsRef (audio arpStore))
                                     (audioTargetAccumulatorsRef (audio arpStore)))))
   < 8)%Z.
Proof.
  apply (playArpNote_in_range 0 0 (session arpStore)
           (mkAudio (audioNodesRef (audio arpStore)) (liveAudioStateRef (audio arpStore))
                    0 0 0 39 1 (audioInputsRef (audio arpStore))
                    (audioTargetAccumulatorsRef (audio arpStore)))).
  reflexivity.
Defined.

(** X9. The modulation of 'arp.direction' overrides the configured
    direction: above 0.3 a call that plays steps from an index within range
    to [(index + 1) mod totalNotes], so the top position wraps to 0; below
    -0.3 it steps to [(index - 1) mod totalNotes], so position 0 wraps to
    the top.  Neither step changes the internal direction of 'updown'. *)
Theorem playArpNote_steered (playTime random : Q) (s : Session) (a : Audio) :
  arpPlays s a = true ->
  (0 <= arpNoteIndexRef a < arpTotalNotes s a)%Z ->
  let a' := fst (playArpNote playTime random s a) in
  (0.3 < audioTargetAccumulatorsRef a arp_direction ->
   arpNoteIndexRef a' = ((arpNoteIndexRef a + 1) mod arpTotalNotes s a)%Z
   /\ arpInternalDirectionRef a' = arpInternalDirectionRef a)
  /\ (audioTargetAccumulatorsRef a arp_direction < -0.3 ->
      arpNoteIndexRef a' = ((arpNoteIndexRef a - 1) mod arpTotalNotes s a)%Z
      /\ arpInternalDirectionRef a' = arpInternalDirectionRef a).
Proof.
  intros P B a'.
  destruct (arpPlays_inv s a P) as (nodes & Hn & Harp & Hen).
  assert (R : a' = fst (playArpNote playTime random s a)) by reflexivity.
  unfold playArpNote in R. rewrite Hn, Harp, Hen in R. cbn [negb orb fst] in R.
  set (total := arpTotalNotes s a) in *.
  set (i := arpNoteIndexRef a) in *.
  split.
  - intro U.
    assert (D : arpEffectiveDirection s a = dir_up).
    { unfold arpEffectiveDirection. apply JSFacts.gt_true in U. rewrite U. reflexivity. }
    rewrite D in R. cbn [arpStep fst snd] in R. rewrite R.
    cbn [arpNoteIndexRef arpInternalDirectionRef]. split; [| reflexivity].
    rewrite Z.rem_mod_nonneg by lia.
    pose proof (Z.mod_pos_bound (i + 1) total ltac:(lia)). lia.
  - intro U.
    assert (D : arpEffectiveDirection s a = dir_down).
    { unfold arpEffectiveDirection.
      assert (G : JS.gt (audioTargetAccumulatorsRef a arp_direction) 0.3 = false)
        by (unfold JS.gt; apply JSFacts.lt_false; lra).
      apply JSFacts.lt_true in U. rewrite G, U. reflexivity. }
    rewrite D in R. cbn [arpStep fst snd] in R. rewrite R.
    cbn [arpNoteIndexRef arpInternalDirectionRef]. split; [| reflexivity].
    rewrite Z.rem_mod_nonneg by lia.
    replace (i - 1 + total)%Z with (i - 1 + 1 * total)%Z by lia.
    rewrite Z.mod_add by lia.
    pose proof (Z.mod_pos_bound (i - 1) total ltac:(lia)). lia.
Qed.

(** From the top position, steered upward, the arpeggio wraps to 0. *)
Lemma playArpNote_steered_witness :
  arpNoteIndexRef (fst (playArpNote 0 0 (session arpStore) audioSteeredUp)) = 0%Z.
Proof.
  destruct (playArpNote_steered 0 0 (session arpStore) audioSteeredUp) as [U _].
  - reflexivity.
  - split; [discriminate | reflexivity].
  - destruct U as [U _]; [reflexivity | exact U].
Defined.

(** * Further properties of the audio graph *)

(** X10. [initAudio] builds the graph at most once: on a store that has a
    graph, and on a host without an audio context class, it changes
    nothing, so a second call neither rebuilds the buses nor re-arms the
    schedulers.  On a store without a graph it builds one that has the bus
    of each of the five instruments (reverb, drone, atmosphere, arp,
    rhythm) exactly when that instrument is enabled in the sound config at
    that moment, it copies the BPM, the arp speed, the arp octaves and the
    melody density of the config into the live state, it arms the
    schedulers at now + 2, now + 0.5 and now + 0.1, and it leaves the
    session, the camera and the collision state as they are. *)
Theorem initAudio_once (now : Q) (st : Store) :
  (forall supported' now',
      initAudio supported' now' (initAudio true now st) = initAudio true now st)
  /\ initAudio false now st = st
  /\ (audioNodesRef (audio st) = None ->
      let a := audio (initAudio true now st) in
      let cfg := soundConfig (session st) in
      melodyPlays (session st) a = melody_enabled (sound_melody cfg)
      /\ arpPlays (session st) a = arp_enabled (sound_arp cfg)
      /\ rhythmPlays (session st) a = rhythm_enabled (sound_rhythm cfg)
      /\ nextMelodyTimeRef a = now + 2
      /\ nextArpTimeRef a = now + 0.5
      /\ nextRhythmTimeRef a = now + 0.1
      /\ (exists nodes,
             audioNodesRef a = Some nodes
             /\ nodes_reverb nodes = reverb_enabled (sound_reverb cfg)
             /\ nodes_drone nodes = drone_enabled (sound_drone cfg)
             /\ nodes_atmosphere nodes = atmosphere_enabled (sound_atmosphere cfg)
             /\ nodes_arp nodes = arp_enabled (sound_arp cfg)
             /\ nodes_rhythm nodes = rhythm_enabled (sound_rhythm cfg))
      /\ rhythmBpm (liveAudioStateRef a) = rhythm_bpm_v (sound_rhythm cfg)
      /\ arpSpeed (liveAudioStateRef a) = arp_speed_v (sound_arp cfg)
      /\ arpOctaves (liveAudioStateRef a) = arp_octaves_v (sound_arp cfg)
      /\ melodyDensity (liveAudioStateRef a) = melody_density_v (sound_melody cfg)
      /\ session (initAudio true now st) = session st
      /\ physics (initAudio true now st) = physics st
      /\ collision (initAudio true now st) = collision st).
Proof.
  split; [| split].
  - intros supported' now'. unfold initAudio.
    destruct (audioNodesRef (audio st)) eqn:E.
    + rewrite E. reflexivity.
    + reflexivity.
  - unfold initAudio. destruct (audioNodesRef (audio st)); reflexivity.
  - intro E. unfold initAudio, melodyPlays, arpPlays, rhythmPlays. rewrite E.
    cbn [negb audio session physics collision audioNodesRef liveAudioStateRef
         nodes_arp nodes_rhythm rhythmBpm arpSpeed arpOctaves melodyDensity
         nextMelodyTimeRef nextArpTimeRef nextRhythmTimeRef].
    repeat split; try apply andb_true_r.
    + destruct (arp_enabled _); reflexivity.
    + destruct (rhythm_enabled _); reflexivity.
    + eexists. repeat split.
Qed.

(** The freshly mounted store has no graph; the graph built from its
    config has the buses of the instruments that the config enables. *)
Lemma initAudio_once_witness :
  arpPlays (session initialStore) (audio (initAudio true 0 initialStore)) = true
  /\ nextArpTimeRef (audio (initAudio true 0 initialStore)) = 0 + 0.5
  /\ exists nodes,
      audioNodesRef (audio (initAudio true 0 initialStore)) = Some nodes
      /\ nodes_reverb nodes
         = reverb_enabled (sound_reverb (soundConfig (session initialStore)))
      /\ nodes_drone nodes
         = drone_enabled (sound_drone (soundConfig (session initialStore)))
      /\ nodes_atmosphere nodes
         = atmosphere_enabled (sound_atmosphere (soundConfig (session initialStore)))
      /\ nodes_arp nodes = arp_enabled (sound_arp (soundConfig (session initialStore)))
      /\ nodes_rhythm nodes
         = rhythm_enabled (sound_rhythm (soundConfig (session initialStore))).
Proof.
  destruct (initAudio_once 0 initialStore) as (_ & _ & H).
  destruct H as (_ & H1 & _ & _ & H2 & _ & H3 & _); [reflexivity |].
  split; [exact H1 | split; [exact H2 | exact H3]].
Defined.

(** X11. Loading a session tears the audio graph down: after
    [applySessionState] the store has no graph, and a frame fires no audio
    event at all (no note, no rhythm hit, no collision sound) and moves no
    scheduler, until the graph is built again. *)
Theorem silent_after_load (Math_sin Math_cos Math_sqrt : Q -> Q)
        (sessionState : SessionState) (st : Store)
        (fuel : nat) (inp : FrameInput) (r : Store * list AudioEvent) :
  gameLoop Math_sin Math_cos Math_sqrt fuel inp (applySessionState sessionState st)
  = Some r ->
  audioNodesRef (audio (applySessionState sessionState st)) = None
  /\ snd r = []
  /\ audioNodesRef (audio (fst r)) = None
  /\ nextMelodyTimeRef (audio (fst r)) = nextMelodyTimeRef (audio st)
  /\ nextArpTimeRef (audio (fst r)) = nextArpTimeRef (audio st)
  /\ nextRhythmTimeRef (audio (fst r)) = nextRhythmTimeRef (audio st).
Proof.
  intro H. destruct (gameLoop_inv _ _ _ _ _ _ _ H) as (distance & _ & ->).
  split; [reflexivity |].
  set (st0 := applySessionState sessionState st).
  assert (N : audioNodesRef (audio st0) = None) by reflexivity.
  assert (A : audioRunning (session st0) (audio st0) = false).
  { unfold audioRunning. rewrite N. apply andb_false_iff. left.
    apply andb_false_r. }
  unfold frame, audioUpdate. rewrite A. unfold playCollisionSound. rewrite N.
  cbn [fst snd audio audioNodesRef nextMelodyTimeRef nextArpTimeRef nextRhythmTimeRef].
  repeat split; try exact N.
  destruct (_ && _); reflexivity.
Qed.

Lemma silent_after_load_witness :
  snd (frameResult 0 restInput storeLocalFile) = [].
Proof.
  apply (silent_after_load sinAtZero cosAtZero sqrtOfSquare sessionWithoutModulations
                           initialStore 0 restInput
                           (frameResult 0 restInput storeLocalFile)).
  apply frameResult_runs. vm_compute. discriminate.
Defined.





(** * Editing the modulation lists *)

Lemma baseAccumulators_withModulations (sound : SoundConfig) (l : list Modulation) :
  baseAccumulators (withModulations sound l) = baseAccumulators sound.
Proof. reflexivity. Qed.

Lemma withModulations_same (sound : SoundConfig) :
  withModulations sound (sound_modulations sound) = sound.
Proof. destruct sound. reflexivity. Qed.

Lemma filter_other_ids (id : string) :
  forall l : list Modulation,
    ~ In id (map mod_id l) ->
    filter (fun m => negb (String.eqb (mod_id m) id)) l = l.
Proof.
  induction l as [| m l IH]; intro H; simpl.
  - reflexivity.
  - simpl in H. destruct (String.eqb_spec (mod_id m) id) as [E | E].
    + exfalso. apply H. left. exact E.
    + simpl. f_equal. apply IH. intro K. apply H. right. exact K.
Qed.

(** X13. Adding a modulation adds its contribution to the routed value of
    its target and changes no other target, also when the modulation that
    is passed in is flagged disabled: [addSoundModulation] enables what it
    adds. *)
Theorem add_modulation_routes (uuid : string) (m : Modulation) (prev : SoundConfig)
        (inputs : ModulationSource -> Q) (t : ModulationTarget) :
  routedAccumulators (addSoundModulation uuid m prev) inputs t
  == routedAccumulators prev inputs t
     + (if target_eqb t (mod_target m)
        then inputs (mod_source m) * mod_amount m * MOD_RANGES t
        else 0).
Proof.
  unfold routedAccumulators, addSoundModulation.
  rewrite baseAccumulators_withModulations. cbn [withModulations sound_modulations].
  rewrite !routeModulations_sum, filter_app, map_app, sumQ_app.
  cbn [filter contributes mod_enabled mod_target andb].
  destruct (target_eqb t (mod_target m)) eqn:E.
  - cbn [map sumQ]. rewrite modulationDelta_MOD_RANGES.
    apply target_eqb_true in E. subst t.
    cbn [mod_source mod_amount mod_target]. ring.
  - cbn [map sumQ]. ring.
Qed.

(** X14. [removeSoundModulation] removes every modulation with the id and
    keeps the others; removing the id that [addSoundModulation] has just
    given, an id that no other modulation has, gives the config back. *)
Theorem remove_modulation (id : string) (prev : SoundConfig) :
  (forall m, In m (sound_modulations (removeSoundModulation id prev))
             <-> In m (sound_modulations prev) /\ mod_id m <> id)
  /\ (forall m,
         ~ In id (map mod_id (sound_modulations prev)) ->
         removeSoundModulation id (addSoundModulation id m prev) = prev).
Proof.
  split.
  - intro m. unfold removeSoundModulation. cbn [withModulations sound_modulations].
    rewrite filter_In, negb_true_iff, String.eqb_neq. reflexivity.
  - intros m H. destruct prev as [en vol rev dr atm me ar rh mods].
    unfold removeSoundModulation, addSoundModulation, withModulations.
    cbn [sound_modulations sound_enabled sound_masterVolume sound_reverb
         sound_drone sound_atmosphere sound_melody sound_arp sound_rhythm] in *.
    rewrite filter_app, (filter_other_ids id _ H).
    cbn [filter mod_id]. rewrite String.eqb_refl. cbn [negb].
    rewrite app_nil_r. reflexivity.
Qed.

(** The default patch has no modulation with the id "fresh". *)
Lemma remove_modulation_witness :
  removeSoundModulation "fresh" (addSoundModulation "fresh" defaultMod1 defaultSoundConfig)
  = defaultSoundConfig.
Proof.
  apply (remove_modulation "fresh" defaultSoundConfig).
  cbn. intros [H | [H | [H | [H | [H | [H | []]]]]]]; discriminate H.
Defined.

Lemma sumQ_disabled_removed (f : Modulation -> Q) (t : ModulationTarget) (id : string) :
  forall l : list Modulation,
    sumQ (map f (filter (contributes t)
                        (map (fun m => if String.eqb (mod_id m) id
                                       then spreadModulation m disableOnly else m) l)))
    == sumQ (map f (filter (contributes t)
                           (filter (fun m => negb (String.eqb (mod_id m) id)) l))).
Proof.
  induction l as [| m l IH]; simpl.
  - reflexivity.
  - destruct (String.eqb (mod_id m) id); simpl.
    + exact IH.
    + destruct (contributes t m); simpl; rewrite IH; reflexivity.
Qed.

(** X15. For the router, disabling a modulation is the same as removing
    it: updating the modulations of an id with [{enabled: false}] routes
    every target to the value that removing the id routes it to.  An update
    of an id that no modulation has changes nothing. *)
Theorem disable_routes_as_remove (id : string) (prev : SoundConfig)
        (inputs : ModulationSource -> Q) :
  (forall t,
      routedAccumulators (updateSoundModulation id disableOnly prev) inputs t
      == routedAccumulators (removeSoundModulation id prev) inputs t)
  /\ (forall newConfig,
         ~ In id (map mod_id (sound_modulations prev)) ->
         updateSoundModulation id newConfig prev = prev).
Proof.
  split.
  - intro t. unfold routedAccumulators, updateSoundModulation, removeSoundModulation.
    rewrite !baseAccumulators_withModulations. cbn [withModulations sound_modulations].
    rewrite !routeModulations_sum, sumQ_disabled_removed. reflexivity.
  - intros newConfig H. unfold updateSoundModulation.
    assert (E : map (fun m => if String.eqb (mod_id m) id
                              then spreadModulation m newConfig else m)
                    (sound_modulations prev) = sound_modulations prev).
    { induction (sound_modulations prev) as [| m l IH]; simpl; [reflexivity |].
      simpl in H. destruct (String.eqb_spec (mod_id m) id) as [E | E].
      - exfalso. apply H. left. exact E.
      - f_equal. apply IH. intro K. apply H. right. exact K. }
    rewrite E. apply withModulations_same.
Qed.

Lemma disable_routes_as_remove_witness :
  updateSoundModulation "fresh" disableOnly defaultSoundConfig = defaultSoundConfig.
Proof.
  apply (disable_routes_as_remove "fresh" defaultSoundConfig (fun _ => 0)).
  cbn. intros [H | [H | [H | [H | [H | [H | []]]]]]]; discriminate H.
Defined.

(** * Editing the terraform config *)

Lemma findTarget_None (variableName : string) :
  forall l : list TerraformTarget,
    findTarget variableName l = None <-> ~ In variableName (map tf_variableName l).
Proof.
  induction l as [| t l IH]; simpl.
  - split; [intros _ [] | reflexivity].
  - destruct (String.eqb_spec (tf_variableName t) variableName) as [E | E].
    + split; [discriminate | intro H; exfalso; apply H; left; exact E].
    + destruct (findTarget variableName l); simpl.
      * split; [discriminate |]. intro H. exfalso.
        destruct IH as [_ IH]. assert (K : ~ In variableName (map tf_variableName l))
          by (intro K; apply H; right; exact K).
        specialize (IH K). discriminate IH.
      * split; [| reflexivity]. intros _ [K | K]; [exact (E K) |].
        destruct IH as [IH _]. exact (IH eq_refl K).
Qed.

Lemma findTarget_Some (variableName : string) :
  forall (l : list TerraformTarget) (i : nat),
    findTarget variableName l = Some i -> In variableName (map tf_variableName l).
Proof.
  intros l i H. destruct (in_dec string_dec variableName (map tf_variableName l))
    as [K | K]; [exact K |].
  apply findTarget_None in K. rewrite K in H. discriminate H.
Qed.

Lemma NoDup_map_filter {A B : Type} (f : A -> B) (p : A -> bool) :
  forall l : list A, NoDup (map f l) -> NoDup (map f (filter p l)).
Proof.
  induction l as [| a l IH]; simpl; intro H.
  - constructor.
  - inversion H as [| x xs N1 N2]; subst. destruct (p a); simpl.
    + constructor; [| apply IH; exact N2].
      intro K. apply N1. apply in_map_iff in K. destruct K as (b & E & K).
      apply filter_In in K. apply in_map_iff. exists b. tauto.
    + apply IH. exact N2.
Qed.

Lemma editTarget_map {B : Type} (g : TerraformTarget -> B)
      (f : TerraformTarget -> TerraformTarget) :
  (forall t, g (f t) = g t) ->
  forall (l : list TerraformTarget) (i : nat), map g (editTarget i f l) = map g l.
Proof.
  intro H. induction l as [| t l IH]; intro i; destruct i; simpl;
    try reflexivity; [rewrite H | rewrite IH]; reflexivity.
Qed.

(** In a list without a repeated name, the target edited at the index that
    [findTarget] gives is the only one with the name. *)
Lemma editTarget_found (variableName : string) (f : TerraformTarget -> TerraformTarget) :
  (forall t, tf_variableName (f t) = tf_variableName t) ->
  forall (l : list TerraformTarget) (i : nat) (t : TerraformTarget),
    NoDup (map tf_variableName l) ->
    findTarget variableName l = Some i ->
    In t (editTarget i f l) ->
    tf_variableName t = variableName ->
    exists t0, In t0 l /\ t = f t0.
Proof.
  intro Hf. induction l as [| t0 l IH]; intros i t N F H E; simpl in *.
  - discriminate F.
  - inversion N as [| x xs N1 N2]; subst.
    destruct (String.eqb_spec (tf_variableName t0) (tf_variableName t)) as [E0 | E0].
    + injection F as F. subst i. simpl in H. destruct H as [H | H].
      * exists t0. split; [left; reflexivity | symmetry; exact H].
      * exfalso. apply N1. rewrite E0. apply in_map. exact H.
    + destruct (findTarget (tf_variableName t) l) as [j |] eqn:G; [| discriminate F].
      injection F as F. subst i. simpl in H. destruct H as [H | H].
      * exfalso. apply E0. rewrite H. reflexivity.
      * destruct (IH j t N2 eq_refl H eq_refl) as (t1 & K1 & K2).
        exists t1. split; [right; exact K1 | exact K2].
Qed.

(** X16. The switch of a variable in the terraform panel: switching it on
    makes it a target and keeps every other target, switching it off
    removes it and keeps every other target, and no switch ever gives one
    name two targets. *)
Theorem terraform_switch (variableName : string) (prev : option TerraformConfig) :
  (forall n,
      In n (terraformNames (handleTerraformConfigChange variableName (tf_enabled true) prev))
      <-> In n (terraformNames prev) \/ n = variableName)
  /\ (forall n,
         In n (terraformNames
                 (handleTerraformConfigChange variableName (tf_enabled false) prev))
         <-> In n (terraformNames prev) /\ n <> variableName)
  /\ (NoDup (terraformNames prev) ->
      forall b,
        NoDup (terraformNames
                 (handleTerraformConfigChange variableName (tf_enabled b) prev))).
Proof.
  unfold handleTerraformConfigChange, terraformNames.
  set (l := match prev with Some c => targets c | None => [] end).
  destruct (findTarget variableName l) as [i |] eqn:F.
  - pose proof (findTarget_Some _ _ _ F) as K. split; [| split].
    + intro n. split; [intro H; left; exact H |].
      intros [H | H]; [exact H | subst n; exact K].
    + intro n. cbn [targets]. rewrite in_map_iff. split.
      * intros (t & E & H). apply filter_In in H. destruct H as [H1 H2].
        rewrite negb_true_iff, String.eqb_neq in H2. subst n.
        split; [apply in_map; exact H1 | exact H2].
      * intros [H1 H2]. apply in_map_iff in H1. destruct H1 as (t & E & H1).
        exists t. split; [exact E |]. apply filter_In. split; [exact H1 |].
        rewrite negb_true_iff, String.eqb_neq, E. exact H2.
    + intros N [|]; [exact N |]. cbn [targets]. apply NoDup_map_filter. exact N.
  - pose proof F as K. apply findTarget_None in K. split; [| split].
    + intro n. cbn [targets]. rewrite map_app, in_app_iff. cbn.
      split; intros [H | H]; auto.
      * destruct H as [H | []]. right. symmetry. exact H.
    + intro n. split; [| intros [H _]; exact H].
      intro H. split; [exact H |]. intro E. subst n. exact (K H).
    + intros N [|]; [| exact N]. cbn [targets]. rewrite map_app. cbn.
      apply NoDup_app; [exact N | repeat constructor; intros [] |].
      intros n H [E | []]. subst n. exact (K H).
Qed.

(** In the list of the names "slider_a" and "slider_b" no name repeats. *)
Lemma terraform_switch_witness :
  NoDup (terraformNames
           (handleTerraformConfigChange
              "slider_c" (tf_enabled true)
              (Some (mkTerraform [mkTerraformTarget "slider_a" 0.01 (Some 1.0);
                                  mkTerraformTarget "slider_b" 0.5 None])))).
Proof.
  apply (terraform_switch
           "slider_c"
           (Some (mkTerraform [mkTerraformTarget "slider_a" 0.01 (Some 1.0);
                               mkTerraformTarget "slider_b" 0.5 None]))).
  cbn. repeat constructor; cbn; intuition discriminate.
Defined.

(** The target that is edited at the index that [findTarget] gives has the
    name that was looked for. *)
Lemma editTarget_at (variableName : string) (f : TerraformTarget -> TerraformTarget) :
  forall (l : list TerraformTarget) (i : nat) (t : TerraformTarget),
    findTarget variableName l = Some i ->
    In t (editTarget i f l) ->
    In t l \/ exists t0, In t0 l /\ tf_variableName t0 = variableName /\ t = f t0.
Proof.
  induction l as [| t0 l IH]; intros i t F H; simpl in F.
  - discriminate F.
  - destruct (String.eqb_spec (tf_variableName t0) variableName) as [E0 | E0].
    + injection F as F. subst i. simpl in H. destruct H as [H | H].
      * right. exists t0. split; [left; reflexivity |]. split; [exact E0 | symmetry; exact H].
      * left. right. exact H.
    + destruct (findTarget variableName l) as [j |] eqn:G; [| discriminate F].
      injection F as F. subst i. simpl in H. destruct H as [H | H].
      * left. left. exact H.
      * destruct (IH j t eq_refl H) as [K | (t1 & K1 & K2 & K3)].
        -- left. right. exact K.
        -- right. exists t1. split; [right; exact K1 |]. split; assumption.
Qed.

(** X17. Setting the magnitude or the probability of a variable in the
    terraform panel keeps the names of the targets and their order, and
    every target of another variable as it was; the config of a variable
    that is no target is not changed at all.  In a config where no name
    repeats, the target of the variable then has the value that was set. *)
Theorem terraform_edit (variableName : string) (prev : option TerraformConfig) (value : Q) :
  let m := handleTerraformConfigChange variableName (tf_set_magnitude value) prev in
  let p := handleTerraformConfigChange variableName (tf_set_probability value) prev in
  (terraformNames m = terraformNames prev
   /\ map tf_probability (terraformTargets m) = map tf_probability (terraformTargets prev)
   /\ terraformNames p = terraformNames prev
   /\ map tf_magnitude (terraformTargets p) = map tf_magnitude (terraformTargets prev))
  /\ (forall t, tf_variableName t <> variableName ->
                (In t (terraformTargets m) -> In t (terraformTargets prev))
                /\ (In t (terraformTargets p) -> In t (terraformTargets prev)))
  /\ (~ In variableName (terraformNames prev) -> m = prev /\ p = prev)
  /\ (NoDup (terraformNames prev) ->
      forall t, tf_variableName t = variableName ->
                (In t (terraformTargets m) -> tf_magnitude t = value)
                /\ (In t (terraformTargets p) -> tf_probability t = Some value)).
Proof.
  unfold handleTerraformConfigChange, terraformNames, terraformTargets.
  set (l := match prev with Some c => targets c | None => [] end).
  destruct (findTarget variableName l) as [i |] eqn:F; cbn zeta.
  - cbn [targets]. split; [| split; [| split]].
    + repeat split; apply editTarget_map; reflexivity.
    + intros t E. split; intro H;
        (destruct (editTarget_at _ _ _ _ _ F H) as [K | (t0 & K1 & K2 & K3)];
         [exact K | exfalso; apply E; subst t; exact K2]).
    + intro K. exfalso. apply K. exact (findTarget_Some _ _ _ F).
    + intros N t E. subst variableName. split; intro H.
      * destruct (editTarget_found
                    (tf_variableName t)
                    (fun t => mkTerraformTarget (tf_variableName t) value (tf_probability t))
                    (fun _ => eq_refl) l i t N F H eq_refl) as (t0 & _ & K).
        subst t. reflexivity.
      * destruct (editTarget_found
                    (tf_variableName t)
                    (fun t => mkTerraformTarget (tf_variableName t) (tf_magnitude t)
                                                (Some value))
                    (fun _ => eq_refl) l i t N F H eq_refl) as (t0 & _ & K).
        subst t. reflexivity.
  - split; [| split; [| split]].
    + repeat split.
    + intros t E. split; intro H; exact H.
    + intros _. split; reflexivity.
    + intros N t E. apply findTarget_None in F. split; intro H; exfalso;
        apply F; subst variableName; apply in_map; exact H.
Qed.

Lemma terraform_edit_witness :
  let prev := Some (mkTerraform [mkTerraformTarget "slider_a" 0.01 (Some 1.0);
                                 mkTerraformTarget "slider_b" 0.5 None]) in
  let t := mkTerraformTarget "slider_b" 0.25 None in
  NoDup (terraformNames prev)
  /\ In t (terraformTargets
             (handleTerraformConfigChange "slider_b" (tf_set_magnitude 0.25) prev))
  /\ tf_magnitude t = 0.25.
Proof.
  intros prev t.
  assert (N : NoDup (terraformNames prev))
    by (cbn; repeat constructor; cbn; intuition discriminate).
  assert (I : In t (terraformTargets
                      (handleTerraformConfigChange "slider_b" (tf_set_magnitude 0.25) prev)))
    by (cbn; right; left; reflexivity).
  split; [exact N |]. split; [exact I |].
  destruct (terraform_edit "slider_b" prev 0.25) as (_ & _ & _ & H).
  destruct (H N t eq_refl) as [H1 _]. exact (H1 I).
Defined.

(** * The held keys *)

Lemma has_app (l1 l2 : list string) (k : string) :
  has (l1 ++ l2) k = has l1 k || has l2 k.
Proof. unfold has. apply existsb_app. Qed.

Lemma has_In (l : list string) (k : string) : has l k = true <-> In k l.
Proof.
  unfold has. rewrite existsb_exists. split.
  - intros (x & H & E). apply String.eqb_eq in E. subst x. exact H.
  - intro H. exists k. split; [exact H | apply String.eqb_refl].
Qed.

Lemma has_keyAdd (l : list string) (k k' : string) :
  has (keyAdd k l) k' = has l k' || String.eqb k' k.
Proof.
  unfold keyAdd. destruct (has l k) eqn:E.
  - destruct (String.eqb_spec k' k) as [K | K].
    + subst k'. rewrite E. reflexivity.
    + rewrite orb_false_r. reflexivity.
  - rewrite has_app. cbn. rewrite orb_false_r. reflexivity.
Qed.

Lemma has_keyDelete (l : list string) (k k' : string) :
  has (keyDelete k l) k' = has l k' && negb (String.eqb k' k).
Proof.
  unfold keyDelete, has. induction l as [| x l IH]; simpl.
  - reflexivity.
  - destruct (String.eqb_spec k x) as [E | E]; simpl.
    + subst x. rewrite IH. destruct (String.eqb k' k); simpl.
      * rewrite andb_false_r. reflexivity.
      * reflexivity.
    + rewrite IH. destruct (String.eqb_spec k' x) as [E' | E']; simpl.
      * subst x. destruct (String.eqb_spec k' k) as [K | K];
          [exfalso; apply E; symmetry; exact K | reflexivity].
      * reflexivity.
Qed.

(** X18. The held keys are a set of lower-case names: after [pressKey] the
    key is held, after [releaseKey] it is not, whatever was held before and
    however often it was pressed; no other key changes; and no key is ever
    held twice. *)
Theorem press_release_keys (toLowerCase : string -> string) (supported : bool) (now : Q)
        (key : string) (held : list string * Store) :
  let pressed := fst (pressKey toLowerCase supported now key held) in
  let released := fst (releaseKey toLowerCase key held) in
  (forall k, has pressed k = has (fst held) k || String.eqb k (toLowerCase key))
  /\ (forall k, has released k = has (fst held) k && negb (String.eqb k (toLowerCase key)))
  /\ fst (releaseKey toLowerCase key (pressKey toLowerCase supported now key held))
     = released
  /\ (NoDup (fst held) -> NoDup pressed /\ NoDup released).
Proof.
  cbn zeta. unfold pressKey, releaseKey. cbn [fst snd].
  split; [| split; [| split]].
  - intro k. apply has_keyAdd.
  - intro k. apply has_keyDelete.
  - unfold keyAdd. destruct (has (fst held) (toLowerCase key)); [reflexivity |].
    unfold keyDelete. rewrite filter_app. cbn. rewrite String.eqb_refl. cbn.
    apply app_nil_r.
  - intro N. split.
    + unfold keyAdd. destruct (has (fst held) (toLowerCase key)) eqn:E; [exact N |].
      apply NoDup_app; [exact N | repeat constructor; intros [] |].
      intros a H [K | []]. subst a. apply has_In in H. rewrite H in E. discriminate E.
    + unfold keyDelete. apply NoDup_filter. exact N.
Qed.

Lemma press_release_keys_witness :
  NoDup (fst (pressKey (fun k => k) true 0 "w" (["a"; "w"], initialStore)))
  /\ NoDup (fst (releaseKey (fun k => k) "w" (["a"; "w"], initialStore))).
Proof.
  apply (press_release_keys (fun k => k) true 0 "w" (["a"; "w"], initialStore)).
  cbn. repeat constructor; cbn; intuition discriminate.
Defined.

(** X19. The audio graph is built by the first key press in session '1'
    with sound enabled, and by nothing else that the keyboard does: a press
    changes the audio refs only, a second press changes nothing more (the
    schedulers are not armed again), a release changes nothing, and in
    another session or with sound disabled no press builds the graph. *)
Theorem pressKey_audio (toLowerCase : string -> string) (supported : bool)
        (now now' : Q) (key key' : string) (held : list string * Store) :
  let st := snd held in
  let first := pressKey toLowerCase supported now key held in
  (session (snd first) = session st
   /\ physics (snd first) = physics st
   /\ collision (snd first) = collision st)
  /\ snd (pressKey toLowerCase supported now' key' first) = snd first
  /\ snd (releaseKey toLowerCase key' first) = snd first
  /\ (currentSessionId (session st) <> "1"
      \/ sound_enabled (soundConfig (session st)) = false ->
      snd first = st)
  /\ (currentSessionId (session st) = "1" ->
      sound_enabled (soundConfig (session st)) = true ->
      supported = true ->
      audioNodesRef (audio (snd first)) <> None).
Proof.
  cbn zeta. destruct held as [l st]. unfold pressKey, releaseKey. cbn [fst snd].
  unfold initAudio.
  destruct (String.eqb (currentSessionId (session st)) "1") eqn:E;
    destruct (sound_enabled (soundConfig (session st))) eqn:S;
    destruct (audioNodesRef (audio st)) eqn:A;
    destruct supported;
    repeat (progress (cbn [andb negb session physics collision audio audioNodesRef
                           soundConfig];
                      rewrite ?A, ?S, ?E));
    (repeat split; try reflexivity; try discriminate;
     try (intros [K | K]; [apply String.eqb_eq in E; contradiction | discriminate]);
     try (intros K; apply String.eqb_neq in E; contradiction)).
Qed.

Lemma pressKey_audio_witness :
  audioNodesRef (audio (snd (pressKey (fun k => k) true 0 "w" ([], initialStore)))) <> None.
Proof.
  apply (pressKey_audio (fun k => k) true 0 0 "w" "w" ([], initialStore));
    reflexivity.
Defined.

(** * Slider values from the URL hash *)

Lemma lookup_setUniform_same (k : string) (v : Q) :
  forall u : Uniforms, lookup k (setUniform k v u) = Some v.
Proof.
  induction u as [| [k' v'] u IH]; simpl.
  - rewrite String.eqb_refl. reflexivity.
  - destruct (String.eqb k k') eqn:E; simpl.
    + rewrite String.eqb_refl. reflexivity.
    + rewrite E. exact IH.
Qed.

Lemma lookup_setUniform_other (k k0 : string) (v : Q) :
  k0 <> k -> forall u : Uniforms, lookup k0 (setUniform k v u) = lookup k0 u.
Proof.
  intro N. induction u as [| [k' v'] u IH]; simpl.
  - destruct (String.eqb_spec k0 k); [contradiction | reflexivity].
  - destruct (String.eqb_spec k k') as [E | E]; simpl.
    + subst k'. destruct (String.eqb_spec k0 k); [contradiction | reflexivity].
    + rewrite IH. reflexivity.
Qed.

(** The value that the hash gives to a slider, if it gives one. *)
Lemma hashUniforms_step (parseFloat : string -> option Q) (hashParams : HashParams)
      (k : string) :
  forall (sliders : list Slider) (u : Uniforms),
    lookup k (hashUniforms parseFloat hashParams sliders u) = lookup k u
    \/ exists s str val,
        In s sliders /\ variableName s = k
        /\ hashParam k hashParams = Some str /\ str <> "" /\ parseFloat str = Some val
        /\ lookup k (hashUniforms parseFloat hashParams sliders u)
           = Some (JS.Math_max (slider_min s) (JS.Math_min (slider_max s) val)).
Proof.
  unfold hashUniforms. intro sliders. induction sliders as [| s sliders IH]; intro u; simpl.
  - left. reflexivity.
  - match goal with |- context [fold_left _ sliders ?u0] => set (u1 := u0) end.
    destruct (IH u1) as [H | (s' & str & val & H1 & H2 & H3 & H4 & H5 & H6)].
    + rewrite H. subst u1.
      destruct (hashParam (variableName s) hashParams) as [str |] eqn:P;
        [| left; reflexivity].
      destruct (String.eqb_spec str "") as [E | E]; [left; reflexivity |].
      destruct (parseFloat str) as [val |] eqn:F; [| left; reflexivity].
      destruct (string_dec k (variableName s)) as [K | K].
      * right. exists s, str, val. subst k.
        rewrite lookup_setUniform_same. repeat split; auto.
      * left. apply lookup_setUniform_other. exact K.
    + right. exists s', str, val. repeat split; auto.
Qed.

(** X20. The slider values that [loadSession] takes from the URL hash: a
    name that is no slider's, or that the hash does not give, or gives as
    an empty or non-numeric string, keeps the value of the session file;
    a slider that the hash gives a number gets that number clamped into
    the range of a slider of that name, so never a value below the
    minimum, and none above the maximum of a slider whose range is not
    empty. *)
Theorem hash_uniforms (parseFloat : string -> option Q) (hashParams : HashParams)
        (sliders : list Slider) (initialUniforms : Uniforms) (k : string) :
  let u := hashUniforms parseFloat hashParams sliders initialUniforms in
  (~ In k (map variableName sliders)
   \/ hashParam k hashParams = None
   \/ hashParam k hashParams = Some ""
   \/ (exists str, hashParam k hashParams = Some str /\ parseFloat str = None) ->
   lookup k u = lookup k initialUniforms)
  /\ (forall str val,
         In k (map variableName sliders) ->
         hashParam k hashParams = Some str -> str <> "" -> parseFloat str = Some val ->
         exists s v,
           In s sliders /\ variableName s = k
           /\ lookup k u = Some v
           /\ v = JS.Math_max (slider_min s) (JS.Math_min (slider_max s) val)
           /\ slider_min s <= v
           /\ (slider_min s <= slider_max s -> v <= slider_max s)).
Proof.
  cbn zeta. split.
  - intro H.
    destruct (hashUniforms_step parseFloat hashParams k sliders initialUniforms)
      as [K | (s & str & val & H1 & H2 & H3 & H4 & H5 & H6)]; [exact K |].
    exfalso. destruct H as [H | [H | [H | (str' & H & H')]]].
    + apply H. subst k. apply in_map. exact H1.
    + rewrite H in H3. discriminate H3.
    + rewrite H in H3. injection H3 as H3. subst str. apply H4. reflexivity.
    + rewrite H in H3. injection H3 as H3. subst str'. rewrite H' in H5. discriminate H5.
  - intros str val I P E F. revert initialUniforms.
    unfold hashUniforms. induction sliders as [| s sliders IH] using rev_ind;
      intro u; [destruct I |].
    rewrite fold_left_app. cbn [fold_left].
    destruct (string_dec (variableName s) k) as [K | K].
    + rewrite K, P. destruct (String.eqb_spec str ""); [contradiction |].
      rewrite F. exists s. eexists. split; [apply in_or_app; right; left; reflexivity |].
      split; [exact K |]. rewrite lookup_setUniform_same.
      split; [reflexivity |]. split; [reflexivity |]. split.
      * apply JSFacts.max_l.
      * intro R. apply JSFacts.max_lub; [exact R | apply JSFacts.min_l].
    + rewrite map_app, in_app_iff in I. destruct I as [I | [I | []]]; [| contradiction].
      destruct (IH I u) as (s0 & v & A1 & A2 & A3 & A4 & A5 & A6).
      exists s0, v. split; [apply in_or_app; left; exact A1 |].
      split; [exact A2 |]. split; [| repeat split; assumption].
      rewrite <- A3.
      destruct (hashParam (variableName s) hashParams) as [str' |]; [| reflexivity].
      destruct (String.eqb str' ""); [reflexivity |].
      destruct (parseFloat str') as [val' |]; [| reflexivity].
      apply lookup_setUniform_other. intro X. apply K. symmetry. exact X.
Qed.

(** The hash "#slider_a=5" against a slider with the range from 0 to 1. *)
Lemma hash_uniforms_witness :
  exists s v,
    In s [mkSlider "A" "slider_a" 0 1 0.01 0.5 None None]
    /\ variableName s = "slider_a"
    /\ lookup "slider_a"
              (hashUniforms (fun str => if String.eqb str "5" then Some 5 else None)
                            [("slider_a", "5")]
                            [mkSlider "A" "slider_a" 0 1 0.01 0.5 None None]
                            [("slider_a", 0.5)])
       = Some v
    /\ v = JS.Math_max (slider_min s) (JS.Math_min (slider_max s) 5)
    /\ slider_min s <= v
    /\ (slider_min s <= slider_max s -> v <= slider_max s).
Proof.
  destruct (hash_uniforms (fun str => if String.eqb str "5" then Some 5 else None)
                          [("slider_a", "5")]
                          [mkSlider "A" "slider_a" 0 1 0.01 0.5 None None]
                          [("slider_a", 0.5)] "slider_a") as [_ H].
  apply (H "5" 5).
  - left. reflexivity.
  - reflexivity.
  - discriminate.
  - reflexivity.
Defined.

(** * The HUD *)

(** X21. The heading of the HUD is a number from 0 up to, not including,
    360 for every yaw, also a negative one, and it differs from the yaw in
    degrees, negated, by whole turns.  The compass draws it rounded to a
    whole number, [headingDeg.toFixed(0)]: the text is the nearest whole
    number, from 0 to 360, and it is 360, not 0, exactly when the heading
    is 359.5 or more, as for a yaw of 0.005. *)
Theorem hud_heading (yaw : Q) :
  (0 <= hudHeadingDeg yaw < 360
   /\ exists turns : Z,
       hudHeadingDeg yaw == - yaw * 180 / JS.Math_PI + 360 * inject_Z turns)
  /\ (0 <= hudHeadingText yaw <= 360)%Z
  /\ (inject_Z (hudHeadingText yaw) - (1 # 2) <= hudHeadingDeg yaw
      /\ hudHeadingDeg yaw < inject_Z (hudHeadingText yaw) + (1 # 2))
  /\ (hudHeadingText yaw = 360%Z <-> 359.5 <= hudHeadingDeg yaw)
  /\ (hudHeadingText yaw = 0%Z <-> hudHeadingDeg yaw < 0.5)
  /\ hudHeadingText 0.005 = 360%Z.
Proof.
  assert (H : 0 <= hudHeadingDeg yaw < 360).
  { unfold hudHeadingDeg. set (d := - yaw * 180 / JS.Math_PI).
    assert (B : 0 < 360) by reflexivity.
    assert (R : -360 < JS.rem d 360 < 360).
    { destruct (Qlt_le_dec d 0) as [N | N].
      - pose proof (rem_negative d 360 B N). lra.
      - pose proof (rem_nonneg d 360 B N). lra. }
    apply rem_nonneg; [exact B | lra]. }
  split; [split; [exact H |] |].
  - unfold hudHeadingDeg. set (d := - yaw * 180 / JS.Math_PI).
    set (r := JS.rem d 360).
    assert (E1 : r == d - 360 * inject_Z (JS.trunc (d / 360))) by reflexivity.
    assert (E2 : JS.rem (r + 360) 360
                 == r + 360 - 360 * inject_Z (JS.trunc ((r + 360) / 360)))
      by reflexivity.
    exists (- JS.trunc (d / 360) + 1 + - JS.trunc ((r + 360) / 360))%Z.
    rewrite E2, !inject_Z_plus, !inject_Z_opp.
    change (inject_Z 1) with 1.
    set (n1 := inject_Z (JS.trunc (d / 360))) in *.
    set (n2 := inject_Z (JS.trunc ((r + 360) / 360))) in *.
    clearbody n1 n2 r. lra.
  - assert (T : hudHeadingText yaw = Qfloor (hudHeadingDeg yaw + (1 # 2))).
    { unfold hudHeadingText, toFixed0.
      destruct (Qlt_le_dec (hudHeadingDeg yaw) 0); [lra | reflexivity]. }
    rewrite T. set (h := hudHeadingDeg yaw) in *. clearbody h.
    pose proof (Qfloor_le (h + (1 # 2))) as F1.
    pose proof (Qlt_floor (h + (1 # 2))) as F2.
    rewrite inject_Z_plus in F2. change (inject_Z 1) with 1 in F2.
    set (n := Qfloor (h + (1 # 2))) in *.
    assert (N0 : (0 <= n)%Z).
    { apply Z.lt_succ_r. rewrite Zlt_Qlt. unfold Z.succ.
      rewrite inject_Z_plus. change (inject_Z 0) with 0. change (inject_Z 1) with 1.
      lra. }
    assert (N1 : (n <= 360)%Z).
    { apply Z.lt_succ_r. rewrite Zlt_Qlt. change (inject_Z (Z.succ 360)) with 361.
      lra. }
    split; [split; [exact N0 | exact N1] |].
    split; [split; lra |].
    split; [| split].
    + split.
      * intro E. rewrite E in F1. change (inject_Z 360) with 360 in F1. lra.
      * intro G. apply Z.le_antisymm; [exact N1 |].
        apply Z.lt_succ_r. rewrite Zlt_Qlt. unfold Z.succ.
        rewrite inject_Z_plus. change (inject_Z 360) with 360.
        change (inject_Z 1) with 1. lra.
    + split.
      * intro E. rewrite E in F2. change (inject_Z 0) with 0 in F2. lra.
      * intro G. apply Z.le_antisymm; [| exact N0].
        apply Z.lt_succ_r. rewrite Zlt_Qlt. change (inject_Z (Z.succ 0)) with 1.
        lra.
    + vm_compute. reflexivity.
Qed.

(** X22. The centre line of the climb-rate marker of the HUD stays inside
    the box, 50 pixels above and below the centre of the box, for every
    vertical velocity; within half a unit per frame it moves 100 pixels per
    unit, upward for a climb, and beyond that it rests on the edge of the
    box.  The marker itself is the rectangle of height 4 around that line:
    it lies wholly inside the box exactly when the vertical velocity is
    within 0.48, and it never reaches more than 2 pixels over an edge of
    the box, which it does from a vertical velocity of 0.5 on. *)
Theorem hud_climb_indicator (crY vY : Q) :
  (crY - 50 <= hudIndicatorY crY vY <= crY + 50
   /\ (-0.5 <= vY <= 0.5 -> hudIndicatorY crY vY == crY - 100 * vY)
   /\ (0.5 <= vY -> hudIndicatorY crY vY == crY - 50)
   /\ (vY <= -0.5 -> hudIndicatorY crY vY == crY + 50))
  /\ (let box := hudClimbBox crY in
      let marker := hudClimbMarker crY vY in
      fst box == crY - 50
      /\ fst box + snd box == crY + 50
      /\ fst marker == hudIndicatorY crY vY - 2
      /\ fst marker + snd marker == hudIndicatorY crY vY + 2
      /\ (fst box - 2 <= fst marker /\ fst marker + snd marker <= fst box + snd box + 2)
      /\ ((fst box <= fst marker /\ fst marker + snd marker <= fst box + snd box)
          <-> -0.48 <= vY <= 0.48)
      /\ (0.5 <= vY -> fst marker == fst box - 2)
      /\ (vY <= -0.5 -> fst marker + snd marker == fst box + snd box + 2)).
Proof.
  unfold hudClimbBox, hudClimbMarker. cbn [fst snd].
  unfold hudIndicatorY. cbn zeta.
  set (c := JS.Math_max (-0.5) (JS.Math_min 0.5 vY)).
  assert (E : crY - c / 0.5 * (100 / 2) == crY - 100 * c) by (field).
  assert (B : crY - 100 / 2 == crY - 50) by (field).
  rewrite !E, !B.
  assert (C : -0.5 <= c <= 0.5) by (apply JSFacts.clamp_bounds; lra).
  assert (K1 : -0.5 <= vY <= 0.5 -> c == vY)
    by (intro H; apply JSFacts.clamp_inside; exact H).
  assert (K2 : 0.5 <= vY -> c == 0.5).
  { intro H. unfold c, JS.Math_max, JS.Math_min.
    destruct (Qlt_le_dec vY 0.5); destruct (Qlt_le_dec (-0.5) _); lra. }
  assert (K3 : vY <= -0.5 -> c == -0.5).
  { intro H. unfold c, JS.Math_max, JS.Math_min.
    destruct (Qlt_le_dec vY 0.5); destruct (Qlt_le_dec (-0.5) _); lra. }
  clearbody c.
  split; [split; [lra | split; [| split]]; intro H |].
  - rewrite (K1 H). ring.
  - rewrite (K2 H). ring.
  - rewrite (K3 H). ring.
  - split; [ring |]. split; [ring |]. split; [ring |]. split; [ring |].
    split; [split; lra |].
    split; [| split; intro H].
    + split.
      * intros [H1 H2].
        destruct (Qlt_le_dec vY (-0.5)) as [L | L].
        { assert (c == -0.5) by (apply K3; lra). lra. }
        destruct (Qlt_le_dec 0.5 vY) as [U | U].
        { assert (c == 0.5) by (apply K2; lra). lra. }
        assert (c == vY) by (apply K1; split; assumption). lra.
      * intro H. assert (c == vY) by (apply K1; lra). lra.
    + rewrite (K2 H). ring.
    + rewrite (K3 H). ring.
Qed.

(** A climb of 0.25 per frame: the centre line is 25 pixels above the
    centre of the box and the marker lies inside the box. *)
Lemma hud_climb_indicator_witness :
  hudIndicatorY 300 0.25 == 300 - 100 * 0.25
  /\ fst (hudClimbBox 300) <= fst (hudClimbMarker 300 0.25)
  /\ fst (hudClimbMarker 300 0.25) + snd (hudClimbMarker 300 0.25)
     <= fst (hudClimbBox 300) + snd (hudClimbBox 300).
Proof.
  destruct (hud_climb_indicator 300 0.25) as [(_ & H & _) (_ & _ & _ & _ & _ & I & _)].
  split; [apply H; split; discriminate |].
  apply I. split; discriminate.
Defined.

(** * The ship overlay *)

(** A smoothing step with a factor from 0 to 1 ends between the old value
    and the target. *)
Lemma lerp_between (x target c dt : Q) :
  0 <= c -> 0 <= dt -> c * dt <= 1 ->
  between x target (x + (target - x) * c * dt).
Proof.
  intros Hc Hd H. unfold between.
  assert (E : x + (target - x) * c * dt == x + (target - x) * (c * dt)) by ring.
  rewrite E. assert (K : 0 <= c * dt) by (apply Qmult_le_0_compat; assumption).
  set (k := c * dt) in *. clearbody k.
  unfold JS.Math_min, JS.Math_max.
  destruct (Qlt_le_dec target x); destruct (Qlt_le_dec x target); split; nra.
Qed.

Lemma overlay_dt_bounds (t last : Q) :
  last <= t -> 0 <= JS.Math_min ((t - last) / 1000) 0.1 <= 0.1.
Proof.
  intro H. split.
  - apply JSFacts.min_glb; [| lra]. apply JSFacts.div_nonneg; [reflexivity | lra].
  - apply JSFacts.min_r.
Qed.

Lemma between_unit (a b x : Q) :
  between a b x -> 0 <= a <= 1 -> 0 <= b <= 1 -> 0 <= x <= 1.
Proof.
  unfold between, JS.Math_min, JS.Math_max.
  destruct (Qlt_le_dec b a); destruct (Qlt_le_dec a b); lra.
Qed.

(** X23. A [render] call of the overlay at a time not before the last one
    never overshoots: the thrust level, the brake level and the yaw, pitch
    and roll of the ship each end between their old value and their
    target, so the two levels stay within 0 and 1 once they are. *)
Theorem overlay_no_overshoot (t : Q) (pressedKeys : list string) (controls : ControlConfig)
        (angularVelocity : vec2) (pitchOffset : option Q) (o : OverlayState) :
  ov_lastTime o <= t ->
  let o' := overlayRender t pressedKeys controls angularVelocity pitchOffset o in
  let tYaw := - snd angularVelocity * 1.2 in
  between (thrust_level o) (if isThrustingNow pressedKeys controls then 1.0 else 0.0)
          (thrust_level o')
  /\ between (brakeLevel o) (if isBraking pressedKeys controls then 1.0 else 0.0)
             (brakeLevel o')
  /\ between (ship_yaw o) tYaw (ship_yaw o')
  /\ between (ship_pitch o) (- fst angularVelocity * 1.0 + JS.nullish pitchOffset 0.0)
             (ship_pitch o')
  /\ between (ship_roll o) (tYaw * 1.5) (ship_roll o')
  /\ (0 <= thrust_level o <= 1 -> 0 <= thrust_level o' <= 1)
  /\ (0 <= brakeLevel o <= 1 -> 0 <= brakeLevel o' <= 1).
Proof.
  intros H o' tYaw.
  pose proof (overlay_dt_bounds t (ov_lastTime o) H) as [D1 D2].
  assert (T : between (thrust_level o) (if isThrustingNow pressedKeys controls then 1.0 else 0.0)
                      (thrust_level o')).
  { unfold o', overlayRender. cbn [thrust_level].
    destruct (isThrustingNow pressedKeys controls); apply lerp_between; lra. }
  assert (B : between (brakeLevel o) (if isBraking pressedKeys controls then 1.0 else 0.0)
                      (brakeLevel o')).
  { unfold o', overlayRender. cbn [brakeLevel].
    destruct (isBraking pressedKeys controls); apply lerp_between; lra. }
  split; [exact T |]. split; [exact B |].
  split; [| split; [| split; [| split]]].
  - unfold o', overlayRender. cbn [ship_yaw]. apply lerp_between; lra.
  - unfold o', overlayRender. cbn [ship_pitch]. apply lerp_between; lra.
  - unfold o', overlayRender. cbn [ship_roll]. apply lerp_between; lra.
  - intro U. apply (between_unit _ _ _ T U).
    destruct (isThrustingNow pressedKeys controls); lra.
  - intro U. apply (between_unit _ _ _ B U).
    destruct (isBraking pressedKeys controls); lra.
Qed.

(** The first call, 16 ms after the start, with the key 's' held. *)
Lemma overlay_no_overshoot_witness :
  0 <= thrust_level (overlayRender 16 ["s"]
                       (mkControl None None None None None None None None None None)
                       (0, 0) None initialOverlay) <= 1.
Proof.
  apply (overlay_no_overshoot 16 ["s"]
           (mkControl None None None None None None None None None None)
           (0, 0) None initialOverlay).
  - discriminate.
  - split; discriminate.
Defined.

(** X24. The flames of the overlay follow the forward axis of the game
    loop: the thrust flame is lit and the brake flame is not when the
    forward input of the frame is negative, the other way round when it is
    positive, and with no forward input both flames are lit (both keys
    held) or neither is. *)
Theorem overlay_flames_follow_axis (pressedKeys : list string) (controls : ControlConfig) :
  let fwd := axisInput pressedKeys "w" "s" (invertForward controls) in
  (fwd < 0 ->
   isThrustingNow pressedKeys controls = true /\ isBraking pressedKeys controls = false)
  /\ (0 < fwd ->
      isThrustingNow pressedKeys controls = false /\ isBraking pressedKeys controls = true)
  /\ (fwd == 0 ->
      isThrustingNow pressedKeys controls = has pressedKeys "w" && has pressedKeys "s"
      /\ isBraking pressedKeys controls = has pressedKeys "w" && has pressedKeys "s").
Proof.
  unfold axisInput, isThrustingNow, isBraking, truthy. cbn zeta.
  destruct (has pressedKeys "w"); destruct (has pressedKeys "s");
    destruct (invertForward controls) as [[|] |]; cbn;
    (split; [| split]); intro H; try (split; reflexivity);
    exfalso; revert H; try discriminate; intro H; apply H; reflexivity.
Qed.

Lemma overlay_flames_follow_axis_witness :
  isThrustingNow ["s"] (mkControl None None None None None None None None None None) = true
  /\ isBraking ["s"] (mkControl None None None None None None None None None None) = false.
Proof.
  apply (overlay_flames_follow_axis
           ["s"] (mkControl None None None None None None None None None None)).
  reflexivity.
Defined.

(** * The ship modulation loop *)

Lemma SHIP_MOD_RANGES_or (t : ShipModulationTarget) :
  JS.or (SHIP_MOD_RANGES t) 1.0 = SHIP_MOD_RANGES t.
Proof. destruct t; reflexivity. Qed.

(** One pass of the loop on one key: the key stays absent or present, and
    a present value takes the delta of a modulation that contributes. *)
Lemma applyShipModulation_key (inputs : ModulationSource -> Q)
      (cfg : ShipKey -> option Q) (m : ShipModulation) (k : ShipKey) :
  match cfg k with
  | None => applyShipModulation inputs cfg m k = None
  | Some v =>
      exists v', applyShipModulation inputs cfg m k = Some v'
                 /\ v' == v + (if shipContributes k m then shipDelta inputs m else 0)
                 /\ (shipContributes k m = false -> v' = v)
  end.
Proof.
  unfold applyShipModulation, shipContributes, shipDelta.
  destruct (smod_enabled m); cbn [negb andb].
  - destruct (ShipKey_eq_dec k (geometry (smod_target m))) as [E | E].
    + subst k. destruct (cfg (geometry (smod_target m))) as [old |] eqn:C;
        [| first [exact C | reflexivity]].
      cbn zeta. destruct (ShipKey_eq_dec _ _) as [_ | N]; [| contradiction N; reflexivity].
      eexists. split; [reflexivity |]. split; [| discriminate].
      rewrite SHIP_MOD_RANGES_or, JSFacts.or_zero. reflexivity.
    + destruct (cfg k) as [v |] eqn:C.
      * exists v. split; [| split; [ring | reflexivity]].
        destruct (cfg (geometry (smod_target m))); [| first [exact C | reflexivity]].
        cbn zeta. destruct (ShipKey_eq_dec _ _); [contradiction | first [exact C | reflexivity]].
      * destruct (cfg (geometry (smod_target m))); [| first [exact C | reflexivity]].
        cbn zeta. destruct (ShipKey_eq_dec _ _); [contradiction | first [exact C | reflexivity]].
  - destruct (cfg k) as [v |] eqn:C; [| first [exact C | reflexivity]].
    exists v. split; [first [exact C | reflexivity] | split; [ring | reflexivity]].
Qed.

Lemma shipLoop_key (inputs : ModulationSource -> Q) (k : ShipKey) :
  forall (mods : list ShipModulation) (cfg : ShipKey -> option Q),
    match cfg k with
    | None => fold_left (applyShipModulation inputs) mods cfg k = None
    | Some v =>
        exists v', fold_left (applyShipModulation inputs) mods cfg k = Some v'
                   /\ v' == v + sumQ (map (shipDelta inputs)
                                          (filter (shipContributes k) mods))
                   /\ (filter (shipContributes k) mods = [] -> v' = v)
    end.
Proof.
  induction mods as [| m mods IH]; intro cfg; cbn [fold_left filter].
  - destruct (cfg k) as [v |] eqn:C; [| first [exact C | reflexivity]].
    exists v. split; [first [exact C | reflexivity] |]. split; [cbn; ring | reflexivity].
  - pose proof (applyShipModulation_key inputs cfg m k) as A.
    specialize (IH (applyShipModulation inputs cfg m)).
    destruct (cfg k) as [v |].
    + destruct A as (v1 & A1 & A2 & A3). rewrite A1 in IH.
      destruct IH as (v2 & B1 & B2 & B3). exists v2. split; [exact B1 |].
      destruct (shipContributes k m) eqn:S.
      * split; [| discriminate]. cbn [map sumQ]. rewrite B2, A2. ring.
      * split; [rewrite B2, A2; ring |]. intro F. rewrite (B3 F). apply A3. reflexivity.
    + rewrite A in IH. exact IH.
Qed.

Lemma filter_shipContributes_nil (k : ShipKey) :
  forall l : list ShipModulation,
    (forall m, In m l -> smod_enabled m = true -> geometry (smod_target m) <> k) ->
    filter (shipContributes k) l = [].
Proof.
  induction l as [| m l IH]; intro H; [reflexivity |].
  cbn [filter]. unfold shipContributes at 1.
  destruct (smod_enabled m) eqn:S; cbn [andb].
  - destruct (ShipKey_eq_dec k (geometry (smod_target m))) as [E | E].
    + exfalso. apply (H m); [left; reflexivity | exact S | symmetry; exact E].
    + apply IH. intros m' I. apply H. right. exact I.
  - apply IH. intros m' I. apply H. right. exact I.
Qed.

(** X25. The ship that a frame draws: a numeric property of the ship
    config that is absent stays absent and one that is present stays
    present; a present property has the value of the config plus, for each
    enabled modulation on it, source value times amount times the range of
    the target; and a property that no enabled modulation has as its
    target, such as the five view parameters, has the value of the config
    itself. *)
Theorem ship_modulation_reference (ship : ShipConfig) (inputs : ModulationSource -> Q)
        (k : ShipKey) :
  let mods := JS.nullish (ship_modulations ship) [] in
  (effectiveShipConfig ship inputs k = None <-> ship_props ship k = None)
  /\ (forall v,
         ship_props ship k = Some v ->
         exists v',
           effectiveShipConfig ship inputs k = Some v'
           /\ v' == v + sumQ (map (shipDelta inputs) (filter (shipContributes k) mods)))
  /\ ((forall m, In m mods -> smod_enabled m = true -> geometry (smod_target m) <> k) ->
      effectiveShipConfig ship inputs k = ship_props ship k).
Proof.
  cbn zeta. unfold effectiveShipConfig.
  pose proof (shipLoop_key inputs k (JS.nullish (ship_modulations ship) [])
                           (ship_props ship)) as L.
  split; [| split].
  - destruct (ship_props ship k) as [v |].
    + destruct L as (v' & L1 & _). rewrite L1. split; discriminate.
    + rewrite L. split; reflexivity.
  - intros v E. rewrite E in L. destruct L as (v' & L1 & L2 & _).
    exists v'. split; assumption.
  - intro H. destruct (ship_props ship k) as [v |]; [| exact L].
    destruct L as (v' & L1 & _ & L3). rewrite L1. f_equal. apply L3.
    apply filter_shipContributes_nil. exact H.
Qed.

(** A ship with one modulation, of the speed on the twist. *)
Lemma ship_modulation_reference_witness :
  exists v',
    effectiveShipConfig
      (mkShip (ship_props defaultShipConfig)
              (Some [mkShipModulation "a" true speed twist 0.5]))
      (fun _ => 2) (geometry twist) = Some v'
    /\ v' == 0.0 + sumQ (map (shipDelta (fun _ => 2))
                             (filter (shipContributes (geometry twist))
                                     [mkShipModulation "a" true speed twist 0.5])).
Proof.
  apply (ship_modulation_reference
           (mkShip (ship_props defaultShipConfig)
                   (Some [mkShipModulation "a" true speed twist 0.5]))
           (fun _ => 2) (geometry twist)).
  reflexivity.
Defined.

(** * Saving and loading again *)

Lemma filter_idempotent {A : Type} (p : A -> bool) :
  forall l : list A, filter p (filter p l) = filter p l.
Proof.
  induction l as [| a l IH]; simpl; [reflexivity |].
  destruct (p a) eqn:E; simpl; [rewrite E, IH |]; auto.
Qed.

(** X26. A session that was loaded survives a save and a load: the
    snapshot that [getSessionState] takes of the store after
    [applySessionState], applied to any store, gives a session with the
    same values in every field, for every session file, also one with
    missing properties. *)
Theorem saved_session_reloads (sessionState : SessionState) (st0 st1 : Store) :
  let loaded := applySessionState sessionState st0 in
  sameSession (session (applySessionState (getSessionState loaded) st1))
              (session loaded).
Proof.
  cbn zeta. unfold sameSession.
  cbn [applySessionState getSessionState session currentSessionId activeShaderCode
       sliders uniforms cameraControlsEnabled terraformConfig controlConfig soundConfig
       sessionSource shipConfig canvasSize viewMode isHdEnabled isFpsEnabled isHudEnabled
       collisionThresholdRed collisionThresholdYellow
       ss_sessionId ss_shaderCode ss_sliders ss_uniforms ss_cameraControlsEnabled
       ss_terraformConfig ss_controlConfig ss_soundConfig ss_source ss_shipConfig
       ss_canvasSize ss_viewMode ss_isHdEnabled ss_isFpsEnabled ss_isHudEnabled
       ss_collisionThresholdRed ss_collisionThresholdYellow JS.nullish].
  repeat split; try reflexivity.
  - apply filter_idempotent.
  - apply mergedSoundConfig_stored.
  - intro k. unfold loadedShipConfig. cbn [ship_props].
    destruct (ss_shipConfig sessionState) as [s |]; cbn [ship_props].
    + destruct (ship_props s k); reflexivity.
    + reflexivity.
  - unfold loadedShipConfig. cbn [ship_modulations].
    destruct (ss_shipConfig sessionState) as [s |]; cbn [ship_modulations].
    + destruct (ship_modulations s); reflexivity.
    + reflexivity.
Qed.

(** * The view fade *)

Lemma Qabs_cases (x : Q) : 0 <= Qabs x /\ (Qabs x == x \/ Qabs x == - x).
Proof.
  split; [apply Qabs_nonneg |].
  destruct (Qlt_le_dec x 0) as [H | H].
  - right. apply Qabs_neg. lra.
  - left. apply Qabs_pos. exact H.
Qed.

Lemma viewTransitionStep_target (dt : Q) (tr : ViewTransition) :
  vt_target (viewTransitionStep dt tr) = vt_target tr.
Proof.
  unfold viewTransitionStep. cbn zeta.
  destruct (JS.gt _ _); [reflexivity |].
  destruct (negb _); reflexivity.
Qed.

Lemma viewTransitionRun_target (dts : list Q) :
  forall tr, vt_target (viewTransitionRun dts tr) = vt_target tr.
Proof.
  unfold viewTransitionRun. induction dts as [| dt dts IH]; intro tr; cbn [fold_left].
  - reflexivity.
  - rewrite IH. apply viewTransitionStep_target.
Qed.

(** Within 0.001 of the target the step lands on the target. *)
Lemma viewTransitionStep_near (dt : Q) (tr : ViewTransition) :
  Qabs (vt_target tr - vt_current tr) <= 0.001 ->
  vt_current (viewTransitionStep dt tr) == vt_target tr.
Proof.
  intro H. unfold viewTransitionStep. cbn zeta.
  destruct (JS.gt _ _) eqn:G.
  - apply JSFacts.gt_true in G. unfold JS.Math_abs in G. lra.
  - destruct (Qeq_bool (vt_current tr) (vt_target tr)) eqn:E; cbn [negb vt_current].
    + apply Qeq_bool_iff in E. exact E.
    + reflexivity.
Qed.

(** Farther away the step takes the part [5 dt] of the distance. *)
Lemma viewTransitionStep_far (dt : Q) (tr : ViewTransition) :
  0.001 < Qabs (vt_target tr - vt_current tr) ->
  vt_target tr - vt_current (viewTransitionStep dt tr)
  == (vt_target tr - vt_current tr) * (1 - 5 * dt).
Proof.
  intro H. unfold viewTransitionStep. cbn zeta.
  destruct (JS.gt _ _) eqn:G.
  - cbn [vt_current]. ring.
  - unfold JS.gt in G. apply JSFacts.lt_false in G. unfold JS.Math_abs in G. lra.
Qed.

Lemma viewTransitionRun_ends (d c : Q) :
  0 < d -> c == 0.005 * d ->
  forall (n : nat) (dts : list Q) (tr : ViewTransition),
    List.length dts = S n ->
    (forall dt, In dt dts -> d <= dt <= 0.1) ->
    Qabs (vt_target tr - vt_current tr) <= 0.001 + inject_Z (Z.of_nat n) * c ->
    vt_current (viewTransitionRun dts tr) == vt_target tr.
Proof.
  intros Hd Hc. induction n as [| n IH]; intros dts tr L B H.
  - destruct dts as [| dt [| dt' dts]]; try discriminate L.
    unfold viewTransitionRun. cbn [fold_left].
    apply viewTransitionStep_near. cbn [Z.of_nat] in H.
    change (inject_Z 0) with 0 in H. lra.
  - destruct dts as [| dt dts]; [discriminate L |].
    injection L as L. unfold viewTransitionRun. cbn [fold_left].
    fold (viewTransitionRun dts (viewTransitionStep dt tr)).
    rewrite <- (viewTransitionStep_target dt tr).
    apply IH; [exact L | intros dt' I; apply B; right; exact I |].
    rewrite viewTransitionStep_target.
    assert (Bdt : d <= dt <= 0.1) by (apply B; left; reflexivity).
    assert (N : 0 <= inject_Z (Z.of_nat n) * c).
    { apply Qmult_le_0_compat; [| lra].
      change 0 with (inject_Z 0). rewrite <- Zle_Qle. lia. }
    destruct (Qlt_le_dec 0.001 (Qabs (vt_target tr - vt_current tr))) as [F | F].
    + rewrite (viewTransitionStep_far dt tr F).
      rewrite Nat2Z.inj_succ in H. unfold Z.succ in H. rewrite inject_Z_plus in H.
      change (inject_Z 1) with 1 in H.
      rewrite Qabs_Qmult.
      destruct (Qabs_cases (vt_target tr - vt_current tr)) as [A0 A1].
      assert (P : Qabs (1 - 5 * dt) == 1 - 5 * dt) by (apply Qabs_pos; lra).
      rewrite P. set (a := Qabs (vt_target tr - vt_current tr)) in *.
      set (m := inject_Z (Z.of_nat n)) in *. clearbody a m.
      assert (K : 0.001 * d <= a * dt) by (clear - F Bdt Hd; nra).
      clear - K H Hc. nra.
    + rewrite (viewTransitionStep_near dt tr F).
      setoid_replace (vt_target tr - vt_target tr) with 0 by ring.
      assert (Z : Qabs 0 == 0) by reflexivity. rewrite Z. lra.
Qed.

(** X27. The fade between the views, in a frame of 0 to 0.1 seconds: the
    fade keeps its target and ends between its old value and the target,
    and within 0.001 of the target it lands on it.  Over frames that each
    take at least [d] seconds, for any [d] above 0, the fade reaches the
    target itself after a number of frames that depends on the start
    only. *)
Theorem view_fade (tr : ViewTransition) :
  (forall dt,
      0 <= dt <= 0.1 ->
      vt_target (viewTransitionStep dt tr) = vt_target tr
      /\ between (vt_current tr) (vt_target tr) (vt_current (viewTransitionStep dt tr))
      /\ (Qabs (vt_target tr - vt_current tr) <= 0.001 ->
          vt_current (viewTransitionStep dt tr) == vt_target tr))
  /\ (forall d,
         0 < d ->
         exists n : nat,
           forall dts,
             List.length dts = n ->
             (forall dt, In dt dts -> d <= dt <= 0.1) ->
             vt_current (viewTransitionRun dts tr) == vt_target tr).
Proof.
  split.
  - intros dt B. split; [apply viewTransitionStep_target |]. split.
    + unfold viewTransitionStep. cbn zeta. destruct (JS.gt _ _) eqn:G.
      * cbn [vt_current]. apply lerp_between; lra.
      * unfold JS.gt in G. apply JSFacts.lt_false in G. unfold JS.Math_abs in G.
        assert (K : vt_current (viewTransitionStep dt tr) == vt_target tr)
          by (apply viewTransitionStep_near; exact G).
        unfold viewTransitionStep in K. cbn zeta in K.
        assert (G' : JS.gt (JS.Math_abs (vt_target tr - vt_current tr)) 0.001 = false)
          by (unfold JS.gt; apply JSFacts.lt_false; exact G).
        rewrite G' in K. unfold between. rewrite K.
        split; [apply JSFacts.min_r | apply JSFacts.max_r].
    + apply viewTransitionStep_near.
  - intros d Hd.
    set (c := 0.005 * d).
    set (a := Qabs (vt_target tr - vt_current tr)).
    exists (S (Z.to_nat (Qceiling (a / c)))).
    intros dts L B.
    apply (viewTransitionRun_ends d c Hd (Qeq_refl c) _ dts tr L B).
    fold a. assert (Hc : 0 < c) by (unfold c; lra).
    assert (A0 : 0 <= a) by apply Qabs_nonneg.
    assert (Q0 : 0 <= a / c) by (apply JSFacts.div_nonneg; assumption).
    assert (Z0 : (0 <= Qceiling (a / c))%Z).
    { pose proof (Qle_ceiling (a / c)) as K.
      assert (K' : inject_Z (-1) < inject_Z (Qceiling (a / c))).
      { apply Qlt_le_trans with (a / c); [| exact K].
        apply Qlt_le_trans with 0; [reflexivity | exact Q0]. }
      rewrite <- Zlt_Qlt in K'. lia. }
    rewrite Z2Nat.id by exact Z0.
    pose proof (Qle_ceiling (a / c)) as K.
    assert (M : a / c * c <= inject_Z (Qceiling (a / c)) * c)
      by (apply Qmult_le_compat_r; [exact K | lra]).
    assert (E : a / c * c == a) by (field; lra).
    rewrite E in M. lra.
Qed.

(** The switch to the cockpit view at 60 frames per second. *)
Lemma view_fade_witness :
  exists n : nat,
    forall dts,
      List.length dts = n ->
      (forall dt, In dt dts -> (1 # 60) <= dt <= 0.1) ->
      vt_current (viewTransitionRun dts (setViewMode cockpit initialTransition))
      == vt_target (setViewMode cockpit initialTransition).
Proof.
  apply (view_fade (setViewMode cockpit initialTransition)). reflexivity.
Defined.

(** * Terraforming *)

Lemma lookup_deleteUniform_same (k : string) :
  forall u : Uniforms, lookup k (deleteUniform k u) = None.
Proof.
  unfold deleteUniform. induction u as [| [k' v] u IH]; simpl; [reflexivity |].
  destruct (String.eqb k k') eqn:E; simpl; [exact IH | rewrite E; exact IH].
Qed.

Lemma lookup_deleteUniform_other (k k0 : string) :
  k0 <> k -> forall u : Uniforms, lookup k0 (deleteUniform k u) = lookup k0 u.
Proof.
  intro N. unfold deleteUniform. induction u as [| [k' v] u IH]; simpl; [reflexivity |].
  destruct (String.eqb_spec k k') as [E | E]; simpl.
  - subst k'. destruct (String.eqb_spec k0 k); [contradiction | exact IH].
  - rewrite IH. reflexivity.
Qed.

Lemma lookup_None_iff (k : string) :
  forall u : Uniforms, lookup k u = None <-> ~ In k (map fst u).
Proof.
  induction u as [| [k' v] u IH]; simpl.
  - split; [intros _ [] | reflexivity].
  - destruct (String.eqb_spec k k') as [E | E].
    + split; [discriminate | intro H; exfalso; apply H; left; symmetry; exact E].
    + rewrite IH. split.
      * intros H [K | K]; [apply E; symmetry; exact K | exact (H K)].
      * intros H K. apply H. right. exact K.
Qed.

Lemma In_keyAdd (l : list string) (k k' : string) :
  In k' (keyAdd k l) <-> In k' l \/ k' = k.
Proof.
  rewrite <- !has_In, has_keyAdd, orb_true_iff, String.eqb_eq. reflexivity.
Qed.

Lemma NoDup_keyAdd (l : list string) (k : string) : NoDup l -> NoDup (keyAdd k l).
Proof.
  intro N. unfold keyAdd. destruct (has l k) eqn:E; [exact N |].
  apply NoDup_app; [exact N | repeat constructor; intros [] |].
  intros a H [K | []]. subst a. apply has_In in H. rewrite H in E. discriminate E.
Qed.

Lemma keySet_fold :
  forall l acc : list string,
    NoDup acc ->
    NoDup (fold_left (fun acc k => keyAdd k acc) l acc)
    /\ (forall k, In k (fold_left (fun acc k => keyAdd k acc) l acc) <-> In k acc \/ In k l).
Proof.
  induction l as [| x l IH]; intros acc N; cbn [fold_left].
  - split; [exact N |]. intro k. cbn. tauto.
  - destruct (IH (keyAdd x acc) (NoDup_keyAdd acc x N)) as [A B]. split; [exact A |].
    intro k. rewrite B, In_keyAdd. cbn. intuition congruence.
Qed.

Lemma affectedUniforms_spec (r : TerraformRefs) :
  NoDup (affectedUniforms r)
  /\ (forall k, In k (affectedUniforms r) <-> terraformAffected k r = true).
Proof.
  unfold affectedUniforms.
  destruct (keySet_fold (map fst (terraform_currentVelocity r)
                         ++ map fst (terraform_targetVelocity r)) [] (NoDup_nil _))
    as [A B].
  split; [exact A |]. intro k. rewrite B, in_app_iff. unfold terraformAffected.
  pose proof (lookup_None_iff k (terraform_currentVelocity r)) as C.
  pose proof (lookup_None_iff k (terraform_targetVelocity r)) as T.
  destruct (lookup k (terraform_currentVelocity r));
    destruct (lookup k (terraform_targetVelocity r)); cbn.
  - split; [reflexivity |]. intros _. right. left.
    destruct (in_dec string_dec k (map fst (terraform_currentVelocity r))) as [I | I];
      [exact I |]. apply C in I. discriminate I.
  - split; [reflexivity |]. intros _. right. left.
    destruct (in_dec string_dec k (map fst (terraform_currentVelocity r))) as [I | I];
      [exact I |]. apply C in I. discriminate I.
  - split; [reflexivity |]. intros _. right. right.
    destruct (in_dec string_dec k (map fst (terraform_targetVelocity r))) as [I | I];
      [exact I |]. apply T in I. discriminate I.
  - split; [| discriminate]. intros [[] | [I | I]]; exfalso.
    + destruct C as [C _]. exact (C eq_refl I).
    + destruct T as [T _]. exact (T eq_refl I).
Qed.

(** The loop body for one uniform leaves every other uniform alone. *)
Lemma terraformUpdateKey_other (sliders : list Slider) (k k0 : string)
      (st : TerraformRefs * Uniforms) :
  k0 <> k -> terraformView k0 (terraformUpdateKey sliders k st) = terraformView k0 st.
Proof.
  intro N. unfold terraformUpdateKey, terraformView.
  destruct (find _ sliders) as [s |]; [| reflexivity]. cbn zeta.
  destruct (terraformAtRest _ _);
    cbn [fst snd terraform_currentVelocity terraform_targetVelocity terraformPowerRef].
  - rewrite !(lookup_deleteUniform_other k k0 N). reflexivity.
  - rewrite (lookup_setUniform_other k k0 _ N).
    destruct (match lookup k (snd st) with Some old => _ | None => false end);
      [reflexivity |].
    rewrite (lookup_setUniform_other k k0 _ N). reflexivity.
Qed.

(** What the loop body does to its uniform depends on the entries of that
    uniform only. *)
Lemma terraformUpdateKey_same (sliders : list Slider) (k : string)
      (st1 st2 : TerraformRefs * Uniforms) :
  terraformView k st1 = terraformView k st2 ->
  terraformView k (terraformUpdateKey sliders k st1)
  = terraformView k (terraformUpdateKey sliders k st2).
Proof.
  unfold terraformView. intro H.
  assert (H1 : lookup k (terraform_currentVelocity (fst st1))
               = lookup k (terraform_currentVelocity (fst st2))) by congruence.
  assert (H2 : lookup k (terraform_targetVelocity (fst st1))
               = lookup k (terraform_targetVelocity (fst st2))) by congruence.
  assert (H3 : lookup k (snd st1) = lookup k (snd st2)) by congruence.
  assert (H4 : terraformPowerRef (fst st1) = terraformPowerRef (fst st2)) by congruence.
  clear H. unfold terraformUpdateKey.
  destruct (find _ sliders) as [s |]; [| congruence]. cbn zeta.
  rewrite H1, H2, H3, H4.
  destruct (terraformAtRest _ _);
    cbn [fst snd terraform_currentVelocity terraform_targetVelocity terraformPowerRef].
  - rewrite !lookup_deleteUniform_same, ?H3, ?H4. reflexivity.
  - rewrite !lookup_setUniform_same, ?H2, ?H4.
    destruct (match lookup k (snd st2) with Some old => _ | None => false end);
      [rewrite ?H3; reflexivity |].
    rewrite !lookup_setUniform_same. reflexivity.
Qed.

Lemma terraformFold_other (sliders : list Slider) (k0 : string) :
  forall (l : list string) (st : TerraformRefs * Uniforms),
    ~ In k0 l ->
    terraformView k0 (fold_left (fun st k => terraformUpdateKey sliders k st) l st)
    = terraformView k0 st.
Proof.
  induction l as [| k l IH]; intros st H; cbn [fold_left]; [reflexivity |].
  rewrite IH by (intro K; apply H; right; exact K).
  apply terraformUpdateKey_other. intro E. apply H. left. symmetry. exact E.
Qed.

Lemma terraformFold_key (sliders : list Slider) (k : string) :
  forall (l : list string) (st : TerraformRefs * Uniforms),
    NoDup l -> In k l ->
    terraformView k (fold_left (fun st k => terraformUpdateKey sliders k st) l st)
    = terraformView k (terraformUpdateKey sliders k st).
Proof.
  intros l st N I. apply in_split in I. destruct I as (l1 & l2 & E). subst l.
  apply NoDup_remove_2 in N.
  rewrite fold_left_app. cbn [fold_left].
  rewrite terraformFold_other by (intro K; apply N; apply in_or_app; right; exact K).
  apply terraformUpdateKey_same.
  apply terraformFold_other. intro K. apply N. apply in_or_app. left. exact K.
Qed.

(** The terraforming block, seen from one uniform: after the power step
    the loop body runs for the uniform when it has a velocity entry. *)
Lemma terraformStep_view (sliders : list Slider) (dt : Q) (k : string)
      (st : TerraformRefs * Uniforms) :
  terraformView k (terraformStep sliders dt st)
  = if terraformAffected k (fst st)
    then terraformView k (terraformUpdateKey sliders k (terraformPowered dt st))
    else terraformView k (terraformPowered dt st).
Proof.
  unfold terraformStep. cbn zeta. fold (terraformPowered dt st).
  set (r1 := mkTerraformRefs _ _ _ _).
  destruct (affectedUniforms_spec r1) as [N A].
  change (terraformAffected k (fst st)) with (terraformAffected k r1).
  destruct (terraformAffected k r1) eqn:E.
  - apply terraformFold_key; [exact N | apply A; exact E].
  - apply terraformFold_other. intro K. apply A in K. rewrite K in E. discriminate E.
Qed.

Lemma terraformUpdateKey_refs (sliders : list Slider) (k : string)
      (st : TerraformRefs * Uniforms) :
  terraformPowerRef (fst (terraformUpdateKey sliders k st)) = terraformPowerRef (fst st)
  /\ isTerraformingHeld (fst (terraformUpdateKey sliders k st))
     = isTerraformingHeld (fst st).
Proof.
  unfold terraformUpdateKey. destruct (find _ sliders); [| split; reflexivity].
  cbn zeta. destruct (terraformAtRest _ _); split; reflexivity.
Qed.

Lemma terraformFold_refs (sliders : list Slider) :
  forall (l : list string) (st : TerraformRefs * Uniforms),
    terraformPowerRef (fst (fold_left (fun st k => terraformUpdateKey sliders k st) l st))
    = terraformPowerRef (fst st)
    /\ isTerraformingHeld
         (fst (fold_left (fun st k => terraformUpdateKey sliders k st) l st))
       = isTerraformingHeld (fst st).
Proof.
  induction l as [| k l IH]; intro st; cbn [fold_left]; [split; reflexivity |].
  destruct (IH (terraformUpdateKey sliders k st)) as [A B].
  destruct (terraformUpdateKey_refs sliders k st) as [C D].
  split; congruence.
Qed.

Lemma terraformStep_refs (sliders : list Slider) (dt : Q) (st : TerraformRefs * Uniforms) :
  terraformPowerRef (fst (terraformStep sliders dt st))
  = terraformPowerStep (isTerraformingHeld (fst st)) dt (terraformPowerRef (fst st))
  /\ isTerraformingHeld (fst (terraformStep sliders dt st)) = isTerraformingHeld (fst st).
Proof.
  unfold terraformStep. cbn zeta.
  match goal with
  | |- context [fold_left _ ?l ?s0] =>
      destruct (terraformFold_refs sliders l s0) as [A B]
  end.
  rewrite A, B. split; reflexivity.
Qed.

Lemma terraformPowerStep_bounds (held : bool) (dt power : Q) :
  0 <= dt -> 0 <= power <= 1 ->
  0 <= terraformPowerStep held dt power <= 1
  /\ (held = true -> 0 < power -> terraformPowerStep held dt power <= power)
  /\ (held = false -> power <= terraformPowerStep held dt power).
Proof.
  intros Hd Hp. unfold terraformPowerStep, JS.gt, JS.lt, JS.Math_max, JS.Math_min.
  destruct held; cbn [andb];
    repeat match goal with
           | |- context [Qlt_le_dec ?a ?b] => destruct (Qlt_le_dec a b)
           end;
    (split; [lra | split; intros; try discriminate; lra]).
Qed.

(** X28. The terraforming power stays within 0 and 1 over every frame
    whose frame time is not negative, and so over every run of such
    frames; in a frame it drains only while the button is held and some
    power is left, and it never drains while the button is released. *)
Theorem terraform_power (sliders : list Slider) (st : TerraformRefs * Uniforms) :
  0 <= terraformPowerRef (fst st) <= 1 ->
  (forall dt,
      0 <= dt ->
      let st' := terraformStep sliders dt st in
      0 <= terraformPowerRef (fst st') <= 1
      /\ (isTerraformingHeld (fst st) = true -> 0 < terraformPowerRef (fst st) ->
          terraformPowerRef (fst st') <= terraformPowerRef (fst st))
      /\ (isTerraformingHeld (fst st) = false ->
          terraformPowerRef (fst st) <= terraformPowerRef (fst st')))
  /\ (forall dts,
         (forall dt, In dt dts -> 0 <= dt) ->
         0 <= terraformPowerRef (fst (terraformRun sliders dts st)) <= 1).
Proof.
  intro H. split.
  - intros dt Hd. cbn zeta. destruct (terraformStep_refs sliders dt st) as [E _].
    rewrite E. apply terraformPowerStep_bounds; assumption.
  - intro dts. revert st H. unfold terraformRun.
    induction dts as [| dt dts IH]; intros st H B; cbn [fold_left]; [exact H |].
    apply IH; [| intros dt' I; apply B; right; exact I].
    destruct (terraformStep_refs sliders dt st) as [E _]. rewrite E.
    apply terraformPowerStep_bounds; [apply B; left; reflexivity | exact H].
Qed.

Lemma terraform_power_witness :
  0 <= terraformPowerRef
         (fst (terraformRun [] [0.016; 0.016]
                            (mkTerraformRefs true 1.0 [] [], []))) <= 1.
Proof.
  apply (terraform_power [] (mkTerraformRefs true 1.0 [] [], [])).
  - split; discriminate.
  - intros dt [E | [E | []]]; subst dt; discriminate.
Defined.

Lemma terraformClamp_range (s : Slider) (val c1 : Q) :
  slider_min s <= slider_max s ->
  slider_min s <= fst (terraformClamp s val c1) <= slider_max s.
Proof.
  intro H. unfold terraformClamp, JS.gt. cbn zeta.
  destruct (JS.lt (slider_max s) val) eqn:G; cbn [fst].
  - destruct (JS.lt (slider_max s) (slider_min s)) eqn:L; cbn [fst].
    + apply JSFacts.lt_true in L. lra.
    + lra.
  - apply JSFacts.lt_false in G.
    destruct (JS.lt val (slider_min s)) eqn:L; cbn [fst].
    + lra.
    + apply JSFacts.lt_false in L. lra.
Qed.

Lemma terraformClamp_velocity (s : Slider) (val c1 : Q) :
  Qabs (snd (terraformClamp s val c1)) <= Qabs c1.
Proof.
  assert (Z : Qabs 0 <= Qabs c1) by apply Qabs_nonneg.
  unfold terraformClamp. cbn zeta.
  destruct (JS.gt val (slider_max s)); cbn [fst snd];
    destruct (JS.lt _ (slider_min s)); cbn [snd]; try exact Z; apply Qle_refl.
Qed.

Lemma terraformStep_value (sliders : list Slider) (dt : Q) (k : string)
      (st : TerraformRefs * Uniforms) :
  lookup k (snd (terraformStep sliders dt st))
  = if terraformAffected k (fst st)
    then lookup k (snd (terraformUpdateKey sliders k (terraformPowered dt st)))
    else lookup k (snd st).
Proof.
  pose proof (terraformStep_view sliders dt k st) as V.
  apply (f_equal (fun v => snd (fst v))) in V. cbn beta in V.
  destruct (terraformAffected k (fst st)); exact V.
Qed.

(** X29. Terraforming never takes a slider out of its range: in a frame
    the value of a uniform either stays as it is or becomes a value within
    the range of the slider of that name, whatever the velocities and the
    power are; a uniform without a slider is never written. *)
Theorem terraform_keeps_range (sliders : list Slider) (dt : Q) (k : string)
        (st : TerraformRefs * Uniforms) :
  let u' := snd (terraformStep sliders dt st) in
  (findSlider sliders k = None -> lookup k u' = lookup k (snd st))
  /\ (forall s,
         findSlider sliders k = Some s ->
         slider_min s <= slider_max s ->
         lookup k u' = lookup k (snd st)
         \/ exists v, lookup k u' = Some v /\ slider_min s <= v <= slider_max s).
Proof.
  cbn zeta. rewrite terraformStep_value. unfold findSlider, terraformUpdateKey.
  destruct (terraformAffected k (fst st)).
  - split.
    + intro F. rewrite F. reflexivity.
    + intros s F R. rewrite F. cbn zeta.
      destruct (terraformAtRest _ _); cbn [snd]; [left; reflexivity |].
      destruct (match lookup k (snd (terraformPowered dt st)) with
                | Some old => _ | None => false end); [left; reflexivity |].
      right. eexists. split; [apply lookup_setUniform_same |].
      apply terraformClamp_range. exact R.
  - split; [reflexivity |]. intros s _ _. left. reflexivity.
Qed.

(** A slider from 0 to 1 at 0.9, pushed upward. *)
Lemma terraform_keeps_range_witness :
  let sliders := [mkSlider "A" "slider_a" 0 1 0.01 0.5 None None] in
  let st := (mkTerraformRefs true 1.0 [("slider_a", 0.3)] [("slider_a", 0.3)],
             [("slider_a", 0.9)]) in
  lookup "slider_a" (snd (terraformStep sliders 0.016 st)) = lookup "slider_a" (snd st)
  \/ exists v, lookup "slider_a" (snd (terraformStep sliders 0.016 st)) = Some v
               /\ 0 <= v <= 1.
Proof.
  intros sliders st.
  destruct (terraform_keeps_range sliders 0.016 "slider_a" st) as [_ H].
  apply (H (mkSlider "A" "slider_a" 0 1 0.01 0.5 None None)).
  - reflexivity.
  - discriminate.
Defined.

(** With a target velocity of 0 the velocity loses a tenth. *)
Lemma terraformVelocity_released (cV : option Q) :
  Qabs (terraformVelocity cV (Some 0)) == 0.9 * Qabs (JS.nullish cV 0).
Proof.
  assert (E : terraformVelocity cV (Some 0) == 0.9 * JS.nullish cV 0).
  { unfold terraformVelocity. cbn zeta. rewrite !JSFacts.or_zero.
    cbn [JS.nullish]. ring. }
  rewrite E, Qabs_Qmult. reflexivity.
Qed.

Lemma terraformResting_step (sliders : list Slider) (dt : Q) (k : string)
      (st : TerraformRefs * Uniforms) :
  terraformResting k st ->
  terraformResting k (terraformStep sliders dt st)
  /\ lookup k (snd (terraformStep sliders dt st)) = lookup k (snd st).
Proof.
  intros [C T]. pose proof (terraformStep_view sliders dt k st) as V.
  unfold terraformAffected in V. rewrite C, T in V.
  pose proof (f_equal (fun v => fst (fst (fst v))) V) as V1.
  pose proof (f_equal (fun v => snd (fst (fst v))) V) as V2.
  pose proof (f_equal (fun v => snd (fst v)) V) as V3.
  unfold terraformView in V1, V2, V3.
  cbn [terraformPowered fst snd terraform_currentVelocity terraform_targetVelocity
       terraformPowerRef] in V1, V2, V3.
  unfold terraformResting. split; [split |]; congruence.
Qed.

Lemma terraformResting_run (sliders : list Slider) (k : string) :
  forall (dts : list Q) (st : TerraformRefs * Uniforms),
    terraformResting k st -> terraformResting k (terraformRun sliders dts st).
Proof.
  unfold terraformRun. induction dts as [| dt dts IH]; intros st H; cbn [fold_left].
  - exact H.
  - apply IH. apply terraformResting_step. exact H.
Qed.

(** A frame after the release: the uniform comes to rest, or its velocity
    was at least 0.0001 / 0.9 and has lost a tenth or more. *)
Lemma terraformStep_released (sliders : list Slider) (dt : Q) (k : string)
      (st : TerraformRefs * Uniforms) (s : Slider) :
  findSlider sliders k = Some s ->
  lookup k (terraform_targetVelocity (fst st)) = Some 0 ->
  terraformResting k (terraformStep sliders dt st)
  \/ (lookup k (terraform_targetVelocity (fst (terraformStep sliders dt st))) = Some 0
      /\ 0.0001 <= 0.9 * Qabs (JS.nullish (lookup k (terraform_currentVelocity (fst st))) 0)
      /\ Qabs (JS.nullish
                 (lookup k (terraform_currentVelocity (fst (terraformStep sliders dt st))))
                 0)
         <= 0.9 * Qabs (JS.nullish (lookup k (terraform_currentVelocity (fst st))) 0)).
Proof.
  intros F T. pose proof (terraformStep_view sliders dt k st) as V.
  assert (A : terraformAffected k (fst st) = true).
  { unfold terraformAffected. rewrite T.
    destruct (lookup k (terraform_currentVelocity (fst st))); reflexivity. }
  rewrite A in V. unfold terraformView in V.
  assert (V1 : lookup k (terraform_currentVelocity (fst (terraformStep sliders dt st)))
               = lookup k (terraform_currentVelocity
                             (fst (terraformUpdateKey sliders k (terraformPowered dt st)))))
    by congruence.
  assert (V2 : lookup k (terraform_targetVelocity (fst (terraformStep sliders dt st)))
               = lookup k (terraform_targetVelocity
                             (fst (terraformUpdateKey sliders k (terraformPowered dt st)))))
    by congruence.
  clear V. unfold terraformResting. rewrite V1, V2. clear V1 V2.
  unfold terraformUpdateKey. unfold findSlider in F. rewrite F. cbn zeta.
  cbn [terraformPowered fst snd terraform_currentVelocity terraform_targetVelocity
       terraformPowerRef isTerraformingHeld].
  rewrite T.
  set (cV := lookup k (terraform_currentVelocity (fst st))).
  pose proof (terraformVelocity_released cV) as D.
  destruct (terraformAtRest (terraformVelocity cV (Some 0)) (Some 0)) eqn:R;
    cbn [fst snd terraform_currentVelocity terraform_targetVelocity].
  - left. split; apply lookup_deleteUniform_same.
  - right. rewrite lookup_setUniform_same, T. cbn [JS.nullish].
    split; [reflexivity |].
    unfold terraformAtRest in R. rewrite andb_true_r in R.
    apply JSFacts.lt_false in R. unfold JS.Math_abs in R. rewrite D in R.
    split; [exact R |]. rewrite <- D. apply terraformClamp_velocity.
Qed.

Lemma terraformRun_decay (sliders : list Slider) (k : string) (s : Slider) :
  findSlider sliders k = Some s ->
  forall (n : nat) (dts : list Q) (st : TerraformRefs * Uniforms),
    List.length dts = S n ->
    terraformResting k st
    \/ (lookup k (terraform_targetVelocity (fst st)) = Some 0
        /\ Qabs (JS.nullish (lookup k (terraform_currentVelocity (fst st))) 0)
           <= 0.0001 + inject_Z (Z.of_nat n) * 0.00001) ->
    terraformResting k (terraformRun sliders dts st).
Proof.
  intro F. induction n as [| n IH]; intros dts st L H.
  - destruct dts as [| dt [| dt' dts]]; try discriminate L.
    unfold terraformRun. cbn [fold_left].
    destruct H as [H | [T H]]; [apply terraformResting_step; exact H |].
    destruct (terraformStep_released sliders dt k st s F T) as [K | (_ & K1 & K2)];
      [exact K |].
    exfalso. cbn [Z.of_nat] in H. change (inject_Z 0) with 0 in H. lra.
  - destruct dts as [| dt dts]; [discriminate L |]. injection L as L.
    unfold terraformRun. cbn [fold_left].
    fold (terraformRun sliders dts (terraformStep sliders dt st)).
    apply IH; [exact L |].
    destruct H as [H | [T H]]; [left; apply terraformResting_step; exact H |].
    destruct (terraformStep_released sliders dt k st s F T) as [K | (K0 & K1 & K2)];
      [left; exact K |].
    right. split; [exact K0 |].
    rewrite Nat2Z.inj_succ in H. unfold Z.succ in H. rewrite inject_Z_plus in H.
    change (inject_Z 1) with 1 in H.
    set (a := Qabs (JS.nullish (lookup k (terraform_currentVelocity (fst st))) 0)) in *.
    set (m := inject_Z (Z.of_nat n)) in *. clearbody a m. lra.
Qed.

Lemma lookup_released (k : string) :
  forall u : Uniforms,
    In k (map fst u) -> lookup k (map (fun kv => (fst kv, 0)) u) = Some 0.
Proof.
  induction u as [| [k' v] u IH]; simpl; intro H; [destruct H |].
  destruct (String.eqb_spec k k') as [E | E]; [reflexivity |].
  apply IH. destruct H as [H | H]; [exfalso; apply E; symmetry; exact H | exact H].
Qed.

(** X30. After the terraform button is released the terraforming of a
    uniform ends: for a uniform that has a slider and a target velocity,
    there is a number of frames after which the uniform has no velocity
    entry left, whatever the frame times are, and from then on no frame
    changes its value. *)
Theorem terraform_comes_to_rest (sliders : list Slider) (k : string)
        (r : TerraformRefs) (u : Uniforms) :
  findSlider sliders k <> None ->
  In k (map fst (terraform_targetVelocity r)) ->
  exists n : nat,
    forall dts,
      (n <= List.length dts)%nat ->
      let st := terraformRun sliders dts (handleTerraformRelease r, u) in
      terraformResting k st
      /\ forall dt, lookup k (snd (terraformStep sliders dt st)) = lookup k (snd st).
Proof.
  intros F I. destruct (findSlider sliders k) as [s |] eqn:Fs; [| contradiction].
  set (a := Qabs (JS.nullish (lookup k (terraform_currentVelocity r)) 0)).
  set (n := Z.to_nat (Qceiling (a / 0.00001))).
  exists (S n). intros dts L. cbn zeta.
  assert (R : terraformResting k (terraformRun sliders dts (handleTerraformRelease r, u))).
  { rewrite <- (firstn_skipn (S n) dts). unfold terraformRun. rewrite fold_left_app.
    apply (terraformResting_run sliders k).
    apply (terraformRun_decay sliders k s Fs n).
    - apply firstn_length_le. exact L.
    - right. cbn [handleTerraformRelease fst terraform_targetVelocity
                  terraform_currentVelocity].
      split; [apply lookup_released; exact I |]. fold a.
      assert (A0 : 0 <= a) by apply Qabs_nonneg.
      assert (Q0 : 0 <= a / 0.00001)
        by (apply JSFacts.div_nonneg; [reflexivity | exact A0]).
      pose proof (Qle_ceiling (a / 0.00001)) as K.
      assert (Z0 : (0 <= Qceiling (a / 0.00001))%Z).
      { assert (K' : inject_Z (-1) < inject_Z (Qceiling (a / 0.00001))).
        { apply Qlt_le_trans with (a / 0.00001); [| exact K].
          apply Qlt_le_trans with 0; [reflexivity | exact Q0]. }
        rewrite <- Zlt_Qlt in K'. lia. }
      unfold n. rewrite Z2Nat.id by exact Z0.
      assert (M : a / 0.00001 * 0.00001 <= inject_Z (Qceiling (a / 0.00001)) * 0.00001)
        by (apply Qmult_le_compat_r; [exact K | discriminate]).
      assert (E : a / 0.00001 * 0.00001 == a) by (field).
      rewrite E in M. lra. }
  split; [exact R |]. intro dt. apply terraformResting_step. exact R.
Qed.

(** A uniform that was being pushed at the velocity 0.3 when the button
    was released. *)
Lemma terraform_comes_to_rest_witness :
  exists n : nat,
    forall dts,
      (n <= List.length dts)%nat ->
      terraformResting
        "slider_a"
        (terraformRun [mkSlider "A" "slider_a" 0 1 0.01 0.5 None None] dts
                      (handleTerraformRelease
                         (mkTerraformRefs true 0.5 [("slider_a", 0.3)]
                                          [("slider_a", 0.3)]),
                       [("slider_a", 0.9)])).
Proof.
  destruct (terraform_comes_to_rest
              [mkSlider "A" "slider_a" 0 1 0.01 0.5 None None] "slider_a"
              (mkTerraformRefs true 0.5 [("slider_a", 0.3)] [("slider_a", 0.3)])
              [("slider_a", 0.9)]) as [n H].
  - discriminate.
  - left. reflexivity.
  - exists n. intros dts L. apply (H dts L).
Defined.
